(** * sparse_vector: a shallow embedding of [sv::sparse_vector<T>]

    The development follows [sparse_vector.hpp].  The container owns a
    buffer of [value_info] cells, a logical size, a capacity and a vector
    of free indices.

    Modelling decisions.
    - [size_type] is [nat].  The class computes on sizes only with
      [capacity_ * 2], [++size_] and [--size_]; the last two are guarded by
      [size_ < capacity_] and [size_ != 0], and a capacity the storage
      provider has granted is at most [SIZE_MAX / sizeof(value_info)],
      which is at most [SIZE_MAX / 2], so no computation wraps.
    - The storage provider always serves a request: [allocate n] is a
      buffer of [n] raw cells.  A raw cell has no constructed value and an
      indeterminate flag.
    - [T] is any type of values: copying or moving a [T] yields the same
      value, construction cannot fail, and the destructor ends the lifetime
      of the object held by the slot.  A slot is [Some v] while it holds a
      constructed [v] and [None] otherwise.  Constructing over a slot that
      holds an object replaces it.  A destructor call on a slot that holds
      no object is undefined, as it is for every [T] with a destructor of
      its own ([pop_back] calls the destructor on its last cell whether or
      not the cell is live).
    - [push_free] and [emplace_free] receive their argument by reference
      and read it when they construct the new value, after the buffer may
      have been replaced.  The argument is a [reference]: to an object
      outside the container, or to the value of a cell of its buffer.
    - An execution has one of three outcomes: it returns ([Ok]), it throws
      ([Throw]), or its behaviour is undefined ([Undefined]: an access
      outside the buffer or through the null pointer, the read of an
      indeterminate flag, the read or the destruction of a slot that holds
      no object, a read from released storage).  Every
      [throw] of the class comes before the first write of the member
      function that raises it, so a thrown exception leaves the container
      as it was and [Throw] carries no state.
    - Pointers into the buffer are offsets from [data_]. *)

From Stdlib Require Import String.
From stdpp Require Import base list.

(** ** Outcomes *)

Inductive exn : Type :=
  | out_of_range (what : string).

Inductive result (A : Type) : Type :=
  | Ok (a : A)
  | Throw (e : exn)
  | Undefined.

Arguments Ok {A} a.
Arguments Throw {A} e.
Arguments Undefined {A}.

#[global] Instance result_ret : MRet result := fun A a => Ok a.
#[global] Instance result_bind : MBind result := fun A B f m =>
  match m with
  | Ok a => f a
  | Throw e => Throw e
  | Undefined => Undefined
  end.
#[global] Instance result_fmap : FMap result := fun A B f m =>
  match m with
  | Ok a => Ok (f a)
  | Throw e => Throw e
  | Undefined => Undefined
  end.

(** [for (size_type i = lo; i < hi; ++i) body], for a body that assigns
    neither [i] nor the bound. *)
Fixpoint for_range {St : Type} (n i : nat) (body : nat -> St -> result St)
    (st : St) : result St :=
  match n with
  | 0 => Ok st
  | S n' => st' ← body i st; for_range n' (S i) body st'
  end.

Definition for_loop {St : Type} (lo hi : nat) (body : nat -> St -> result St)
    (st : St) : result St :=
  for_range (hi - lo) lo body st.

(** ** Cells and buffers *)

Record value_info (T : Type) : Type := {
  value : option T;      (* [None]: the slot holds no constructed object *)
  exist : option bool    (* [None]: the flag was never written *)
}.

Arguments value {T} _.
Arguments exist {T} _.
Arguments Build_value_info {T} _ _.

Record sparse_vector (T : Type) : Type := {
  data_ : option (list (value_info T));   (* [None]: [nullptr] *)
  size_ : nat;
  capacity_ : nat;
  freeIndeces_ : list nat                 (* vector order: [back] is last *)
}.

Arguments data_ {T} _.
Arguments size_ {T} _.
Arguments capacity_ {T} _.
Arguments freeIndeces_ {T} _.
Arguments Build_sparse_vector {T} _ _ _ _.

(** The text of the exceptions. *)
Definition erase_at_range_msg : string :=
  "out of sparse_vector range on erase_at."%string.
Definition erase_at_vacant_msg : string :=
  "value doesnt exist in sparse_vector on this index. erase_at."%string.
Definition pop_back_empty_msg : string :=
  "sparse_vector is empty on pop_back."%string.
Definition emplace_at_range_msg : string :=
  "index out of sparse_vector size on put_at."%string.
Definition emplace_at_occupied_msg : string :=
  "value already exist in sparse_vector on this index. put_at."%string.
Definition at_range_msg : string :=
  "index out of sparse_vector size on at."%string.
Definition at_vacant_msg : string :=
  "value doesnt exist in sparse_vector on this index. at."%string.

Section SparseVector.
Context {T : Type}.

Abbreviation cell := (value_info T).
Abbreviation buffer := (list (value_info T)).
Abbreviation sv := (sparse_vector T).

(** [allocator_.allocate(n)]: raw storage. *)
Definition raw : cell := {| value := None; exist := None |}.
Definition allocate (n : nat) : buffer := replicate n raw.

(** *** Primitive accesses to a buffer *)

(* [p[i]] as an lvalue *)
Definition cell_at (p : option buffer) (i : nat) : result cell :=
  match p with
  | None => Undefined
  | Some buf => match buf !! i with
                | Some c => Ok c
                | None => Undefined
                end
  end.

(* [p[i].exist] as an rvalue *)
Definition read_exist (p : option buffer) (i : nat) : result bool :=
  c ← cell_at p i;
  match exist c with
  | Some b => Ok b
  | None => Undefined
  end.

(* [p[i].value] as an rvalue *)
Definition read_value (p : option buffer) (i : nat) : result T :=
  c ← cell_at p i;
  match value c with
  | Some v => Ok v
  | None => Undefined
  end.

Definition update_cell (f : cell -> cell) (p : option buffer) (i : nat)
    : result (option buffer) :=
  c ← cell_at p i;
  Ok (alter f i <$> p).

(* [p[i].exist = b] *)
Definition write_exist (b : bool) : option buffer -> nat -> result (option buffer) :=
  update_cell (fun c => {| value := value c; exist := Some b |}).

(* [new(&p[i].value) value_type(v)] *)
Definition construct (v : T) : option buffer -> nat -> result (option buffer) :=
  update_cell (fun c => {| value := Some v; exist := exist c |}).

(* [p[i].value.~value_type()]: the call ends the lifetime of the object the
   slot holds; there has to be one. *)
Definition destroy (p : option buffer) (i : nat) : result (option buffer) :=
  _ ← read_value p i;
  update_cell (fun c => {| value := None; exist := exist c |}) p i.

Definition set_data (p : option buffer) (s : sv) : sv :=
  {| data_ := p; size_ := size_ s; capacity_ := capacity_ s;
     freeIndeces_ := freeIndeces_ s |}.
Definition set_size (n : nat) (s : sv) : sv :=
  {| data_ := data_ s; size_ := n; capacity_ := capacity_ s;
     freeIndeces_ := freeIndeces_ s |}.
Definition set_freeIndeces (l : list nat) (s : sv) : sv :=
  {| data_ := data_ s; size_ := size_ s; capacity_ := capacity_ s;
     freeIndeces_ := l |}.

(** *** Private members *)

(* details::move_place(dst[i].value, src[i].value) *)
Definition move_place (dst : option buffer) (src : option buffer) (i : nat)
    : result (option buffer) :=
  v ← read_value src i;
  construct v dst i.

(* changes data and capacity; [newCapacity] must be more than the current
   capacity *)
Definition reallocate (newCapacity : nat) (s : sv) : result sv :=
  let newData := Some (allocate newCapacity) in
  newData ← for_loop 0 (size_ s) (fun i newData =>
      e ← read_exist (data_ s) i;
      if negb e then write_exist false newData i
      else newData ← move_place newData (data_ s) i;
           write_exist true newData i) newData;
  Ok {| data_ := newData; size_ := size_ s; capacity_ := newCapacity;
        freeIndeces_ := freeIndeces_ s |}.

Definition mark_as_free (i : nat) (s : sv) : result sv :=
  p ← write_exist false (data_ s) i;
  Ok (set_freeIndeces (freeIndeces_ s ++ [i]) (set_data p s)).

(** *** Constructors *)

(* sparse_vector() *)
Definition sparse_vector_default : sv :=
  {| data_ := Some (allocate 2); size_ := 0; capacity_ := 2;
     freeIndeces_ := [] |}.

(* sparse_vector(std::initializer_list<value_type> other) *)
Definition sparse_vector_init (other : list T) : result sv :=
  p ← for_loop 0 (length other) (fun i p =>
      v ← match other !! i with Some v => Ok v | None => Undefined end;
      p ← construct v p i;
      write_exist true p i) (Some (allocate (length other)));
  Ok {| data_ := p; size_ := length other; capacity_ := length other;
        freeIndeces_ := [] |}.

(* sparse_vector(sparse_vector&& other): the new container and what is left
   of [other].  A moved-from std::vector is empty. *)
Definition sparse_vector_move (other : sv) : sv * sv :=
  (other,
   {| data_ := None; size_ := 0; capacity_ := capacity_ other;
      freeIndeces_ := [] |}).

(* sparse_vector(const sparse_vector& other) *)
Definition sparse_vector_copy (other : sv) : result sv :=
  p ← for_loop 0 (size_ other) (fun i p =>
      e ← read_exist (data_ other) i;
      if negb e then write_exist false p i
      else v ← read_value (data_ other) i;
           p ← construct v p i;
           write_exist true p i) (Some (allocate (capacity_ other)));
  Ok {| data_ := p; size_ := size_ other; capacity_ := capacity_ other;
        freeIndeces_ := freeIndeces_ other |}.

(** *** Public members *)

(* What a [const_referens] argument refers to: an object outside the
   container, or the value of cell [j] of its buffer, as [at(j)] and
   [operator[](j)] return it. *)
Inductive reference : Type :=
  | External (v : T)
  | Internal (j : nat).

(* The read of the argument by [new(&p[index].value) value_type(val)].
   [released] tells that [reallocate] has run since the call: it has given
   the buffer the argument may refer to back to the allocator.  The cell
   under construction does not hold the object it is constructed from. *)
Definition read_reference (val : reference) (released : bool)
    (p : option buffer) (index : nat) : result T :=
  match val with
  | External v => Ok v
  | Internal j =>
      if released then Undefined
      else if j =? index then Undefined
      else read_value p j
  end.

Definition push_free (val : reference) (s : sv) : result (nat * sv) :=
  '(index, released, s) ← match last (freeIndeces_ s) with
      | None =>                         (* freeIndeces_.empty() *)
          '(released, s) ← (if size_ s =? capacity_ s
               then s ← reallocate (capacity_ s * 2) s; Ok (true, s)
               else Ok (false, s));
          Ok (size_ s, released, set_size (S (size_ s)) s)
      | Some index =>                   (* freeIndeces_.back() *)
          Ok (index, false, set_freeIndeces (removelast (freeIndeces_ s)) s)
      end;
  v ← read_reference val released (data_ s) index;
  p ← construct v (data_ s) index;
  p ← write_exist true p index;
  Ok (index, set_data p s).

(* The arguments of [emplace_free] are those of a constructor of [T],
   forwarded by reference; the object they construct from stands for
   them. *)
Definition emplace_free (args : reference) (s : sv) : result (nat * sv) :=
  '(index, released, s) ← match last (freeIndeces_ s) with
      | None =>
          '(released, s) ← (if size_ s =? capacity_ s
               then s ← reallocate (capacity_ s * 2) s; Ok (true, s)
               else Ok (false, s));
          Ok (size_ s, released, set_size (S (size_ s)) s)
      | Some index =>
          Ok (index, false, set_freeIndeces (removelast (freeIndeces_ s)) s)
      end;
  v ← read_reference args released (data_ s) index;
  p ← construct v (data_ s) index;
  p ← write_exist true p index;
  Ok (index, set_data p s).

Definition erase_at (index : nat) (s : sv) : result sv :=
  if size_ s <? index then Throw (out_of_range erase_at_range_msg)
  else
    e ← read_exist (data_ s) index;
    if negb e then Throw (out_of_range erase_at_vacant_msg)
    else
      p ← destroy (data_ s) index;
      mark_as_free index (set_data p s).

Definition pop_back (s : sv) : result sv :=
  if size_ s =? 0 then Throw (out_of_range pop_back_empty_msg)
  else
    let s := set_size (size_ s - 1) s in
    p ← destroy (data_ s) (size_ s);
    p ← write_exist false p (size_ s);
    Ok (set_data p s).

(* [funct] is a zero-argument producer, possibly with a state of its own:
   [funct k] is what its call number [k] returns. *)
Definition feel_free_cells (funct : nat -> T) (s : sv) : result sv :=
  '(p, _) ← for_loop 0 (size_ s) (fun i '(p, k) =>
      e ← read_exist p i;
      if negb e then
        p ← construct (funct k) p i;
        p ← write_exist true p i;
        Ok (p, S k)
      else Ok (p, k)) (data_ s, 0);
  Ok (set_freeIndeces [] (set_data p s)).

Definition reserve (newCapacity : nat) (s : sv) : result sv :=
  if newCapacity <=? capacity_ s then Ok s
  else reallocate newCapacity s.

Definition resize (newSize : nat) (s : sv) : result sv :=
  s ← reserve newSize s;
  s ← for_loop (size_ s) newSize mark_as_free s;
  Ok (set_size newSize s).

Definition exist_at (i : nat) (s : sv) : result bool :=
  if size_ s <=? i then Ok false
  else
    e ← read_exist (data_ s) i;
    if negb e then Ok false else Ok true.

(* [emplace_at] releases no storage before it reads its arguments: the value
   they construct stands for them. *)
Definition emplace_at (i : nat) (args : T) (s : sv) : result sv :=
  if size_ s <=? i then Throw (out_of_range emplace_at_range_msg)
  else
    e ← read_exist (data_ s) i;
    if negb e then Throw (out_of_range emplace_at_occupied_msg)
    else
      p ← construct args (data_ s) i;
      p ← write_exist true p i;
      Ok (set_data p s).

Definition clear (s : sv) : result sv :=
  p ← for_loop 0 (size_ s) (fun i (p : option buffer) =>
      e ← read_exist p i;
      if (e : bool) then p ← destroy p i; write_exist false p i
      else Ok p) (data_ s);
  Ok (set_size 0 (set_freeIndeces [] (set_data p s))).

Definition size (s : sv) : nat := size_ s.
Definition capacity (s : sv) : nat := capacity_ s.
Definition get_free_cells (s : sv) : list nat := freeIndeces_ s.

(* operator[] *)
Definition subscript (i : nat) (s : sv) : result T := read_value (data_ s) i.

Definition at_ (i : nat) (s : sv) : result T :=
  if size_ s <=? i then Throw (out_of_range at_range_msg)
  else
    e ← read_exist (data_ s) i;
    if negb e then Throw (out_of_range at_vacant_msg)
    else read_value (data_ s) i.

(** *** Iterators *)

Record iterator : Type := {
  ptr_ : nat;
  endPtr_ : nat
}.

(* [while ((ptr_ != endPtr_) && !ptr_->exist) ++ptr_;] where [rest] is the
   buffer from [ptr_] on.  Each round moves one cell forward, and a read
   past the last cell is undefined, so the recursion is on [rest]. *)
Fixpoint skip_free (rest : buffer) (ptr endPtr : nat) : result nat :=
  if ptr =? endPtr then Ok ptr
  else match rest with
       | [] => Undefined
       | c :: rest =>
           match exist c with
           | None => Undefined
           | Some e => if negb e then skip_free rest (S ptr) endPtr
                       else Ok ptr
           end
       end.

Definition cells_from (p : option buffer) (ptr : nat) : buffer :=
  match p with
  | Some buf => drop ptr buf
  | None => []
  end.

(* iterator(value_info* ptr, const value_info* endPtr) *)
Definition iterator_ctor (p : option buffer) (ptr endPtr : nat)
    : result iterator :=
  ptr ← skip_free (cells_from p ptr) ptr endPtr;
  Ok {| ptr_ := ptr; endPtr_ := endPtr |}.

(* operator* *)
Definition iterator_deref (p : option buffer) (it : iterator) : result T :=
  read_value p (ptr_ it).

(* operator++ *)
Definition iterator_incr (p : option buffer) (it : iterator)
    : result iterator :=
  let ptr := S (ptr_ it) in
  ptr ← skip_free (cells_from p ptr) ptr (endPtr_ it);
  Ok {| ptr_ := ptr; endPtr_ := endPtr_ it |}.

(* operator!= *)
Definition iterator_neq (a b : iterator) : bool := negb (ptr_ a =? ptr_ b).

(* operator== *)
Definition iterator_eq (a b : iterator) : bool := ptr_ a =? ptr_ b.

Definition begin_ (s : sv) : result iterator :=
  iterator_ctor (data_ s) 0 (size_ s).
Definition end_ (s : sv) : result iterator :=
  iterator_ctor (data_ s) (size_ s) (size_ s).

(* [for (it = first; it != last; ++it) yield *it;] run for at most [fuel]
   rounds; [None] when the rounds do not suffice. *)
Fixpoint range_for (fuel : nat) (p : option buffer) (it last : iterator)
    : option (result (list T)) :=
  match fuel with
  | 0 => None
  | S fuel =>
      if iterator_neq it last then
        match (v ← iterator_deref p it;
               it ← iterator_incr p it; Ok (v, it)) with
        | Ok (v, it) =>
            (fun r => l ← r; Ok (v :: l)) <$> range_for fuel p it last
        | Throw e => Some (Throw e)
        | Undefined => Some Undefined
        end
      else Some (Ok [])
  end.

(* the range-based [for] over the container itself, as in the destructor *)
Definition iterate (fuel : nat) (s : sv) : option (result (list T)) :=
  match (first ← begin_ s; last ← end_ s; Ok (first, last)) with
  | Ok (first, last) => range_for fuel (data_ s) first last
  | Throw e => Some (Throw e)
  | Undefined => Some Undefined
  end.

(* The loop of the destructor, the range-based [for] over the container
   with the body [i.~value_type();], run for at most [fuel] rounds.  It
   returns the values whose destructor ran, in the order of the calls, and
   the buffer it leaves. *)
Fixpoint destroy_live (fuel : nat) (p : option buffer) (it last : iterator)
    : option (result (list T * option buffer)) :=
  match fuel with
  | 0 => None
  | S fuel =>
      if iterator_neq it last then
        match (v ← iterator_deref p it;
               p ← destroy p (ptr_ it);
               it ← iterator_incr p it; Ok (v, p, it)) with
        | Ok (v, p, it) =>
            (fun r => '(l, p) ← r; Ok (v :: l, p))
              <$> destroy_live fuel p it last
        | Throw e => Some (Throw e)
        | Undefined => Some Undefined
        end
      else Some (Ok ([], p))
  end.

(* ~sparse_vector(): nothing on a null buffer; otherwise the loop above,
   then the buffer is released and [data_] and [size_] are reset. *)
Definition destructor (fuel : nat) (s : sv) : option (result (list T * sv)) :=
  match data_ s with
  | None => Some (Ok ([], s))
  | Some _ =>
      match (first ← begin_ s; last ← end_ s; Ok (first, last)) with
      | Ok (first, last) =>
          (fun r => '(l, _) ← r;
                    Ok (l, {| data_ := None; size_ := 0;
                              capacity_ := capacity_ s;
                              freeIndeces_ := freeIndeces_ s |}))
            <$> destroy_live fuel (data_ s) first last
      | Throw e => Some (Throw e)
      | Undefined => Some Undefined
      end
  end.

(** *** The mutating members as one step function *)

Inductive op : Type :=
  | PushFree (val : reference)
  | EmplaceFree (args : reference)
  | EraseAt (index : nat)
  | PopBack
  | FeelFreeCells (funct : nat -> T)
  | Reserve (newCapacity : nat)
  | Resize (newSize : nat)
  | EmplaceAt (i : nat) (args : T)
  | Clear.

Definition run (o : op) (s : sv) : result sv :=
  match o with
  | PushFree val => snd <$> push_free val s
  | EmplaceFree args => snd <$> emplace_free args s
  | EraseAt index => erase_at index s
  | PopBack => pop_back s
  | FeelFreeCells funct => feel_free_cells funct s
  | Reserve newCapacity => reserve newCapacity s
  | Resize newSize => resize newSize s
  | EmplaceAt i args => emplace_at i args s
  | Clear => clear s
  end.

(** ** Predicates on states *)

(* The two contents of a cell the members leave behind. *)
Definition live (v : T) : cell := {| value := Some v; exist := Some true |}.
Definition vacant : cell := {| value := None; exist := Some false |}.

(* What [mark_as_free] makes of a cell. *)
Definition clear_flag (c : cell) : cell :=
  {| value := value c; exist := Some false |}.

(* The number of cells with a clear flag in a run of cells. *)
Definition is_free (c : cell) : bool :=
  match exist c with
  | Some false => true
  | _ => false
  end.
Fixpoint count_free (l : buffer) : nat :=
  match l with
  | [] => 0
  | c :: l => (if is_free c then 1 else 0) + count_free l
  end.

(* What [feel_free_cells funct] makes of cell [i] of the buffer [buf]: the
   free cell number [k] from the start receives [funct k]. *)
Definition fill (funct : nat -> T) (buf : buffer) (i : nat) (c : cell)
    : cell :=
  if is_free c then live (funct (count_free (take i buf))) else c.

(* What [clear] makes of a cell. *)
Definition wipe (c : cell) : cell :=
  match exist c with
  | Some true => vacant
  | _ => c
  end.

(* What relocation into a new buffer makes of a cell. *)
Definition relocate (c : cell) : cell :=
  {| value := match exist c with Some true => value c | _ => None end;
     exist := exist c |}.

(* A cell below [size_]: its flag has been written, and a set flag comes
   with a constructed value. *)
Definition cell_okb (c : cell) : bool :=
  match exist c, value c with
  | Some false, _ => true
  | Some true, Some _ => true
  | _, _ => false
  end.

(* The container owns a buffer of [capacity_] cells, [size_] of them in
   use.  A moved-from container owns none: it is left to its destructor. *)
Definition wfb (s : sv) : bool :=
  match data_ s with
  | None => false
  | Some buf =>
      (length buf =? capacity_ s) && (size_ s <=? capacity_ s)
      && forallb cell_okb (take (size_ s) buf)
  end.
Definition wf (s : sv) : Prop := wfb s = true.

Definition free_cellb (p : option buffer) (i : nat) : bool :=
  match read_exist p i with
  | Ok false => true
  | _ => false
  end.

(* The free indices are distinct, below [size_], and their cells have a
   clear flag. *)
Definition free_list_okb (s : sv) : bool :=
  bool_decide (NoDup (freeIndeces_ s))
  && forallb (fun i => (i <? size_ s) && free_cellb (data_ s) i)
       (freeIndeces_ s).
Definition free_list_ok (s : sv) : Prop := free_list_okb s = true.

(* Every free index is an index into the buffer. *)
Definition free_in_bufferb (s : sv) : bool :=
  forallb (fun i => i <? capacity_ s) (freeIndeces_ s).
Definition free_in_buffer (s : sv) : Prop := free_in_bufferb s = true.

(* The calls under which the free indices stay in order: [resize] does not
   go below the size, [pop_back] does not drop a cell whose index is in the
   vector, [erase_at] is given an index other than the size. *)
Definition keeps_free_list (o : op) (s : sv) : Prop :=
  match o with
  | Resize newSize => size_ s <= newSize
  | PopBack => size_ s - 1 ∉ freeIndeces_ s
  | EraseAt index => index <> size_ s
  | _ => True
  end.

(* The calls that are allowed to change what [at(i)] returns, as the
   index-stability property lists them.  Move construction is not a member
   of [op]. *)
Definition may_change_index (i : nat) (o : op) (s : sv) : Prop :=
  match o with
  | EraseAt index => index = i
  | PopBack => size_ s = S i
  | Clear => True
  | _ => False
  end.

(* The calls that keep what [at(i)] returns: beside the above, [resize]
   stays above [i], [emplace_at] is given another index, and an insertion
   does not find [i] at the back of the free indices. *)
Definition keeps_index (i : nat) (o : op) (s : sv) : Prop :=
  match o with
  | PushFree _ | EmplaceFree _ => last (get_free_cells s) <> Some i
  | EraseAt index => index <> i
  | PopBack => size_ s <> S i
  | Clear => False
  | Resize newSize => i < newSize
  | EmplaceAt j _ => j <> i
  | _ => True
  end.

(* [p] is the first index from [from] on whose cell is live, or [size_]
   when there is none. *)
Definition first_live_from (s : sv) (from p : nat) : Prop :=
  from <= p <= size_ s /\
  (forall k, from <= k < p -> exist_at k s = Ok false) /\
  (p < size_ s -> exist_at p s = Ok true).

(* The values of the live cells of [0, size_), in index order. *)
Definition live_value (c : cell) : option T :=
  match exist c with
  | Some true => value c
  | _ => None
  end.
Definition live_values (s : sv) : list T :=
  omap live_value (take (size_ s) (default [] (data_ s))).

(* The same list through the public accessor: the values [at(i)] returns
   for [i = 0, 1, ..., size_ - 1], the indices where it throws left out. *)
Definition value_at (s : sv) (i : nat) : option T :=
  match at_ i s with
  | Ok v => Some v
  | _ => None
  end.
Definition values_by_index (s : sv) : list T :=
  omap (value_at s) (seq 0 (size_ s)).

(* The states a program can build: from a constructor, by the mutating
   members.  A member that throws leaves the state as it is; the container
   a move constructor builds is in the state of its source. *)
Inductive reachable : sv -> Prop :=
  | reach_default : reachable sparse_vector_default
  | reach_init other s :
      sparse_vector_init other = Ok s -> reachable s
  | reach_copy s s' :
      reachable s -> sparse_vector_copy s = Ok s' -> reachable s'
  | reach_run o s s' :
      reachable s -> run o s = Ok s' -> reachable s'.

End SparseVector.

(** * Properties *)

(** ** The outcome monad *)

Lemma bind_Ok {A B : Type} (m : result A) (f : A -> result B) (b : B) :
  m ≫= f = Ok b <-> exists a, m = Ok a /\ f a = Ok b.
Proof.
  destruct m as [a|e|]; simpl; split.
  - intros H. exists a. auto.
  - intros (a' & Ha & H). congruence.
  - discriminate.
  - intros (a' & Ha & _). discriminate.
  - discriminate.
  - intros (a' & Ha & _). discriminate.
Qed.

Lemma fmap_Ok {A B : Type} (m : result A) (f : A -> B) (b : B) :
  f <$> m = Ok b <-> exists a, m = Ok a /\ f a = b.
Proof.
  destruct m as [a|e|]; simpl; split.
  - intros [= <-]. eauto.
  - intros (a' & [= <-] & <-). reflexivity.
  - discriminate.
  - intros (a' & Ha & _). discriminate.
  - discriminate.
  - intros (a' & Ha & _). discriminate.
Qed.

(** A loop invariant [P j st] that holds on entry and that every round
    re-establishes holds on exit, and the loop returns. *)
Lemma for_range_invariant {St : Type} (P : nat -> St -> Prop)
    (body : nat -> St -> result St) (n i : nat) (st : St) :
  P i st ->
  (forall j st0, i <= j < i + n -> P j st0 ->
     exists st1, body j st0 = Ok st1 /\ P (S j) st1) ->
  exists st', for_range n i body st = Ok st' /\ P (i + n) st'.
Proof.
  revert i st. induction n as [|n IH]; intros i st Hi Hstep; simpl.
  - exists st. rewrite Nat.add_0_r. auto.
  - destruct (Hstep i st) as (st1 & Hb & HP); [lia | assumption |].
    rewrite Hb. simpl.
    destruct (IH (S i) st1) as (st' & Hr & HP'); [assumption | |].
    + intros j st0 Hj. apply Hstep. lia.
    + exists st'. split; [assumption |].
      replace (i + S n) with (S i + n) by lia. assumption.
Qed.

Lemma for_loop_invariant {St : Type} (P : nat -> St -> Prop)
    (body : nat -> St -> result St) (lo hi : nat) (st : St) :
  lo <= hi ->
  P lo st ->
  (forall j st0, lo <= j < hi -> P j st0 ->
     exists st1, body j st0 = Ok st1 /\ P (S j) st1) ->
  exists st', for_loop lo hi body st = Ok st' /\ P hi st'.
Proof.
  intros Hle H0 Hstep. unfold for_loop.
  destruct (for_range_invariant P body (hi - lo) lo st) as (st' & Hr & HP);
    [assumption | |].
  - intros j st0 Hj. apply Hstep. lia.
  - exists st'. split; [assumption |].
    replace hi with (lo + (hi - lo)) by lia. assumption.
Qed.

Lemma for_loop_empty {St : Type} (body : nat -> St -> result St)
    (lo hi : nat) (st : St) :
  hi <= lo -> for_loop lo hi body st = Ok st.
Proof.
  intros H. unfold for_loop. replace (hi - lo) with 0 by lia. reflexivity.
Qed.

Section Primitives.
Context {T : Type}.
Implicit Types (buf : list (value_info T)) (c : value_info T)
  (s : sparse_vector T) (p : option (list (value_info T))).

Lemma cell_at_Some buf i c :
  cell_at (Some buf) i = Ok c <-> buf !! i = Some c.
Proof.
  unfold cell_at. destruct (buf !! i); split; congruence.
Qed.

Lemma read_exist_Ok buf i b :
  read_exist (Some buf) i = Ok b <->
  exists c, buf !! i = Some c /\ exist c = Some b.
Proof.
  unfold read_exist, cell_at. destruct (buf !! i) as [c|]; simpl.
  - split.
    + intros H. exists c. destruct (exist c); [|discriminate].
      split; congruence.
    + intros (c' & [= <-] & ->). reflexivity.
  - split; [discriminate | intros (c' & H & _); discriminate].
Qed.

Lemma read_value_Ok buf i v :
  read_value (Some buf) i = Ok v <->
  exists c, buf !! i = Some c /\ value c = Some v.
Proof.
  unfold read_value, cell_at. destruct (buf !! i) as [c|]; simpl.
  - split.
    + intros H. exists c. destruct (value c); [|discriminate].
      split; congruence.
    + intros (c' & [= <-] & ->). reflexivity.
  - split; [discriminate | intros (c' & H & _); discriminate].
Qed.

Lemma read_exist_null i : read_exist (T:=T) None i = Undefined.
Proof. reflexivity. Qed.

Lemma update_cell_Some f buf i c :
  buf !! i = Some c ->
  update_cell f (Some buf) i = Ok (Some (alter f i buf)).
Proof. intros H. unfold update_cell, cell_at. rewrite H. reflexivity. Qed.

Lemma update_cell_Ok f p i p' :
  update_cell f p i = Ok p' ->
  exists buf c, p = Some buf /\ buf !! i = Some c /\
                p' = Some (alter f i buf).
Proof.
  unfold update_cell, cell_at. destruct p as [buf|]; [|discriminate].
  destruct (buf !! i) as [c|] eqn:E; [|discriminate].
  simpl. intros [= <-]. eauto.
Qed.

Lemma update_cell_not_Throw f p i e : update_cell f p i <> Throw e.
Proof.
  unfold update_cell, cell_at. destruct p as [buf|]; [|discriminate].
  destruct (buf !! i); discriminate.
Qed.

Lemma read_exist_not_Throw p i e : read_exist p i <> Throw e.
Proof.
  unfold read_exist, cell_at. destruct p as [buf|]; [|discriminate].
  destruct (buf !! i) as [c|]; [|discriminate].
  simpl. destruct (exist c); discriminate.
Qed.

Lemma write_exist_Some buf i c b :
  buf !! i = Some c ->
  write_exist b (Some buf) i =
    Ok (Some (<[i := {| value := value c; exist := Some b |}]> buf)).
Proof.
  intros H. unfold write_exist. rewrite (update_cell_Some _ _ _ _ H).
  rewrite list_insert_alter. do 2 f_equal.
  apply list_alter_ext; [|reflexivity]. intros x Hx. congruence.
Qed.

(** [new(&cell.value) value_type(v); cell.exist = true;] *)
Lemma construct_then_flag buf i c v :
  buf !! i = Some c ->
  construct v (Some buf) i ≫= (fun p => write_exist true p i) =
    Ok (Some (<[i := live v]> buf)).
Proof.
  intros H. unfold construct. rewrite (update_cell_Some _ _ _ _ H). simpl.
  erewrite write_exist_Some by (rewrite list_lookup_alter_eq, H; reflexivity).
  simpl. rewrite !list_insert_alter, list_alter_alter_eq. reflexivity.
Qed.

Lemma destroy_Some buf i c v :
  buf !! i = Some c -> value c = Some v ->
  destroy (Some buf) i =
    Ok (Some (alter (fun c => {| value := None; exist := exist c |}) i buf)).
Proof.
  intros H Hv. unfold destroy, read_value, cell_at. rewrite H. simpl.
  rewrite Hv. simpl. apply (update_cell_Some _ _ _ _ H).
Qed.

(** The destructor call on a slot that holds no object. *)
Lemma destroy_empty buf i c :
  buf !! i = Some c -> value c = None -> destroy (Some buf) i = Undefined.
Proof.
  intros H Hv. unfold destroy, read_value, cell_at. rewrite H. simpl.
  rewrite Hv. reflexivity.
Qed.

Lemma destroy_Ok p i p' :
  destroy p i = Ok p' ->
  exists buf c v, p = Some buf /\ buf !! i = Some c /\ value c = Some v.
Proof.
  unfold destroy. intros H. apply bind_Ok in H as (v & Hv & _).
  destruct p as [buf|]; [|discriminate].
  apply read_value_Ok in Hv as (c & Hc & Hv). exists buf, c, v. auto.
Qed.

Lemma destroy_not_Throw p i e : destroy p i <> Throw e.
Proof.
  unfold destroy, read_value, cell_at. destruct p as [buf|]; [|discriminate].
  destruct (buf !! i) as [c|] eqn:E; [|discriminate].
  simpl. destruct (value c); [|discriminate]. simpl.
  apply update_cell_not_Throw.
Qed.

(** [cell.value.~value_type(); cell.exist = false;] *)
Lemma destroy_then_clear buf i c v :
  buf !! i = Some c -> value c = Some v ->
  destroy (Some buf) i ≫= (fun p => write_exist false p i) =
    Ok (Some (<[i := vacant]> buf)).
Proof.
  intros H Hv. rewrite (destroy_Some _ _ _ _ H Hv). simpl.
  erewrite write_exist_Some by (rewrite list_lookup_alter_eq, H; reflexivity).
  simpl. rewrite !list_insert_alter, list_alter_alter_eq. reflexivity.
Qed.

Lemma construct_then_flag_Ok p i v p' :
  construct v p i ≫= (fun p => write_exist true p i) = Ok p' ->
  exists buf c, p = Some buf /\ buf !! i = Some c /\
                p' = Some (<[i := live v]> buf).
Proof.
  intros H. destruct p as [buf|]; [|discriminate].
  destruct (buf !! i) as [c|] eqn:E.
  - rewrite (construct_then_flag _ _ _ _ E) in H. injection H as <-. eauto.
  - unfold construct, update_cell, cell_at in H. rewrite E in H.
    discriminate.
Qed.

End Primitives.

(** ** Well-formed states *)

Section WellFormed.
Context {T : Type}.
Implicit Types (buf : list (value_info T)) (c : value_info T)
  (s : sparse_vector T) (p : option (list (value_info T))).

Lemma cell_okb_true c :
  cell_okb c = true <->
  exist c = Some false \/ (exist c = Some true /\ is_Some (value c)).
Proof.
  unfold cell_okb. destruct (exist c) as [[|]|], (value c) as [v|];
    split; intros H; try reflexivity; try discriminate;
    try (right; split; [reflexivity | eexists; reflexivity]);
    try (left; reflexivity);
    destruct H as [H | [H1 [v' H2]]]; discriminate.
Qed.

Lemma wf_Some s buf :
  data_ s = Some buf ->
  wf s <->
  length buf = capacity_ s /\ size_ s <= capacity_ s /\
  forall i c, i < size_ s -> buf !! i = Some c -> cell_okb c = true.
Proof.
  intros Hd. unfold wf, wfb. rewrite Hd.
  rewrite !andb_true_iff, Nat.eqb_eq, Nat.leb_le.
  rewrite <- Is_true_true, forallb_True, Forall_lookup.
  split; intros [[H1 H2] H3] || intros (H1 & H2 & H3).
  - repeat split; try assumption.
    intros i c Hi Hc. apply Is_true_true, (H3 i).
    rewrite lookup_take_lt by assumption. assumption.
  - repeat split; try assumption.
    intros i c Hc. apply lookup_take_Some in Hc as [Hc Hi].
    apply Is_true_true. eauto.
Qed.

Lemma wf_data s : wf s -> exists buf, data_ s = Some buf.
Proof.
  unfold wf, wfb. destruct (data_ s) as [buf|]; [eauto | discriminate].
Qed.

(** In a well-formed state the flag of every cell below [size_] reads. *)
Lemma wf_read_exist s i :
  wf s -> i < size_ s ->
  exists buf c b, data_ s = Some buf /\ buf !! i = Some c /\
    exist c = Some b /\ read_exist (data_ s) i = Ok b /\
    (b = true -> is_Some (value c)).
Proof.
  intros Hwf Hi. destruct (wf_data s Hwf) as [buf Hd]. rewrite Hd.
  - apply (wf_Some _ _ Hd) in Hwf as (Hlen & Hle & Hcells).
    destruct (lookup_lt_is_Some_2 buf i) as [c Hc]; [lia|].
    pose proof (Hcells i c Hi Hc) as Hok.
    apply cell_okb_true in Hok.
    destruct Hok as [He | [He Hv]].
    + exists buf, c, false.
      split; [reflexivity|]. split; [assumption|]. split; [assumption|].
      split; [apply read_exist_Ok; eauto | discriminate].
    + exists buf, c, true.
      split; [reflexivity|]. split; [assumption|]. split; [assumption|].
      split; [apply read_exist_Ok; eauto | intros _; assumption].
Qed.

Lemma wf_default : wf (T:=T) sparse_vector_default.
Proof. reflexivity. Qed.

End WellFormed.

Section Reallocate.
Context {T : Type}.
Implicit Types (buf : list (value_info T)) (c : value_info T)
  (s : sparse_vector T) (p : option (list (value_info T))).

Lemma relocate_ok c : cell_okb c = true -> cell_okb (relocate c) = true.
Proof.
  unfold cell_okb, relocate. simpl.
  destruct (exist c) as [[|]|], (value c); auto.
Qed.

Lemma relocate_live c : exist c = Some true -> relocate c = c.
Proof.
  intros H. unfold relocate. rewrite H. destruct c; simpl in *. congruence.
Qed.

Lemma relocate_exist c : exist (relocate c) = exist c.
Proof. reflexivity. Qed.

(** The buffer [reallocate] builds: the cells below [size_] relocated, raw
    cells above. *)
Lemma reallocate_spec s n :
  wf s -> size_ s <= n ->
  exists buf',
    reallocate n s =
      Ok {| data_ := Some buf'; size_ := size_ s; capacity_ := n;
            freeIndeces_ := freeIndeces_ s |} /\
    length buf' = n /\
    (forall i c, i < size_ s -> default [] (data_ s) !! i = Some c ->
       buf' !! i = Some (relocate c)) /\
    (forall i, size_ s <= i < n -> buf' !! i = Some raw).
Proof.
  intros Hwf Hn. unfold reallocate.
  set (body := fun (i : nat) (newData : option (list (value_info T))) => _).
  destruct (for_loop_invariant
    (fun j nd => exists b, nd = Some b /\ length b = n /\
       (forall i c, i < j -> default [] (data_ s) !! i = Some c ->
          b !! i = Some (relocate c)) /\
       (forall i, j <= i < n -> b !! i = Some raw))
    body 0 (size_ s) (Some (allocate n)))
    as (nd & Hrun & b & -> & Hlen & Hlo & Hhi).
  - lia.
  - exists (allocate n). split; [reflexivity|]. unfold allocate.
    split; [apply length_replicate|]. split; [intros; lia|].
    intros i Hi. apply lookup_replicate_2. lia.
  - intros j nd Hj (b & -> & Hlen & Hlo & Hhi).
    destruct (wf_read_exist s j Hwf) as (buf & c & e & Hd & Hc & He & Hr & Hv);
      [lia|].
    assert (Hbj : b !! j = Some raw) by (apply Hhi; lia).
    assert (Hpost : forall x, x = relocate c ->
      (exists b0 : list (value_info T),
        Some (<[j := x]> b) = Some b0 /\ length b0 = n /\
        (forall i c0, i < S j -> default [] (data_ s) !! i = Some c0 ->
           b0 !! i = Some (relocate c0)) /\
        (forall i, S j <= i < n -> b0 !! i = Some raw))).
    { intros x ->. eexists. split; [reflexivity|].
      split; [rewrite length_insert; assumption|]. split.
      - intros i c0 Hi Hc0. destruct (decide (i = j)) as [->|Hne].
        + rewrite list_lookup_insert_eq by lia.
          rewrite Hd in Hc0. simpl in Hc0. congruence.
        + rewrite list_lookup_insert_ne by congruence.
          apply Hlo; [lia|assumption].
      - intros i Hi. rewrite list_lookup_insert_ne by lia. apply Hhi. lia. }
    unfold body. rewrite Hr. simpl. destruct e; simpl.
    + destruct Hv as [v Hv]; [reflexivity|].
      unfold move_place.
      assert (Hrv : read_value (data_ s) j = Ok v).
      { rewrite Hd. apply read_value_Ok. eauto. }
      rewrite Hrv. simpl.
      rewrite (construct_then_flag _ _ _ _ Hbj).
      eexists. split; [reflexivity|]. apply Hpost.
      unfold relocate, live. rewrite He, Hv. reflexivity.
    + rewrite (write_exist_Some _ _ _ _ Hbj).
      eexists. split; [reflexivity|]. apply Hpost.
      unfold relocate. rewrite He. reflexivity.
  - rewrite Hrun. simpl. exists b. auto.
Qed.

End Reallocate.

(** ** What each member computes *)

Section Members.
Context {T : Type}.
Implicit Types (buf : list (value_info T)) (c : value_info T)
  (s : sparse_vector T) (p : option (list (value_info T))) (v : T).

Lemma emplace_free_push_free (val : reference) s :
  emplace_free val s = push_free val s.
Proof. reflexivity. Qed.

(** The insertion writes, at the index it has chosen, the value it has read
    from its argument. *)
Lemma push_free_reuse_ref (val : reference) v s index buf c :
  last (freeIndeces_ s) = Some index ->
  data_ s = Some buf -> buf !! index = Some c ->
  read_reference val false (Some buf) index = Ok v ->
  push_free val s =
    Ok (index, {| data_ := Some (<[index := live v]> buf);
                  size_ := size_ s; capacity_ := capacity_ s;
                  freeIndeces_ := removelast (freeIndeces_ s) |}).
Proof.
  intros Hl Hd Hc Hv. unfold push_free. rewrite Hl. simpl.
  rewrite Hd, Hv. simpl.
  pose proof (construct_then_flag _ _ _ v Hc) as H.
  destruct (construct v (Some buf) index) as [p1| |]; simpl in *;
    try discriminate.
  rewrite H. reflexivity.
Qed.

Lemma push_free_fresh_ref (val : reference) v s buf c :
  last (freeIndeces_ s) = None ->
  size_ s <> capacity_ s ->
  data_ s = Some buf -> buf !! size_ s = Some c ->
  read_reference val false (Some buf) (size_ s) = Ok v ->
  push_free val s =
    Ok (size_ s, {| data_ := Some (<[size_ s := live v]> buf);
                    size_ := S (size_ s); capacity_ := capacity_ s;
                    freeIndeces_ := freeIndeces_ s |}).
Proof.
  intros Hl Hne Hd Hc Hv. unfold push_free. rewrite Hl.
  apply Nat.eqb_neq in Hne. rewrite Hne. simpl.
  rewrite Hd, Hv. simpl.
  pose proof (construct_then_flag _ _ _ v Hc) as H.
  destruct (construct v (Some buf) (size_ s)) as [p1| |]; simpl in *;
    try discriminate.
  rewrite H. reflexivity.
Qed.

Lemma push_free_reuse v s index buf c :
  last (freeIndeces_ s) = Some index ->
  data_ s = Some buf -> buf !! index = Some c ->
  push_free (External v) s =
    Ok (index, {| data_ := Some (<[index := live v]> buf);
                  size_ := size_ s; capacity_ := capacity_ s;
                  freeIndeces_ := removelast (freeIndeces_ s) |}).
Proof.
  intros Hl Hd Hc.
  exact (push_free_reuse_ref (External v) v s index buf c Hl Hd Hc eq_refl).
Qed.

Lemma push_free_fresh v s buf c :
  last (freeIndeces_ s) = None ->
  size_ s <> capacity_ s ->
  data_ s = Some buf -> buf !! size_ s = Some c ->
  push_free (External v) s =
    Ok (size_ s, {| data_ := Some (<[size_ s := live v]> buf);
                    size_ := S (size_ s); capacity_ := capacity_ s;
                    freeIndeces_ := freeIndeces_ s |}).
Proof.
  intros Hl Hne Hd Hc.
  exact (push_free_fresh_ref (External v) v s buf c Hl Hne Hd Hc eq_refl).
Qed.

Lemma push_free_grow v s s1 buf1 c :
  last (freeIndeces_ s) = None ->
  size_ s = capacity_ s ->
  reallocate (capacity_ s * 2) s = Ok s1 ->
  data_ s1 = Some buf1 -> buf1 !! size_ s1 = Some c ->
  push_free (External v) s =
    Ok (size_ s1, {| data_ := Some (<[size_ s1 := live v]> buf1);
                     size_ := S (size_ s1); capacity_ := capacity_ s1;
                     freeIndeces_ := freeIndeces_ s1 |}).
Proof.
  intros Hl He Hr Hd Hc. unfold push_free. rewrite Hl.
  apply Nat.eqb_eq in He. rewrite He, Hr. simpl.
  rewrite Hd.
  pose proof (construct_then_flag _ _ _ v Hc) as H.
  destruct (construct v (Some buf1) (size_ s1)) as [p1| |]; simpl in *;
    try discriminate.
  rewrite H. reflexivity.
Qed.

(** An argument that refers into the buffer is read from released storage
    when the insertion has grown the buffer. *)
Lemma push_free_grow_internal j s s1 :
  last (freeIndeces_ s) = None ->
  size_ s = capacity_ s ->
  reallocate (capacity_ s * 2) s = Ok s1 ->
  push_free (Internal j) s = Undefined.
Proof.
  intros Hl He Hr. unfold push_free. rewrite Hl.
  apply Nat.eqb_eq in He. rewrite He, Hr. reflexivity.
Qed.

(** The three ways an insertion returns; [v] is the value it has read from
    its argument. *)
Lemma push_free_Ok (val : reference) s index s' :
  push_free val s = Ok (index, s') ->
  (exists buf c v,
     last (freeIndeces_ s) = Some index /\
     data_ s = Some buf /\ buf !! index = Some c /\
     read_reference val false (Some buf) index = Ok v /\
     s' = {| data_ := Some (<[index := live v]> buf);
             size_ := size_ s; capacity_ := capacity_ s;
             freeIndeces_ := removelast (freeIndeces_ s) |})
  \/ (exists buf c v,
     last (freeIndeces_ s) = None /\ size_ s <> capacity_ s /\
     index = size_ s /\
     data_ s = Some buf /\ buf !! size_ s = Some c /\
     read_reference val false (Some buf) (size_ s) = Ok v /\
     s' = {| data_ := Some (<[size_ s := live v]> buf);
             size_ := S (size_ s); capacity_ := capacity_ s;
             freeIndeces_ := freeIndeces_ s |})
  \/ (exists s1 buf1 c v,
     last (freeIndeces_ s) = None /\ size_ s = capacity_ s /\
     reallocate (capacity_ s * 2) s = Ok s1 /\
     index = size_ s1 /\
     data_ s1 = Some buf1 /\ buf1 !! size_ s1 = Some c /\
     val = External v /\
     s' = {| data_ := Some (<[size_ s1 := live v]> buf1);
             size_ := S (size_ s1); capacity_ := capacity_ s1;
             freeIndeces_ := freeIndeces_ s1 |}).
Proof.
  intros H.
  assert (Hplace : forall s0 i0 released,
    (v ← read_reference val released (data_ s0) i0;
     p ← construct v (data_ s0) i0; p ← write_exist true p i0;
     Ok (i0, set_data p s0)) = Ok (index, s') ->
    i0 = index /\ exists buf c v, data_ s0 = Some buf /\ buf !! i0 = Some c /\
      read_reference val released (Some buf) i0 = Ok v /\
      s' = set_data (Some (<[i0 := live v]> buf)) s0).
  { intros s0 i0 released H0. apply bind_Ok in H0 as (v & Hv & H0).
    apply bind_Ok in H0 as (p1 & H1 & H0).
    apply bind_Ok in H0 as (p2 & H2 & H0). injection H0 as <- <-.
    split; [reflexivity|].
    destruct (construct_then_flag_Ok (data_ s0) i0 v p2)
      as (buf & c & Hd & Hc & ->).
    { rewrite H1. simpl. assumption. }
    exists buf, c, v. rewrite <- Hd. auto. }
  unfold push_free in H.
  destruct (last (freeIndeces_ s)) as [i0|] eqn:Hl.
  - simpl in H.
    apply (Hplace (set_freeIndeces (removelast (freeIndeces_ s)) s)) in H
      as (-> & buf & c & v & Hd & Hc & Hv & ->).
    left. exists buf, c, v. auto.
  - destruct (size_ s =? capacity_ s) eqn:He.
    + apply Nat.eqb_eq in He.
      destruct (reallocate (capacity_ s * 2) s) as [s1| |] eqn:Hr;
        try discriminate.
      simpl in H.
      apply (Hplace (set_size (S (size_ s1)) s1)) in H
        as (<- & buf & c & v & Hd & Hc & Hv & ->).
      right. right. exists s1, buf, c, v. simpl in *.
      destruct val as [w|j]; [|discriminate]. injection Hv as ->. auto 10.
    + apply Nat.eqb_neq in He. simpl in H.
      apply (Hplace (set_size (S (size_ s)) s)) in H
        as (<- & buf & c & v & Hd & Hc & Hv & ->).
      right. left. exists buf, c, v. simpl in *. auto 10.
Qed.

Lemma erase_at_Ok index s s' :
  erase_at index s = Ok s' ->
  exists buf c,
    index <= size_ s /\ data_ s = Some buf /\ buf !! index = Some c /\
    exist c = Some true /\
    s' = {| data_ := Some (<[index := vacant]> buf);
            size_ := size_ s; capacity_ := capacity_ s;
            freeIndeces_ := freeIndeces_ s ++ [index] |}.
Proof.
  unfold erase_at. destruct (size_ s <? index) eqn:Hlt; [discriminate|].
  apply Nat.ltb_ge in Hlt. intros H.
  apply bind_Ok in H as (e & He & H).
  destruct (data_ s) as [buf|] eqn:Hd; [|discriminate].
  apply read_exist_Ok in He as (c & Hc & He).
  destruct e; simpl in H; [|discriminate].
  unfold mark_as_free in H. simpl in H.
  destruct (value c) as [v|] eqn:Hv;
    [|rewrite (destroy_empty _ _ _ Hc Hv) in H; discriminate].
  pose proof (destroy_then_clear _ _ _ _ Hc Hv) as H'.
  destruct (destroy (Some buf) index) as [p| |]; simpl in *; try discriminate.
  rewrite H' in H. simpl in H. injection H as <-.
  exists buf, c. auto.
Qed.

Lemma erase_at_live index s buf c v :
  index <= size_ s -> data_ s = Some buf -> buf !! index = Some c ->
  exist c = Some true -> value c = Some v ->
  erase_at index s =
    Ok {| data_ := Some (<[index := vacant]> buf);
          size_ := size_ s; capacity_ := capacity_ s;
          freeIndeces_ := freeIndeces_ s ++ [index] |}.
Proof.
  intros Hle Hd Hc He Hv. unfold erase_at.
  apply Nat.ltb_ge in Hle. rewrite Hle.
  assert (Hr : read_exist (data_ s) index = Ok true).
  { rewrite Hd. apply read_exist_Ok. eauto. }
  rewrite Hr. simpl. unfold mark_as_free. simpl.
  pose proof (destroy_then_clear _ _ _ _ Hc Hv) as H. rewrite Hd.
  destruct (destroy (Some buf) index) as [p| |]; simpl in *; try discriminate.
  rewrite H. reflexivity.
Qed.

Lemma pop_back_Ok s s' :
  pop_back s = Ok s' ->
  exists buf c,
    size_ s <> 0 /\ data_ s = Some buf /\ buf !! (size_ s - 1) = Some c /\
    s' = {| data_ := Some (<[size_ s - 1 := vacant]> buf);
            size_ := size_ s - 1; capacity_ := capacity_ s;
            freeIndeces_ := freeIndeces_ s |}.
Proof.
  unfold pop_back. destruct (size_ s =? 0) eqn:Hz; [discriminate|].
  apply Nat.eqb_neq in Hz. simpl. intros H.
  destruct (data_ s) as [buf|] eqn:Hd; [|discriminate].
  destruct (buf !! (size_ s - 1)) as [c|] eqn:Hc.
  - destruct (value c) as [v|] eqn:Hv;
      [|rewrite (destroy_empty _ _ _ Hc Hv) in H; discriminate].
    pose proof (destroy_then_clear _ _ _ _ Hc Hv) as H'.
    destruct (destroy (Some buf) (size_ s - 1)) as [p| |]; simpl in *;
      try discriminate.
    rewrite H' in H. simpl in H. injection H as <-.
    exists buf, c. auto.
  - unfold destroy, read_value, cell_at in H. rewrite Hc in H. discriminate.
Qed.

Lemma pop_back_nonempty s buf c v :
  size_ s <> 0 -> data_ s = Some buf -> buf !! (size_ s - 1) = Some c ->
  value c = Some v ->
  pop_back s =
    Ok {| data_ := Some (<[size_ s - 1 := vacant]> buf);
          size_ := size_ s - 1; capacity_ := capacity_ s;
          freeIndeces_ := freeIndeces_ s |}.
Proof.
  intros Hz Hd Hc Hv. unfold pop_back. apply Nat.eqb_neq in Hz. rewrite Hz.
  simpl. rewrite Hd.
  pose proof (destroy_then_clear _ _ _ _ Hc Hv) as H'.
  destruct (destroy (Some buf) (size_ s - 1)) as [p| |]; simpl in *;
    try discriminate.
  rewrite H'. reflexivity.
Qed.

(** The destructor call of [pop_back] on a last cell that holds no
    object. *)
Lemma pop_back_empty_slot s buf c :
  size_ s <> 0 -> data_ s = Some buf -> buf !! (size_ s - 1) = Some c ->
  value c = None ->
  pop_back s = Undefined.
Proof.
  intros Hz Hd Hc Hv. unfold pop_back. apply Nat.eqb_neq in Hz. rewrite Hz.
  simpl. rewrite Hd, (destroy_empty _ _ _ Hc Hv). reflexivity.
Qed.

Lemma emplace_at_Ok i v s s' :
  emplace_at i v s = Ok s' ->
  exists buf c,
    i < size_ s /\ data_ s = Some buf /\ buf !! i = Some c /\
    exist c = Some true /\
    s' = {| data_ := Some (<[i := live v]> buf);
            size_ := size_ s; capacity_ := capacity_ s;
            freeIndeces_ := freeIndeces_ s |}.
Proof.
  unfold emplace_at. destruct (size_ s <=? i) eqn:Hle; [discriminate|].
  apply Nat.leb_gt in Hle. intros H.
  apply bind_Ok in H as (e & He & H).
  destruct (data_ s) as [buf|] eqn:Hd; [|discriminate].
  apply read_exist_Ok in He as (c & Hc & He).
  destruct e; simpl in H; [|discriminate].
  pose proof (construct_then_flag _ _ _ v Hc) as H'.
  destruct (construct v (Some buf) i) as [p| |]; simpl in *; try discriminate.
  rewrite H' in H. simpl in H. injection H as <-.
  exists buf, c. auto 10.
Qed.

Lemma emplace_at_live i v s buf c :
  i < size_ s -> data_ s = Some buf -> buf !! i = Some c ->
  exist c = Some true ->
  emplace_at i v s =
    Ok {| data_ := Some (<[i := live v]> buf);
          size_ := size_ s; capacity_ := capacity_ s;
          freeIndeces_ := freeIndeces_ s |}.
Proof.
  intros Hi Hd Hc He. unfold emplace_at.
  apply Nat.leb_gt in Hi. rewrite Hi.
  assert (Hr : read_exist (data_ s) i = Ok true).
  { rewrite Hd. apply read_exist_Ok. eauto. }
  rewrite Hr. simpl. rewrite Hd.
  pose proof (construct_then_flag _ _ _ v Hc) as H'.
  destruct (construct v (Some buf) i) as [p| |]; simpl in *; try discriminate.
  rewrite H'. reflexivity.
Qed.

Lemma at_Ok i s v :
  at_ i s = Ok v <->
  i < size_ s /\ exists buf c, data_ s = Some buf /\ buf !! i = Some c /\
    exist c = Some true /\ value c = Some v.
Proof.
  unfold at_. destruct (size_ s <=? i) eqn:Hle.
  - apply Nat.leb_le in Hle. split; [discriminate | intros [? _]; lia].
  - apply Nat.leb_gt in Hle. split.
    + intros H. apply bind_Ok in H as (e & He & H).
      destruct (data_ s) as [buf|] eqn:Hd; [|discriminate].
      apply read_exist_Ok in He as (c & Hc & He).
      destruct e; simpl in H; [|discriminate].
      apply read_value_Ok in H as (c' & Hc' & Hv).
      split; [assumption|]. exists buf, c. rewrite Hc in Hc'.
      injection Hc' as <-. auto.
    + intros (_ & buf & c & Hd & Hc & He & Hv). rewrite Hd.
      assert (Hr : read_exist (Some buf) i = Ok true)
        by (apply read_exist_Ok; eauto).
      rewrite Hr. simpl. apply read_value_Ok. eauto.
Qed.

Lemma exist_at_Ok i s b :
  exist_at i s = Ok b <->
  (size_ s <= i /\ b = false) \/
  (i < size_ s /\ exists buf c, data_ s = Some buf /\ buf !! i = Some c /\
     exist c = Some b).
Proof.
  unfold exist_at. destruct (size_ s <=? i) eqn:Hle.
  - apply Nat.leb_le in Hle. split.
    + intros [= <-]. left. auto.
    + intros [[_ ->] | [? _]]; [reflexivity | lia].
  - apply Nat.leb_gt in Hle. split.
    + intros H. apply bind_Ok in H as (e & He & H).
      destruct (data_ s) as [buf|] eqn:Hd; [|discriminate].
      apply read_exist_Ok in He as (c & Hc & He).
      right. split; [assumption|]. exists buf, c.
      destruct e; simpl in H; injection H as <-; auto.
    + intros [[? _] | (_ & buf & c & Hd & Hc & He)]; [lia|].
      rewrite Hd.
      assert (Hr : read_exist (Some buf) i = Ok b)
        by (apply read_exist_Ok; eauto).
      rewrite Hr. simpl. destruct b; reflexivity.
Qed.

End Members.

Section Capacity.
Context {T : Type}.
Implicit Types (buf : list (value_info T)) (c : value_info T)
  (s : sparse_vector T) (p : option (list (value_info T))) (v : T).

Lemma live_value_relocate c : live_value (relocate c) = live_value c.
Proof.
  unfold live_value, relocate. simpl. destruct (exist c) as [[|]|]; reflexivity.
Qed.

(** Relocation keeps the container well formed, and keeps what can be
    observed of every cell below [size_]. *)
Lemma reallocate_wf s n :
  wf s -> size_ s <= n ->
  exists s1 buf buf1,
    reallocate n s = Ok s1 /\ wf s1 /\
    size_ s1 = size_ s /\ capacity_ s1 = n /\
    freeIndeces_ s1 = freeIndeces_ s /\
    data_ s = Some buf /\ data_ s1 = Some buf1 /\
    (forall i c, i < size_ s -> buf !! i = Some c ->
       buf1 !! i = Some (relocate c)) /\
    (forall i, size_ s <= i < n -> buf1 !! i = Some raw).
Proof.
  intros Hwf Hn.
  destruct (reallocate_spec s n Hwf Hn) as (buf1 & Hr & Hlen & Hlo & Hhi).
  destruct (wf_data s Hwf) as [buf Hd]. rewrite Hd in Hlo. simpl in Hlo.
  eexists _, buf, buf1. split; [exact Hr|]. simpl.
  split; [|auto 10].
  apply (wf_Some {| data_ := Some buf1; size_ := size_ s; capacity_ := n;
                    freeIndeces_ := freeIndeces_ s |} buf1 eq_refl). simpl.
  split; [assumption|]. split; [assumption|].
  intros i c1 Hi Hc1.
  apply (wf_Some _ _ Hd) in Hwf as (Hl & Hle & Hcells).
  destruct (lookup_lt_is_Some_2 buf i) as [c Hc]; [lia|].
  rewrite (Hlo i c Hi Hc) in Hc1. injection Hc1 as <-.
  apply relocate_ok. eauto.
Qed.

Lemma reserve_spec s n :
  wf s ->
  exists s1 buf buf1,
    reserve n s = Ok s1 /\ wf s1 /\
    size_ s1 = size_ s /\ capacity_ s1 = Nat.max (capacity_ s) n /\
    freeIndeces_ s1 = freeIndeces_ s /\
    data_ s = Some buf /\ data_ s1 = Some buf1 /\
    (forall i c, i < size_ s -> buf !! i = Some c ->
       exists c1, buf1 !! i = Some c1 /\ exist c1 = exist c /\
                  live_value c1 = live_value c).
Proof.
  intros Hwf. unfold reserve. destruct (n <=? capacity_ s) eqn:Hle.
  - apply Nat.leb_le in Hle. destruct (wf_data s Hwf) as [buf Hd].
    exists s, buf, buf. split; [reflexivity|]. split; [assumption|].
    split; [reflexivity|]. split; [lia|]. split; [reflexivity|].
    split; [assumption|]. split; [assumption|]. eauto.
  - apply Nat.leb_gt in Hle.
    destruct (wf_data s Hwf) as [buf Hd].
    pose proof (proj1 (wf_Some _ _ Hd) Hwf) as (Hl & Hsz & _).
    destruct (reallocate_wf s n Hwf) as
      (s1 & buf0 & buf1 & Hr & Hwf1 & Hs & Hc & Hf & Hd0 & Hd1 & Hlo & _);
      [lia|].
    rewrite Hd in Hd0. injection Hd0 as <-.
    exists s1, buf, buf1. split; [assumption|]. split; [assumption|].
    split; [assumption|]. split; [lia|]. split; [assumption|].
    split; [assumption|]. split; [assumption|].
    intros i c Hi Hci. exists (relocate c).
    split; [eauto|]. split; [reflexivity | apply live_value_relocate].
Qed.

Lemma reserve_small s n : n <= capacity_ s -> reserve n s = Ok s.
Proof. intros H. unfold reserve. apply Nat.leb_le in H. rewrite H. reflexivity. Qed.

(** Marking a run of cells. *)
Lemma mark_loop s buf lo hi :
  data_ s = Some buf -> lo <= hi -> hi <= length buf ->
  exists buf',
    for_loop lo hi mark_as_free s =
      Ok {| data_ := Some buf'; size_ := size_ s; capacity_ := capacity_ s;
            freeIndeces_ := freeIndeces_ s ++ seq lo (hi - lo) |} /\
    length buf' = length buf /\
    (forall i, lo <= i < hi -> buf' !! i = clear_flag <$> buf !! i) /\
    (forall i, ~ lo <= i < hi -> buf' !! i = buf !! i).
Proof.
  intros Hd Hle Hlen.
  destruct (for_loop_invariant
    (fun j st => exists b,
       st = {| data_ := Some b; size_ := size_ s; capacity_ := capacity_ s;
               freeIndeces_ := freeIndeces_ s ++ seq lo (j - lo) |} /\
       length b = length buf /\
       (forall i, lo <= i < j -> b !! i = clear_flag <$> buf !! i) /\
       (forall i, ~ lo <= i < j -> b !! i = buf !! i))
    mark_as_free lo hi s) as (st & Hrun & b & -> & Hl & Hin & Hout).
  - assumption.
  - exists buf. rewrite Nat.sub_diag. simpl. rewrite app_nil_r.
    split; [destruct s; simpl in *; congruence|].
    split; [reflexivity|]. split; [intros; lia | reflexivity].
  - intros j st Hj (b & -> & Hl & Hin & Hout).
    destruct (lookup_lt_is_Some_2 b j) as [c Hc]; [lia|].
    unfold mark_as_free. simpl. rewrite (write_exist_Some _ _ _ _ Hc). simpl.
    eexists. split; [reflexivity|].
    exists (<[j := clear_flag c]> b). split.
    + unfold set_freeIndeces, set_data. simpl. f_equal.
      replace (S j - lo) with (S (j - lo)) by lia.
      rewrite seq_S, <- app_assoc. do 3 f_equal. lia.
    + split; [rewrite length_insert; assumption|]. split.
      * intros i Hi. destruct (decide (i = j)) as [->|Hne].
        -- rewrite list_lookup_insert_eq by lia.
           rewrite <- (Hout j) by lia. rewrite Hc. reflexivity.
        -- rewrite list_lookup_insert_ne by congruence. apply Hin. lia.
      * intros i Hi. rewrite list_lookup_insert_ne by lia. apply Hout. lia.
  - exists b. auto.
Qed.

End Capacity.

Section Loops.
Context {T : Type}.
Implicit Types (buf : list (value_info T)) (c : value_info T)
  (s : sparse_vector T) (p : option (list (value_info T))) (v : T).

Lemma resize_shrink s n :
  wf s -> n <= size_ s -> resize n s = Ok (set_size n s).
Proof.
  intros Hwf Hn. destruct (wf_data s Hwf) as [buf Hd].
  apply (wf_Some _ _ Hd) in Hwf as (Hl & Hsz & _).
  unfold resize. rewrite reserve_small by lia. simpl.
  rewrite for_loop_empty by assumption. reflexivity.
Qed.

Lemma resize_grow s n :
  wf s -> size_ s <= n ->
  exists buf buf',
    data_ s = Some buf /\
    resize n s =
      Ok {| data_ := Some buf'; size_ := n;
            capacity_ := Nat.max (capacity_ s) n;
            freeIndeces_ := freeIndeces_ s ++ seq (size_ s) (n - size_ s) |} /\
    length buf' = Nat.max (capacity_ s) n /\
    (forall i c, i < size_ s -> buf !! i = Some c ->
       exists c1, buf' !! i = Some c1 /\ exist c1 = exist c /\
                  live_value c1 = live_value c) /\
    (forall i, size_ s <= i < n ->
       exists c1, buf' !! i = Some c1 /\ exist c1 = Some false).
Proof.
  intros Hwf Hn.
  destruct (reserve_spec s n Hwf)
    as (s1 & buf & buf1 & Hr & Hwf1 & Hs & Hc & Hf & Hd & Hd1 & Hcells).
  pose proof (proj1 (wf_Some _ _ Hd1) Hwf1) as (Hl1 & Hsz1 & _).
  destruct (mark_loop s1 buf1 (size_ s1) n Hd1) as (buf' & Hrun & Hl & Hin & Hout);
    [lia | lia |].
  exists buf, buf'. split; [assumption|]. split.
  { unfold resize. rewrite Hr. simpl. rewrite Hrun. simpl.
    unfold set_size. simpl. rewrite Hc, Hf, Hs. reflexivity. }
  split; [lia|]. split.
  - intros i c Hi Hci. destruct (Hcells i c Hi Hci) as (c1 & Hc1 & He & Hv).
    exists c1. rewrite Hout by lia. auto.
  - intros i Hi. destruct (lookup_lt_is_Some_2 buf1 i) as [c1 Hc1]; [lia|].
    exists (clear_flag c1). rewrite Hin by lia. rewrite Hc1. auto.
Qed.

Lemma count_free_app (l1 l2 : list (value_info T)) :
  count_free (l1 ++ l2) = count_free l1 + count_free l2.
Proof. induction l1 as [|c l1 IH]; simpl; [reflexivity | rewrite IH; lia]. Qed.

Lemma count_free_take_S buf j c :
  buf !! j = Some c ->
  count_free (take (S j) buf) =
  count_free (take j buf) + (if is_free c then 1 else 0).
Proof.
  intros H. rewrite (take_S_r _ _ _ H), count_free_app. simpl. lia.
Qed.

Lemma feel_free_cells_spec funct s :
  wf s ->
  exists buf buf',
    data_ s = Some buf /\
    feel_free_cells funct s =
      Ok {| data_ := Some buf'; size_ := size_ s; capacity_ := capacity_ s;
            freeIndeces_ := [] |} /\
    length buf' = length buf /\
    (forall i c, i < size_ s -> buf !! i = Some c ->
       buf' !! i = Some (fill funct buf i c)) /\
    (forall i, size_ s <= i -> buf' !! i = buf !! i).
Proof.
  intros Hwf. destruct (wf_data s Hwf) as [buf Hd].
  pose proof (proj1 (wf_Some _ _ Hd) Hwf) as (Hl & Hsz & Hcells).
  unfold feel_free_cells.
  set (body := fun (i : nat) (st : option (list (value_info T)) * nat) => _).
  destruct (for_loop_invariant
    (fun j st => exists b,
       st = (Some b, count_free (take j buf)) /\
       length b = length buf /\
       (forall i c, i < j -> buf !! i = Some c ->
          b !! i = Some (fill funct buf i c)) /\
       (forall i, j <= i -> b !! i = buf !! i))
    body 0 (size_ s) (data_ s, 0)) as (st & Hrun & b & -> & Hlb & Hlo & Hhi).
  - lia.
  - exists buf. rewrite Hd. simpl. split; [reflexivity|].
    split; [reflexivity|]. split; [intros; lia | reflexivity].
  - intros j st Hj (b & -> & Hlb & Hlo & Hhi).
    destruct (lookup_lt_is_Some_2 buf j) as [c Hc]; [lia|].
    assert (Hbj : b !! j = Some c) by (rewrite Hhi by lia; assumption).
    pose proof (Hcells j c ltac:(lia) Hc) as Hok.
    apply cell_okb_true in Hok.
    assert (Hpost : forall x, x = fill funct buf j c ->
      exists b0,
        (Some (<[j := x]> b),
         count_free (take j buf) + (if is_free c then 1 else 0)) =
        (Some b0, count_free (take (S j) buf)) /\
        length b0 = length buf /\
        (forall i c0, i < S j -> buf !! i = Some c0 ->
           b0 !! i = Some (fill funct buf i c0)) /\
        (forall i, S j <= i -> b0 !! i = buf !! i)).
    { intros x ->. eexists. split.
      { rewrite (count_free_take_S _ _ _ Hc). reflexivity. }
      split; [rewrite length_insert; assumption|]. split.
      - intros i c0 Hi Hc0. destruct (decide (i = j)) as [->|Hne].
        + rewrite list_lookup_insert_eq by lia. congruence.
        + rewrite list_lookup_insert_ne by congruence.
          apply Hlo; [lia | assumption].
      - intros i Hi. rewrite list_lookup_insert_ne by lia. apply Hhi. lia. }
    unfold body.
    destruct Hok as [He | [He Hv]].
    + assert (Hr : read_exist (Some b) j = Ok false)
        by (apply read_exist_Ok; eauto).
      rewrite Hr. simpl.
      pose proof (construct_then_flag _ _ _
        (funct (count_free (take j buf))) Hbj) as Hcf.
      destruct (construct (funct (count_free (take j buf))) (Some b) j)
        as [p1| |]; simpl in *; try discriminate.
      rewrite Hcf. simpl. eexists. split; [reflexivity|].
      specialize (Hpost (live (funct (count_free (take j buf))))).
      unfold fill, is_free in Hpost. rewrite He in Hpost.
      replace (S (count_free (take j buf)))
        with (count_free (take j buf) + 1) by lia.
      apply Hpost. reflexivity.
    + assert (Hr : read_exist (Some b) j = Ok true)
        by (apply read_exist_Ok; eauto).
      rewrite Hr. simpl. eexists. split; [reflexivity|].
      specialize (Hpost c).
      unfold fill, is_free in Hpost. rewrite He in Hpost.
      rewrite Nat.add_0_r, (list_insert_id _ _ _ Hbj) in Hpost.
      apply Hpost. reflexivity.
  - exists buf, b. split; [assumption|]. rewrite Hrun. simpl.
    split; [reflexivity|]. auto.
Qed.

Lemma clear_spec s :
  wf s ->
  exists buf buf',
    data_ s = Some buf /\
    clear s =
      Ok {| data_ := Some buf'; size_ := 0; capacity_ := capacity_ s;
            freeIndeces_ := [] |} /\
    length buf' = length buf /\
    (forall i c, i < size_ s -> buf !! i = Some c ->
       buf' !! i = Some (wipe c)) /\
    (forall i, size_ s <= i -> buf' !! i = buf !! i).
Proof.
  intros Hwf. destruct (wf_data s Hwf) as [buf Hd].
  pose proof (proj1 (wf_Some _ _ Hd) Hwf) as (Hl & Hsz & Hcells).
  unfold clear.
  set (body := fun (i : nat) (p : option (list (value_info T))) => _).
  destruct (for_loop_invariant
    (fun j p => exists b,
       p = Some b /\ length b = length buf /\
       (forall i c, i < j -> buf !! i = Some c -> b !! i = Some (wipe c)) /\
       (forall i, j <= i -> b !! i = buf !! i))
    body 0 (size_ s) (data_ s)) as (st & Hrun & b & -> & Hlb & Hlo & Hhi).
  - lia.
  - exists buf. split; [assumption|].
    split; [reflexivity|]. split; [intros; lia | reflexivity].
  - intros j st Hj (b & -> & Hlb & Hlo & Hhi).
    destruct (lookup_lt_is_Some_2 buf j) as [c Hc]; [lia|].
    assert (Hbj : b !! j = Some c) by (rewrite Hhi by lia; assumption).
    pose proof (Hcells j c ltac:(lia) Hc) as Hok.
    apply cell_okb_true in Hok.
    assert (Hpost : forall x, x = wipe c ->
      exists b0, Some (<[j := x]> b) = Some b0 /\
        length b0 = length buf /\
        (forall i c0, i < S j -> buf !! i = Some c0 ->
           b0 !! i = Some (wipe c0)) /\
        (forall i, S j <= i -> b0 !! i = buf !! i)).
    { intros x ->. eexists. split; [reflexivity|].
      split; [rewrite length_insert; assumption|]. split.
      - intros i c0 Hi Hc0. destruct (decide (i = j)) as [->|Hne].
        + rewrite list_lookup_insert_eq by lia. congruence.
        + rewrite list_lookup_insert_ne by congruence.
          apply Hlo; [lia | assumption].
      - intros i Hi. rewrite list_lookup_insert_ne by lia. apply Hhi. lia. }
    unfold body.
    destruct Hok as [He | [He Hv]].
    + assert (Hr : read_exist (Some b) j = Ok false)
        by (apply read_exist_Ok; eauto).
      rewrite Hr. simpl. eexists. split; [reflexivity|].
      specialize (Hpost c). unfold wipe in Hpost. rewrite He in Hpost.
      rewrite (list_insert_id _ _ _ Hbj) in Hpost. apply Hpost. reflexivity.
    + assert (Hr : read_exist (Some b) j = Ok true)
        by (apply read_exist_Ok; eauto).
      rewrite Hr. simpl. destruct Hv as [w Hw].
      pose proof (destroy_then_clear _ _ _ _ Hbj Hw) as Hdc.
      destruct (destroy (Some b) j) as [p1| |]; simpl in *; try discriminate.
      rewrite Hdc. eexists. split; [reflexivity|].
      apply Hpost. unfold wipe. rewrite He. reflexivity.
  - exists buf, b. split; [assumption|]. rewrite Hrun. simpl.
    split; [reflexivity|]. auto.
Qed.

End Loops.

Section Constructors.
Context {T : Type}.
Implicit Types (buf : list (value_info T)) (c : value_info T)
  (s : sparse_vector T) (p : option (list (value_info T))) (v : T).

Lemma for_range_ext {St : Type} (f g : nat -> St -> result St) n i st :
  (forall j st0, f j st0 = g j st0) ->
  for_range n i f st = for_range n i g st.
Proof.
  intros H. revert i st. induction n as [|n IH]; intros i st; simpl.
  - reflexivity.
  - rewrite H. destruct (g i st); simpl; auto.
Qed.

(** Copy construction builds what relocation into a buffer of the same
    capacity builds. *)
Lemma sparse_vector_copy_reallocate s :
  sparse_vector_copy s = reallocate (capacity_ s) s.
Proof.
  unfold sparse_vector_copy, reallocate, for_loop.
  erewrite for_range_ext; [reflexivity|].
  intros j p. simpl. destruct (read_exist (data_ s) j) as [[|]| |]; simpl;
    try reflexivity.
  unfold move_place. destruct (read_value (data_ s) j); reflexivity.
Qed.

Lemma sparse_vector_init_spec (other : list T) :
  sparse_vector_init other =
    Ok {| data_ := Some (live <$> other); size_ := length other;
          capacity_ := length other; freeIndeces_ := [] |}.
Proof.
  unfold sparse_vector_init.
  set (body := fun (i : nat) (p : option (list (value_info T))) => _).
  destruct (for_loop_invariant
    (fun j p => exists b,
       p = Some b /\ length b = length other /\
       (forall i, i < j -> b !! i = live <$> other !! i) /\
       (forall i, j <= i < length other -> b !! i = Some raw))
    body 0 (length other) (Some (allocate (length other))))
    as (st & Hrun & b & -> & Hlb & Hlo & Hhi).
  - lia.
  - exists (allocate (length other)). split; [reflexivity|]. unfold allocate.
    split; [apply length_replicate|]. split; [intros; lia|].
    intros i Hi. apply lookup_replicate_2. lia.
  - intros j st Hj (b & -> & Hlb & Hlo & Hhi).
    destruct (lookup_lt_is_Some_2 other j) as [v Hv]; [lia|].
    assert (Hbj : b !! j = Some raw) by (apply Hhi; lia).
    unfold body. rewrite Hv. simpl.
    pose proof (construct_then_flag _ _ _ v Hbj) as Hcf.
    destruct (construct v (Some b) j) as [p1| |]; simpl in *;
      try discriminate.
    rewrite Hcf. eexists. split; [reflexivity|].
    eexists. split; [reflexivity|].
    split; [rewrite length_insert; assumption|]. split.
    + intros i Hi. destruct (decide (i = j)) as [->|Hne].
      * rewrite list_lookup_insert_eq by lia. rewrite Hv. reflexivity.
      * rewrite list_lookup_insert_ne by congruence. apply Hlo. lia.
    + intros i Hi. rewrite list_lookup_insert_ne by lia. apply Hhi. lia.
  - rewrite Hrun. simpl. do 3 f_equal.
    apply list_eq. intros i. rewrite list_lookup_fmap.
    destruct (decide (i < length other)) as [Hi|Hi].
    + apply Hlo. assumption.
    + rewrite (lookup_ge_None_2 b) by lia.
      rewrite (lookup_ge_None_2 other) by lia. reflexivity.
Qed.

End Constructors.

(** ** Every reachable state is well formed *)

Section Preservation.
Context {T : Type}.
Implicit Types (buf : list (value_info T)) (c : value_info T)
  (s : sparse_vector T) (p : option (list (value_info T))) (v : T).

Lemma wf_intro buf n cap l :
  length buf = cap /\ n <= cap /\
  (forall i c, i < n -> buf !! i = Some c -> cell_okb c = true) ->
  wf {| data_ := Some buf; size_ := n; capacity_ := cap;
        freeIndeces_ := l |}.
Proof. intros H. eapply wf_Some; [reflexivity | exact H]. Qed.

Lemma cell_okb_live v : cell_okb (live v) = true.
Proof. reflexivity. Qed.

Lemma cell_okb_vacant : cell_okb (T:=T) vacant = true.
Proof. reflexivity. Qed.

(** Overwriting a cell of the buffer with a cell in order. *)
Lemma wf_insert s buf i x n l :
  wf s -> data_ s = Some buf -> cell_okb x = true ->
  n <= size_ s \/ (n = S (size_ s) /\ i = size_ s /\ i < length buf) ->
  wf {| data_ := Some (<[i := x]> buf); size_ := n;
        capacity_ := capacity_ s; freeIndeces_ := l |}.
Proof.
  intros Hwf Hd Hx Hn.
  apply (wf_Some _ _ Hd) in Hwf as (Hl & Hsz & Hcells).
  apply wf_intro.
  split; [rewrite length_insert; assumption|].
  split; [lia|].
  intros j c Hj Hc. destruct (decide (i = j)) as [->|Hne].
  - apply list_lookup_insert_Some in Hc as [(_ & <- & _) | (? & _)];
      [assumption | congruence].
  - rewrite list_lookup_insert_ne in Hc by assumption.
    apply (Hcells j); [lia | assumption].
Qed.

Lemma push_free_wf (val : reference) s index s' :
  wf s -> push_free val s = Ok (index, s') -> wf s'.
Proof.
  intros Hwf H. apply push_free_Ok in H as
    [(buf & c & v & Hl & Hd & Hc & _ & ->)
    |[(buf & c & v & Hl & Hne & -> & Hd & Hc & _ & ->)
     |(s1 & buf1 & c & v & Hl & He & Hr & -> & Hd & Hc & _ & ->)]].
  - apply (wf_insert s buf); auto using cell_okb_live.
  - apply (wf_insert s buf); auto using cell_okb_live.
    right. split; [reflexivity|]. split; [reflexivity|].
    apply lookup_lt_is_Some. eauto.
  - destruct (wf_data s Hwf) as [buf Hd0].
    pose proof (proj1 (wf_Some _ _ Hd0) Hwf) as (Hlen & Hsz & _).
    destruct (reallocate_wf s (capacity_ s * 2) Hwf) as
      (s1' & buf0 & buf1' & Hr' & Hwf1 & _); [lia|].
    rewrite Hr in Hr'. injection Hr' as <-.
    apply (wf_insert s1 buf1); auto using cell_okb_live.
    right. split; [reflexivity|]. split; [reflexivity|].
    apply lookup_lt_is_Some. eauto.
Qed.

Lemma erase_at_wf index s s' : wf s -> erase_at index s = Ok s' -> wf s'.
Proof.
  intros Hwf H. apply erase_at_Ok in H as (buf & c & _ & Hd & _ & _ & ->).
  apply (wf_insert s buf); auto using cell_okb_vacant.
Qed.

Lemma pop_back_wf s s' : wf s -> pop_back s = Ok s' -> wf s'.
Proof.
  intros Hwf H. apply pop_back_Ok in H as (buf & c & _ & Hd & _ & ->).
  apply (wf_insert s buf); auto using cell_okb_vacant. left. lia.
Qed.

Lemma emplace_at_wf i v s s' : wf s -> emplace_at i v s = Ok s' -> wf s'.
Proof.
  intros Hwf H. apply emplace_at_Ok in H as (buf & c & _ & Hd & _ & _ & ->).
  apply (wf_insert s buf); auto using cell_okb_live.
Qed.

Lemma reserve_wf n s s' : wf s -> reserve n s = Ok s' -> wf s'.
Proof.
  intros Hwf H. destruct (reserve_spec s n Hwf) as (s1 & ? & ? & Hr & Hwf1 & _).
  congruence.
Qed.

Lemma resize_wf n s s' : wf s -> resize n s = Ok s' -> wf s'.
Proof.
  intros Hwf H. destruct (Nat.le_gt_cases (size_ s) n) as [Hn|Hn].
  - destruct (resize_grow s n Hwf Hn) as (buf & buf' & Hd & Hr & Hl & Hlo & Hhi).
    rewrite Hr in H. injection H as <-.
    pose proof (proj1 (wf_Some _ _ Hd) Hwf) as (Hlen & Hsz & Hcells).
    apply wf_intro.
    split; [assumption|]. split; [lia|].
    intros i c1 Hi Hc1. apply cell_okb_true.
    destruct (decide (i < size_ s)) as [Hlt|Hge].
    + destruct (lookup_lt_is_Some_2 buf i) as [c Hc]; [lia|].
      destruct (Hlo i c Hlt Hc) as (c1' & Hc1' & He & Hv).
      rewrite Hc1 in Hc1'. injection Hc1' as <-.
      pose proof (Hcells i c Hlt Hc) as Hok. apply cell_okb_true in Hok.
      rewrite He. destruct Hok as [Hf | [Ht [x Hx]]]; [left; assumption|].
      right. split; [assumption|].
      unfold live_value in Hv. rewrite He, Ht, Hx in Hv. eauto.
    + destruct (Hhi i) as (c1' & Hc1' & He); [lia|].
      rewrite Hc1 in Hc1'. injection Hc1' as <-. left. assumption.
  - rewrite resize_shrink in H by (assumption || lia). injection H as <-.
    destruct (wf_data s Hwf) as [buf Hd].
    pose proof (proj1 (wf_Some _ _ Hd) Hwf) as (Hlen & Hsz & Hcells).
    unfold set_size. rewrite Hd. apply wf_intro.
    split; [assumption|]. split; [lia|].
    intros i c Hi. apply Hcells. lia.
Qed.

Lemma fill_ok funct buf i c : cell_okb c = true -> cell_okb (fill funct buf i c) = true.
Proof. unfold fill. destruct (is_free c); auto. Qed.

Lemma wipe_ok c : cell_okb c = true -> cell_okb (wipe c) = true.
Proof. unfold wipe. destruct (exist c) as [[|]|]; auto. Qed.

Lemma feel_free_cells_wf funct s s' :
  wf s -> feel_free_cells funct s = Ok s' -> wf s'.
Proof.
  intros Hwf H.
  destruct (feel_free_cells_spec funct s Hwf)
    as (buf & buf' & Hd & Hr & Hl & Hlo & Hhi).
  rewrite Hr in H. injection H as <-.
  pose proof (proj1 (wf_Some _ _ Hd) Hwf) as (Hlen & Hsz & Hcells).
  apply wf_intro.
  split; [lia|]. split; [lia|].
  intros i c1 Hi Hc1.
  destruct (lookup_lt_is_Some_2 buf i) as [c Hc]; [lia|].
  rewrite (Hlo i c Hi Hc) in Hc1. injection Hc1 as <-.
  apply fill_ok. eauto.
Qed.

Lemma clear_wf s s' : wf s -> clear s = Ok s' -> wf s'.
Proof.
  intros Hwf H.
  destruct (clear_spec s Hwf) as (buf & buf' & Hd & Hr & Hl & Hlo & Hhi).
  rewrite Hr in H. injection H as <-.
  pose proof (proj1 (wf_Some _ _ Hd) Hwf) as (Hlen & Hsz & Hcells).
  apply wf_intro.
  split; [lia|]. split; [lia|]. intros i c1 Hi. lia.
Qed.

Lemma run_wf (o : op) s s' : wf s -> run o s = Ok s' -> wf s'.
Proof.
  intros Hwf H. destruct o; simpl in H.
  - apply fmap_Ok in H as ([i s0] & H & <-). eauto using push_free_wf.
  - apply fmap_Ok in H as ([i s0] & H & <-).
    rewrite emplace_free_push_free in H. eauto using push_free_wf.
  - eauto using erase_at_wf.
  - eauto using pop_back_wf.
  - eauto using feel_free_cells_wf.
  - eauto using reserve_wf.
  - eauto using resize_wf.
  - eauto using emplace_at_wf.
  - eauto using clear_wf.
Qed.

Lemma sparse_vector_init_wf (other : list T) s :
  sparse_vector_init other = Ok s -> wf s.
Proof.
  rewrite sparse_vector_init_spec. intros [= <-].
  apply wf_intro.
  split; [apply length_fmap|]. split; [lia|].
  intros i c _ Hc. rewrite list_lookup_fmap in Hc.
  destruct (other !! i); [|discriminate]. injection Hc as <-. reflexivity.
Qed.

Lemma sparse_vector_copy_wf s s' :
  wf s -> sparse_vector_copy s = Ok s' -> wf s'.
Proof.
  intros Hwf H. rewrite sparse_vector_copy_reallocate in H.
  destruct (wf_data s Hwf) as [buf Hd].
  pose proof (proj1 (wf_Some _ _ Hd) Hwf) as (Hlen & Hsz & _).
  destruct (reallocate_wf s (capacity_ s) Hwf Hsz) as (s1 & ? & ? & Hr & Hwf1 & _).
  congruence.
Qed.

Lemma reachable_wf s : reachable s -> wf s.
Proof.
  induction 1 as [|other s H|s s' _ IH H|o s s' _ IH H].
  - apply wf_default.
  - eauto using sparse_vector_init_wf.
  - eauto using sparse_vector_copy_wf.
  - eauto using run_wf.
Qed.

End Preservation.

(** ** Every free index of a reachable state lies in the buffer *)

Section FreeInBuffer.
Context {T : Type}.
Implicit Types (buf : list (value_info T)) (c : value_info T)
  (s : sparse_vector T) (v : T).

Lemma free_in_buffer_spec s :
  free_in_buffer s <-> forall i, i ∈ freeIndeces_ s -> i < capacity_ s.
Proof.
  unfold free_in_buffer, free_in_bufferb.
  rewrite <- Is_true_true, forallb_True, Forall_forall.
  split; intros H i Hi; specialize (H i Hi).
  - apply Is_true_true, Nat.ltb_lt in H. assumption.
  - apply Is_true_true, Nat.ltb_lt. assumption.
Qed.

Lemma free_in_buffer_nil s : freeIndeces_ s = [] -> free_in_buffer s.
Proof.
  intros H. unfold free_in_buffer, free_in_bufferb. rewrite H. reflexivity.
Qed.

Lemma free_in_buffer_mono s s' :
  free_in_buffer s -> capacity_ s <= capacity_ s' ->
  (forall i, i ∈ freeIndeces_ s' ->
     i ∈ freeIndeces_ s \/ i < capacity_ s') ->
  free_in_buffer s'.
Proof.
  intros H Hcap Hsub. apply free_in_buffer_spec. intros i Hi.
  destruct (Hsub i Hi) as [Hin | Hlt]; [|assumption].
  pose proof (proj1 (free_in_buffer_spec s) H i Hin). lia.
Qed.

Lemma run_free_in_buffer (o : op) s s' :
  wf s -> free_in_buffer s -> run o s = Ok s' -> free_in_buffer s'.
Proof.
  intros Hwf Hfb H. destruct (wf_data s Hwf) as [buf Hd].
  pose proof (proj1 (wf_Some _ _ Hd) Hwf) as (Hlen & Hsz & _).
  assert (Hpush : forall (val : reference) i s0,
            push_free val s = Ok (i, s0) -> free_in_buffer s0).
  { intros val0 i s0 Hp. apply push_free_Ok in Hp as
      [(buf0 & c & v & Hl & Hd0 & Hc & _ & ->)
      |[(buf0 & c & v & Hl & Hne & -> & Hd0 & Hc & _ & ->)
       |(s1 & buf1 & c & v & Hl & He & Hr & -> & Hd1 & Hc & _ & ->)]].
    - apply (free_in_buffer_mono s); simpl; [assumption | lia |].
      intros j Hj. left. apply last_Some in Hl as [l' Hl].
      rewrite Hl in Hj |- *. rewrite removelast_last in Hj.
      apply elem_of_app. auto.
    - apply (free_in_buffer_mono s); simpl; [assumption | lia | auto].
    - apply free_in_buffer_nil. simpl. apply last_None in Hl.
      unfold reallocate in Hr. apply bind_Ok in Hr as (nd & _ & Hr).
      injection Hr as <-. assumption. }
  destruct o; simpl in H.
  - apply fmap_Ok in H as ([i s0] & H & <-). eauto.
  - apply fmap_Ok in H as ([i s0] & H & <-).
    rewrite emplace_free_push_free in H. eauto.
  - apply erase_at_Ok in H as (buf0 & c & _ & Hd0 & Hc & _ & ->).
    rewrite Hd in Hd0. injection Hd0 as <-.
    apply (free_in_buffer_mono s); simpl; [assumption | lia |].
    intros j Hj. apply elem_of_app in Hj as [Hj|Hj]; [auto|].
    apply list_elem_of_singleton in Hj as ->. right.
    rewrite <- Hlen. apply lookup_lt_is_Some. eauto.
  - apply pop_back_Ok in H as (buf0 & c & _ & _ & _ & ->).
    apply (free_in_buffer_mono s); simpl; [assumption | lia | auto].
  - destruct (feel_free_cells_spec funct s Hwf) as (? & ? & _ & Hr & _).
    rewrite Hr in H. injection H as <-. apply free_in_buffer_nil. reflexivity.
  - destruct (reserve_spec s newCapacity Hwf)
      as (s1 & ? & ? & Hr & _ & _ & Hc & Hf & _).
    rewrite Hr in H. injection H as <-.
    apply (free_in_buffer_mono s); [assumption | lia |].
    intros j Hj. left. congruence.
  - destruct (Nat.le_gt_cases (size_ s) newSize) as [Hn|Hn].
    + destruct (resize_grow s newSize Hwf Hn) as (? & ? & _ & Hr & _).
      rewrite Hr in H. injection H as <-.
      apply (free_in_buffer_mono s); simpl; [assumption | lia |].
      intros j Hj. apply elem_of_app in Hj as [Hj|Hj]; [auto|].
      apply elem_of_seq in Hj. right. lia.
    + rewrite resize_shrink in H by (assumption || lia). injection H as <-.
      apply (free_in_buffer_mono s); simpl; [assumption | lia | auto].
  - apply emplace_at_Ok in H as (buf0 & c & _ & _ & _ & _ & ->).
    apply (free_in_buffer_mono s); simpl; [assumption | lia | auto].
  - destruct (clear_spec s Hwf) as (? & ? & _ & Hr & _).
    rewrite Hr in H. injection H as <-. apply free_in_buffer_nil. reflexivity.
Qed.

Lemma reachable_free_in_buffer s : reachable s -> free_in_buffer s.
Proof.
  induction 1 as [|other s H|s s' Hreach IH H|o s s' Hreach IH H].
  - reflexivity.
  - rewrite sparse_vector_init_spec in H. injection H as <-. reflexivity.
  - apply reachable_wf in Hreach as Hwf.
    rewrite sparse_vector_copy_reallocate in H.
    destruct (wf_data s Hwf) as [buf Hd].
    pose proof (proj1 (wf_Some _ _ Hd) Hwf) as (Hlen & Hsz & _).
    destruct (reallocate_wf s (capacity_ s) Hwf Hsz) as
      (s1 & ? & ? & Hr & _ & _ & Hc & Hf & _).
    rewrite Hr in H. injection H as <-.
    apply (free_in_buffer_mono s); [assumption | lia |].
    intros j Hj. left. congruence.
  - apply reachable_wf in Hreach. eauto using run_free_in_buffer.
Qed.

End FreeInBuffer.

(** ** The free indices *)

Section FreeList.
Context {T : Type}.
Implicit Types (buf : list (value_info T)) (c : value_info T)
  (s : sparse_vector T) (p : option (list (value_info T))) (v : T).

Lemma free_cellb_true p i : free_cellb p i = true <-> read_exist p i = Ok false.
Proof.
  unfold free_cellb. destruct (read_exist p i) as [[|]| |]; split;
    congruence.
Qed.

Lemma free_list_ok_spec s :
  free_list_ok s <->
  NoDup (freeIndeces_ s) /\
  forall i, i ∈ freeIndeces_ s ->
    i < size_ s /\ read_exist (data_ s) i = Ok false.
Proof.
  unfold free_list_ok, free_list_okb.
  rewrite andb_true_iff, bool_decide_eq_true.
  rewrite <- (Is_true_true (forallb _ _)), forallb_True, Forall_forall.
  split; intros [Hnd H]; (split; [assumption|]); intros i Hi;
    specialize (H i Hi).
  - apply Is_true_true, andb_true_iff in H as [H1 H2].
    apply Nat.ltb_lt in H1. apply free_cellb_true in H2. auto.
  - apply Is_true_true, andb_true_iff. destruct H as [H1 H2].
    split; [apply Nat.ltb_lt | apply free_cellb_true]; assumption.
Qed.

Lemma free_list_ok_nil s : freeIndeces_ s = [] -> free_list_ok s.
Proof.
  intros H. apply free_list_ok_spec. rewrite H.
  split; [apply NoDup_nil_2 | intros i Hi; inversion Hi].
Qed.

Lemma read_exist_insert_ne buf i j x :
  i <> j -> read_exist (Some (<[i := x]> buf)) j = read_exist (Some buf) j.
Proof.
  intros H. unfold read_exist, cell_at.
  rewrite list_lookup_insert_ne by assumption. reflexivity.
Qed.

Lemma read_exist_insert_eq buf i x b :
  i < length buf -> exist x = Some b ->
  read_exist (Some (<[i := x]> buf)) i = Ok b.
Proof.
  intros Hi Hx. apply read_exist_Ok. exists x.
  split; [apply list_lookup_insert_eq; assumption | assumption].
Qed.

(** An index in the vector is not the index of a live cell. *)
Lemma free_list_not_live s buf i c :
  free_list_ok s -> data_ s = Some buf -> buf !! i = Some c ->
  exist c = Some true -> i ∉ freeIndeces_ s.
Proof.
  intros Hok Hd Hc He Hin. apply free_list_ok_spec in Hok as [_ H].
  destruct (H i Hin) as [_ Hr]. rewrite Hd in Hr.
  apply read_exist_Ok in Hr as (c' & Hc' & He'). congruence.
Qed.

Lemma push_free_free_list (val : reference) s index s' :
  free_list_ok s -> push_free val s = Ok (index, s') -> free_list_ok s'.
Proof.
  intros Hok H. apply push_free_Ok in H as
    [(buf & c & v & Hl & Hd & Hc & _ & ->)
    |[(buf & c & v & Hl & Hne & -> & Hd & Hc & _ & ->)
     |(s1 & buf1 & c & v & Hl & He & Hr & -> & Hd & Hc & _ & ->)]].
  - apply last_Some in Hl as [l' Hl].
    apply free_list_ok_spec in Hok as [Hnd H]. rewrite Hl in Hnd, H.
    apply free_list_ok_spec. simpl. rewrite Hl, removelast_last.
    apply NoDup_app in Hnd as (Hnd & Hdisj & _).
    split; [assumption|]. intros i Hi.
    destruct (H i) as [Hlt Hr]; [apply elem_of_app; auto|].
    split; [assumption|]. rewrite Hd in Hr.
    rewrite read_exist_insert_ne; [assumption|].
    intros ->. apply (Hdisj i Hi). apply list_elem_of_singleton. reflexivity.
  - apply free_list_ok_nil. simpl. apply last_None. assumption.
  - apply free_list_ok_nil. simpl. apply last_None in Hl.
    unfold reallocate in Hr. apply bind_Ok in Hr as (nd & _ & Hr).
    injection Hr as <-. assumption.
Qed.

Lemma erase_at_free_list index s s' :
  free_list_ok s -> index <> size_ s ->
  erase_at index s = Ok s' -> free_list_ok s'.
Proof.
  intros Hok Hne H.
  apply erase_at_Ok in H as (buf & c & Hle & Hd & Hc & He & ->).
  pose proof (free_list_not_live s buf index c Hok Hd Hc He) as Hnin.
  apply free_list_ok_spec in Hok as [Hnd H].
  apply free_list_ok_spec. simpl. split.
  - apply NoDup_app. split; [assumption|]. split; [|apply NoDup_singleton].
    intros i Hi Hi'. apply list_elem_of_singleton in Hi'. congruence.
  - intros i Hi. apply elem_of_app in Hi as [Hi|Hi].
    + destruct (H i Hi) as [Hlt Hr]. split; [assumption|].
      rewrite Hd in Hr. rewrite read_exist_insert_ne; congruence.
    + apply list_elem_of_singleton in Hi as ->. split; [lia|].
      apply read_exist_insert_eq; [|reflexivity].
      apply lookup_lt_is_Some. eauto.
Qed.

Lemma pop_back_free_list s s' :
  free_list_ok s -> size_ s - 1 ∉ freeIndeces_ s ->
  pop_back s = Ok s' -> free_list_ok s'.
Proof.
  intros Hok Hnin H.
  apply pop_back_Ok in H as (buf & c & Hz & Hd & Hc & ->).
  apply free_list_ok_spec in Hok as [Hnd H].
  apply free_list_ok_spec. simpl. split; [assumption|].
  intros i Hi. destruct (H i Hi) as [Hlt Hr].
  assert (i <> size_ s - 1) by congruence.
  split; [lia|]. rewrite Hd in Hr.
  rewrite read_exist_insert_ne; [assumption | congruence].
Qed.

Lemma emplace_at_free_list i v s s' :
  free_list_ok s -> emplace_at i v s = Ok s' -> free_list_ok s'.
Proof.
  intros Hok H.
  apply emplace_at_Ok in H as (buf & c & Hlt & Hd & Hc & He & ->).
  pose proof (free_list_not_live s buf i c Hok Hd Hc He) as Hnin.
  apply free_list_ok_spec in Hok as [Hnd H].
  apply free_list_ok_spec. simpl. split; [assumption|].
  intros j Hj. destruct (H j Hj) as [Hjlt Hr]. split; [assumption|].
  rewrite Hd in Hr. rewrite read_exist_insert_ne; congruence.
Qed.

Lemma reserve_free_list n s s' :
  wf s -> free_list_ok s -> reserve n s = Ok s' -> free_list_ok s'.
Proof.
  intros Hwf Hok H.
  destruct (reserve_spec s n Hwf)
    as (s1 & buf & buf1 & Hr & Hwf1 & Hs & Hc & Hf & Hd & Hd1 & Hcells).
  rewrite Hr in H. injection H as <-.
  apply free_list_ok_spec in Hok as [Hnd H].
  apply free_list_ok_spec. rewrite Hf, Hs, Hd1. split; [assumption|].
  intros i Hi. destruct (H i Hi) as [Hlt Hri]. split; [assumption|].
  rewrite Hd in Hri. apply read_exist_Ok in Hri as (c & Hci & He).
  destruct (Hcells i c Hlt Hci) as (c1 & Hc1 & He1 & _).
  apply read_exist_Ok. exists c1. split; congruence.
Qed.

Lemma resize_free_list n s s' :
  wf s -> free_list_ok s -> size_ s <= n ->
  resize n s = Ok s' -> free_list_ok s'.
Proof.
  intros Hwf Hok Hn H.
  destruct (resize_grow s n Hwf Hn) as (buf & buf' & Hd & Hr & Hl & Hlo & Hhi).
  rewrite Hr in H. injection H as <-.
  apply free_list_ok_spec in Hok as [Hnd H].
  apply free_list_ok_spec. simpl. split.
  - apply NoDup_app. split; [assumption|]. split; [|apply NoDup_seq].
    intros i Hi Hi'. apply elem_of_seq in Hi'.
    destruct (H i Hi) as [Hlt _]. lia.
  - intros i Hi. apply elem_of_app in Hi as [Hi|Hi].
    + destruct (H i Hi) as [Hlt Hri]. split; [lia|].
      rewrite Hd in Hri. apply read_exist_Ok in Hri as (c & Hci & He).
      destruct (Hlo i c Hlt Hci) as (c1 & Hc1 & He1 & _).
      apply read_exist_Ok. exists c1. split; congruence.
    + apply elem_of_seq in Hi. split; [lia|].
      destruct (Hhi i) as (c1 & Hc1 & He1); [lia|].
      apply read_exist_Ok. eauto.
Qed.

Lemma run_free_list (o : op) s s' :
  wf s -> free_list_ok s -> keeps_free_list o s ->
  run o s = Ok s' -> free_list_ok s'.
Proof.
  intros Hwf Hok Hk H. destruct o; simpl in H, Hk.
  - apply fmap_Ok in H as ([i s0] & H & <-). eauto using push_free_free_list.
  - apply fmap_Ok in H as ([i s0] & H & <-).
    rewrite emplace_free_push_free in H. eauto using push_free_free_list.
  - eauto using erase_at_free_list.
  - eauto using pop_back_free_list.
  - destruct (feel_free_cells_spec funct s Hwf) as (buf & buf' & _ & Hr & _).
    rewrite Hr in H. injection H as <-. apply free_list_ok_nil. reflexivity.
  - eauto using reserve_free_list.
  - eauto using resize_free_list.
  - eauto using emplace_at_free_list.
  - destruct (clear_spec s Hwf) as (buf & buf' & _ & Hr & _).
    rewrite Hr in H. injection H as <-. apply free_list_ok_nil. reflexivity.
Qed.

End FreeList.

(** ** Stable indices *)

Section Stability.
Context {T : Type}.
Implicit Types (buf : list (value_info T)) (c : value_info T)
  (s : sparse_vector T) (p : option (list (value_info T))) (v : T).

Lemma at_intro i buf n cap l c v :
  i < n -> buf !! i = Some c -> exist c = Some true -> value c = Some v ->
  at_ i {| data_ := Some buf; size_ := n; capacity_ := cap;
           freeIndeces_ := l |} = Ok v.
Proof.
  intros Hi Hc He Hv. apply at_Ok. simpl. split; [assumption|].
  exists buf, c. auto.
Qed.

Lemma at_insert_ne i j buf x n cap l c v :
  i < n -> j <> i ->
  buf !! i = Some c -> exist c = Some true -> value c = Some v ->
  at_ i {| data_ := Some (<[j := x]> buf); size_ := n; capacity_ := cap;
           freeIndeces_ := l |} = Ok v.
Proof.
  intros Hi Hne Hc He Hv. apply (at_intro _ _ _ _ _ c); try assumption.
  rewrite list_lookup_insert_ne by assumption. assumption.
Qed.

(** A cell that agrees with a live cell on the flag and on the live value
    is that live cell, as far as [at] can tell. *)
Lemma at_same_cell i buf' n cap l c c1 v :
  i < n -> buf' !! i = Some c1 ->
  exist c1 = exist c -> live_value c1 = live_value c ->
  exist c = Some true -> value c = Some v ->
  at_ i {| data_ := Some buf'; size_ := n; capacity_ := cap;
           freeIndeces_ := l |} = Ok v.
Proof.
  intros Hi Hc1 He1 Hv1 He Hv. apply (at_intro _ _ _ _ _ c1); try assumption.
  - congruence.
  - unfold live_value in Hv1. rewrite He1, He in Hv1. congruence.
Qed.

(** An insertion keeps what [at(i)] returns unless the index it takes from
    the back of the free indices is [i]. *)
Lemma push_free_keeps_index i w (val : reference) s index s' :
  wf s -> last (get_free_cells s) <> Some i -> at_ i s = Ok w ->
  push_free val s = Ok (index, s') -> at_ i s' = Ok w.
Proof.
  intros Hwf Hok Hat H. unfold get_free_cells in Hok.
  apply at_Ok in Hat as (Hi & buf & c & Hd & Hc & He & Hv).
  apply push_free_Ok in H as
    [(buf0 & c0 & v & Hl & Hd0 & Hc0 & _ & ->)
    |[(buf0 & c0 & v & Hl & Hne & -> & Hd0 & Hc0 & _ & ->)
     |(s1 & buf1 & c1 & v & Hl & Hcap & Hr & -> & Hd1 & Hc1 & _ & ->)]].
  - rewrite Hd in Hd0. injection Hd0 as <-.
    apply (at_insert_ne _ _ _ _ _ _ _ c); try assumption.
    intros ->. apply Hok. assumption.
  - rewrite Hd in Hd0. injection Hd0 as <-.
    apply (at_insert_ne _ _ _ _ _ _ _ c); try assumption; lia.
  - pose proof (proj1 (wf_Some _ _ Hd) Hwf) as (Hlen & Hsz & _).
    destruct (reallocate_wf s (capacity_ s * 2) Hwf) as
      (s1' & buf0 & buf1' & Hr' & Hwf1 & Hs1 & Hc1' & Hf1 & Hd0 & Hd1' & Hlo & _);
      [lia|].
    rewrite Hr in Hr'. injection Hr' as <-.
    rewrite Hd in Hd0. injection Hd0 as <-.
    rewrite Hd1 in Hd1'. injection Hd1' as <-.
    apply (at_insert_ne _ _ _ _ _ _ _ (relocate c)); try lia.
    + apply Hlo; assumption.
    + assumption.
    + rewrite relocate_live; assumption.
Qed.

Lemma run_keeps_index i w (o : op) s s' :
  wf s -> at_ i s = Ok w ->
  keeps_index i o s -> run o s = Ok s' -> at_ i s' = Ok w.
Proof.
  intros Hwf Hat Hk H. destruct o; simpl in H, Hk.
  - apply fmap_Ok in H as ([j s0] & H & <-). eauto using push_free_keeps_index.
  - apply fmap_Ok in H as ([j s0] & H & <-).
    rewrite emplace_free_push_free in H. eauto using push_free_keeps_index.
  - apply at_Ok in Hat as (Hi & buf & c & Hd & Hc & He & Hv).
    apply erase_at_Ok in H as (buf0 & c0 & _ & Hd0 & _ & _ & ->).
    rewrite Hd in Hd0. injection Hd0 as <-.
    apply (at_insert_ne _ _ _ _ _ _ _ c); assumption.
  - apply at_Ok in Hat as (Hi & buf & c & Hd & Hc & He & Hv).
    apply pop_back_Ok in H as (buf0 & c0 & _ & Hd0 & _ & ->).
    rewrite Hd in Hd0. injection Hd0 as <-.
    apply (at_insert_ne _ _ _ _ _ _ _ c); try assumption; lia.
  - apply at_Ok in Hat as (Hi & buf & c & Hd & Hc & He & Hv).
    destruct (feel_free_cells_spec funct s Hwf)
      as (buf0 & buf' & Hd0 & Hr & _ & Hlo & _).
    rewrite Hr in H. injection H as <-.
    rewrite Hd in Hd0. injection Hd0 as <-.
    apply (at_intro _ _ _ _ _ c); try assumption.
    rewrite (Hlo i c Hi Hc). unfold fill, is_free. rewrite He. reflexivity.
  - apply at_Ok in Hat as (Hi & buf & c & Hd & Hc & He & Hv).
    destruct (reserve_spec s newCapacity Hwf)
      as (s1 & buf0 & buf1 & Hr & _ & Hs & Hcap & Hf & Hd0 & Hd1 & Hcells).
    rewrite Hr in H. injection H as <-.
    rewrite Hd in Hd0. injection Hd0 as <-.
    destruct (Hcells i c Hi Hc) as (c1 & Hc1 & He1 & Hv1).
    destruct s1 as [d1 n1 cap1 l1]. simpl in *. subst d1.
    apply (at_same_cell _ _ _ _ _ c c1); try assumption. lia.
  - apply at_Ok in Hat as (Hi & buf & c & Hd & Hc & He & Hv).
    destruct (Nat.le_gt_cases (size_ s) newSize) as [Hn|Hn].
    + destruct (resize_grow s newSize Hwf Hn)
        as (buf0 & buf' & Hd0 & Hr & _ & Hlo & _).
      rewrite Hr in H. injection H as <-.
      rewrite Hd in Hd0. injection Hd0 as <-.
      destruct (Hlo i c Hi Hc) as (c1 & Hc1 & He1 & Hv1).
      apply (at_same_cell _ _ _ _ _ c c1); try assumption.
    + rewrite resize_shrink in H by (assumption || lia). injection H as <-.
      unfold set_size. rewrite Hd.
      apply (at_intro _ _ _ _ _ c); assumption.
  - apply at_Ok in Hat as (Hi & buf & c & Hd & Hc & He & Hv).
    apply emplace_at_Ok in H as (buf0 & c0 & _ & Hd0 & _ & _ & ->).
    rewrite Hd in Hd0. injection Hd0 as <-.
    apply (at_insert_ne _ _ _ _ _ _ _ c); assumption.
  - contradiction.
Qed.

End Stability.

(** ** Iteration *)

Section Iteration.
Context {T : Type}.
Implicit Types (buf : list (value_info T)) (c : value_info T)
  (s : sparse_vector T) (v : T).

Lemma exist_at_wf s i :
  wf s -> i < size_ s ->
  exists buf c b, data_ s = Some buf /\ buf !! i = Some c /\
    exist c = Some b /\ exist_at i s = Ok b /\
    (b = true -> is_Some (value c)).
Proof.
  intros Hwf Hi.
  destruct (wf_read_exist s i Hwf Hi) as (buf & c & b & Hd & Hc & He & Hr & Hv).
  exists buf, c, b. repeat (split; [assumption|]).
  split; [|assumption].
  apply exist_at_Ok. right. split; [assumption|]. eauto.
Qed.

(** The skipping loop stops at the first live cell, or at the end. *)
Lemma skip_free_spec s from :
  wf s -> from <= size_ s ->
  exists p,
    skip_free (cells_from (data_ s) from) from (size_ s) = Ok p /\
    first_live_from s from p.
Proof.
  intros Hwf. remember (size_ s - from) as n eqn:Hn.
  revert from Hn. induction n as [|n IH]; intros from Hn Hle.
  - assert (from = size_ s) as -> by lia. exists (size_ s).
    split.
    + destruct (cells_from (data_ s) (size_ s)); simpl;
        rewrite Nat.eqb_refl; reflexivity.
    + split; [lia|]. split; intros; lia.
  - assert (Hlt : from < size_ s) by lia.
    destruct (exist_at_wf s from Hwf Hlt)
      as (buf & c & b & Hd & Hc & He & Hex & _).
    unfold cells_from. rewrite Hd. rewrite (drop_S _ _ _ Hc). simpl.
    apply Nat.lt_neq, Nat.eqb_neq in Hlt as Hneq. rewrite Hneq, He.
    destruct b; simpl.
    + exists from. split; [reflexivity|].
      split; [lia|]. split; [intros; lia | auto].
    + destruct (IH (S from)) as (p & Hp & (Hr & Hfree & Hlive)); [lia | lia |].
      unfold cells_from in Hp. rewrite Hd in Hp.
      exists p. split; [assumption|].
      split; [lia|]. split; [|assumption].
      intros k Hk. destruct (decide (k = from)) as [->|Hne];
        [assumption | apply Hfree; lia].
Qed.

Lemma begin_spec s :
  wf s ->
  exists p, begin_ s = Ok {| ptr_ := p; endPtr_ := size_ s |} /\
            first_live_from s 0 p.
Proof.
  intros Hwf. destruct (skip_free_spec s 0 Hwf) as (p & Hp & Hf); [lia|].
  exists p. unfold begin_, iterator_ctor. rewrite Hp. auto.
Qed.

Lemma end_spec s :
  end_ s = Ok {| ptr_ := size_ s; endPtr_ := size_ s |}.
Proof.
  unfold end_, iterator_ctor.
  destruct (cells_from (data_ s) (size_ s)); simpl;
    rewrite Nat.eqb_refl; reflexivity.
Qed.

Lemma iterator_incr_spec s (it : iterator) :
  wf s -> ptr_ it < size_ s -> endPtr_ it = size_ s ->
  exists p, iterator_incr (data_ s) it =
              Ok {| ptr_ := p; endPtr_ := size_ s |} /\
            first_live_from s (S (ptr_ it)) p.
Proof.
  intros Hwf Hlt He.
  destruct (skip_free_spec s (S (ptr_ it)) Hwf) as (p & Hp & Hf); [lia|].
  exists p. unfold iterator_incr. rewrite He, Hp. auto.
Qed.

Lemma omap_cons_eq {A B : Type} (f : A -> option B) x l :
  omap f (x :: l) =
  match f x with Some y => y :: omap f l | None => omap f l end.
Proof. reflexivity. Qed.

(** Free cells contribute nothing to the live values. *)
Lemma live_values_skip s buf a b :
  data_ s = Some buf -> size_ s <= length buf ->
  a <= b <= size_ s ->
  (forall k, a <= k < b -> exist_at k s = Ok false) ->
  omap live_value (drop a (take (size_ s) buf)) =
  omap live_value (drop b (take (size_ s) buf)).
Proof.
  intros Hd Hlen. remember (b - a) as n eqn:Hn.
  revert a Hn. induction n as [|n IH]; intros a Hn Hab Hfree.
  - replace a with b by lia. reflexivity.
  - destruct (lookup_lt_is_Some_2 (take (size_ s) buf) a) as [c Hc].
    { rewrite length_take. lia. }
    rewrite (drop_S _ _ _ Hc), omap_cons_eq.
    assert (Hex : exist_at a s = Ok false) by (apply Hfree; lia).
    apply exist_at_Ok in Hex as [[? _] | (_ & buf0 & c0 & Hd0 & Hc0 & He0)];
      [lia|].
    rewrite Hd in Hd0. injection Hd0 as <-.
    apply lookup_take_Some in Hc as [Hc _].
    rewrite Hc in Hc0. injection Hc0 as <-.
    assert (Hlv : live_value c = None)
      by (unfold live_value; rewrite He0; reflexivity).
    rewrite Hlv.
    apply IH; [lia | lia |]. intros k Hk. apply Hfree. lia.
Qed.

(** The loop over the iterators collects the live values from the current
    position on, given one round per remaining cell and one more. *)
Lemma range_for_spec s buf fuel p :
  wf s -> data_ s = Some buf ->
  first_live_from s p p ->
  size_ s - p < fuel ->
  range_for fuel (data_ s)
    {| ptr_ := p; endPtr_ := size_ s |}
    {| ptr_ := size_ s; endPtr_ := size_ s |} =
  Some (Ok (omap live_value (drop p (take (size_ s) buf)))).
Proof.
  intros Hwf Hd. pose proof (proj1 (wf_Some _ _ Hd) Hwf) as (Hlen & Hsz & _).
  revert p. induction fuel as [|fuel IH]; intros p (Hp & _ & Hlive) Hfuel.
  - lia.
  - simpl. unfold iterator_neq. simpl.
    destruct (p =? size_ s) eqn:Hps; simpl.
    + apply Nat.eqb_eq in Hps. subst p.
      rewrite drop_ge by (rewrite length_take; lia). reflexivity.
    + apply Nat.eqb_neq in Hps. assert (Hlt : p < size_ s) by lia.
      destruct (exist_at_wf s p Hwf Hlt)
        as (buf0 & c & b & Hd0 & Hc & He & Hex & Hv).
      rewrite Hd in Hd0. injection Hd0 as <-.
      rewrite (Hlive Hlt) in Hex. injection Hex as <-.
      destruct Hv as [v Hv]; [reflexivity|].
      assert (Hrv : iterator_deref (data_ s)
                      {| ptr_ := p; endPtr_ := size_ s |} = Ok v).
      { unfold iterator_deref. rewrite Hd. apply read_value_Ok. eauto. }
      rewrite Hrv. simpl.
      destruct (iterator_incr_spec s {| ptr_ := p; endPtr_ := size_ s |} Hwf)
        as (p' & Hincr & Hf'); [assumption | reflexivity |].
      rewrite Hincr. simpl.
      destruct Hf' as (Hr' & Hfree' & Hlive'). simpl in *.
      rewrite IH.
      * simpl.
        assert (Hcp : take (size_ s) buf !! p = Some c)
          by (rewrite lookup_take_lt by lia; assumption).
        assert (Hlv : live_value c = Some v)
          by (unfold live_value; rewrite He; assumption).
        rewrite (drop_S _ _ _ Hcp), omap_cons_eq, Hlv.
        rewrite (live_values_skip s buf (S p) p' Hd); try lia; auto.
      * split; [lia|]. split; [intros; lia | assumption].
      * lia.
Qed.

Lemma iterate_spec s fuel :
  wf s -> size_ s < fuel ->
  iterate fuel s = Some (Ok (live_values s)).
Proof.
  intros Hwf Hfuel. destruct (wf_data s Hwf) as [buf Hd].
  pose proof (proj1 (wf_Some _ _ Hd) Hwf) as (Hlen & Hsz & _).
  destruct (begin_spec s Hwf) as (p & Hb & (Hp & Hfree & Hlive)).
  unfold iterate. rewrite Hb, end_spec. simpl.
  rewrite (range_for_spec s buf fuel p Hwf Hd).
  - unfold live_values. rewrite Hd. simpl.
    rewrite <- (live_values_skip s buf 0 p Hd); try lia; auto.
  - split; [lia|]. split; [intros; lia | assumption].
  - lia.
Qed.

End Iteration.

(** ** What the accessors observe *)

Section Observation.
Context {T : Type}.
Implicit Types (buf : list (value_info T)) (c : value_info T)
  (s : sparse_vector T) (v : T).

(** Two states whose cell [i] agrees on the flag and on the live value are
    the same to [at] and [exist_at]. *)
Lemma same_observation s s' buf buf' i c c1 :
  data_ s = Some buf -> data_ s' = Some buf' ->
  i < size_ s -> i < size_ s' ->
  buf !! i = Some c -> buf' !! i = Some c1 ->
  exist c1 = exist c -> live_value c1 = live_value c ->
  at_ i s' = at_ i s /\ exist_at i s' = exist_at i s.
Proof.
  intros Hd Hd' Hi Hi' Hc Hc1 He Hv.
  apply Nat.leb_gt in Hi, Hi'.
  unfold at_, exist_at, read_exist, read_value, cell_at.
  rewrite Hd, Hd', Hi, Hi', Hc, Hc1. simpl. rewrite He.
  unfold live_value in Hv. rewrite He in Hv.
  destruct (exist c) as [[|]|]; simpl; try (split; reflexivity).
  rewrite Hv. split; reflexivity.
Qed.

Lemma omap_pointwise {A B C : Type} (f : A -> option C) (g : B -> option C)
    (l1 : list A) (l2 : list B) :
  length l1 = length l2 ->
  (forall i x y, l1 !! i = Some x -> l2 !! i = Some y -> f x = g y) ->
  omap f l1 = omap g l2.
Proof.
  revert l2. induction l1 as [|x l1 IH]; intros [|y l2] Hlen H;
    try discriminate; [reflexivity|].
  rewrite !omap_cons_eq. rewrite (H 0 x y eq_refl eq_refl).
  rewrite (IH l2); [reflexivity | simpl in Hlen; lia |].
  intros i x' y' Hx Hy. apply (H (S i)); assumption.
Qed.

(** The live cells in buffer order are the indices where [at] returns, in
    index order. *)
Lemma live_values_by_index s : wf s -> live_values s = values_by_index s.
Proof.
  intros Hwf. destruct (wf_data s Hwf) as [buf Hd].
  pose proof (proj1 (wf_Some _ _ Hd) Hwf) as (Hlen & Hsz & _).
  unfold live_values, values_by_index. rewrite Hd. simpl.
  apply omap_pointwise.
  - rewrite length_take, length_seq. lia.
  - intros i c j Hc Hj. apply lookup_seq in Hj as [-> Hi]. simpl.
    apply lookup_take_Some in Hc as [Hc _].
    destruct (wf_read_exist s i Hwf Hi)
      as (buf0 & c0 & b & Hd0 & Hc0 & He & _ & Hv).
    rewrite Hd in Hd0. injection Hd0 as <-.
    rewrite Hc in Hc0. injection Hc0 as <-.
    unfold live_value, value_at. rewrite He. destruct b.
    + destruct Hv as [v Hv]; [reflexivity|].
      rewrite (proj2 (at_Ok i s v)); [assumption|].
      split; [assumption|]. exists buf, c. auto.
    + destruct (at_ i s) as [v| |] eqn:Hat; try reflexivity.
      apply at_Ok in Hat as (_ & buf0 & c0 & Hd0 & Hc0 & He0 & _).
      congruence.
Qed.

End Observation.

(** * The claims

    The statements below are about well-formed states ([wf]) or about
    reachable states ([reachable]).  Every reachable state is well formed
    ([reachable_wf]) and has its free indices inside the buffer
    ([reachable_free_in_buffer]); the order of the free indices
    ([free_list_ok]) is not kept by every member, and is a hypothesis where
    a statement needs it. *)

(** ** emplace_at *)

(** Outside the size [emplace_at] throws its range exception. *)
Lemma emplace_at_out_of_range {T : Type} (s : sparse_vector T) i (v : T) :
  size_ s <= i ->
  emplace_at i v s = Throw (out_of_range emplace_at_range_msg).
Proof.
  intros H. unfold emplace_at. apply Nat.leb_le in H. rewrite H. reflexivity.
Qed.

(** On a free cell below the size it throws the exception whose text says
    that the value already exists, and writes nothing. *)
Lemma emplace_at_free_throws {T : Type} (s : sparse_vector T) i (v : T) :
  i < size_ s -> read_exist (data_ s) i = Ok false ->
  emplace_at i v s = Throw (out_of_range emplace_at_occupied_msg).
Proof.
  intros H Hr. unfold emplace_at. apply Nat.leb_gt in H. rewrite H, Hr.
  reflexivity.
Qed.

(** On a live cell it constructs over the value that is there. *)
Lemma emplace_at_live_overwrites {T : Type} (s : sparse_vector T) i (v w : T) :
  wf s -> at_ i s = Ok w ->
  exists s', emplace_at i v s = Ok s' /\ at_ i s' = Ok v.
Proof.
  intros Hwf Hat. apply at_Ok in Hat as (Hi & buf & c & Hd & Hc & He & Hv).
  eexists. split; [apply (emplace_at_live i v s buf c); assumption|].
  apply (at_intro _ _ _ _ _ (live v)); try reflexivity; try assumption.
  apply list_lookup_insert_eq. apply lookup_lt_is_Some. eauto.
Qed.

(** C1 (the code departs from the claim).  The claim: [emplace_at(i, v)]
    on a free cell below the size constructs [v] there and sets the flag,
    and on a live cell it fails with the "already occupied" condition.
    The code tests the flag the other way round.  On the container that
    [resize(1)] makes of an empty one, cell 0 is free and
    [emplace_at(0, 42)] throws the exception whose text is "value already
    exist ..."; on the container that [push_free(10)] makes of an empty
    one, cell 0 is live and [emplace_at(0, 42)] returns, after which
    [at(0)] is 42. *)
Theorem emplace_at_guard_inverted :
  let free0 : sparse_vector Z :=
    {| data_ := Some [vacant; raw]; size_ := 1; capacity_ := 2;
       freeIndeces_ := [0] |} in
  let live0 : sparse_vector Z :=
    {| data_ := Some [live 10%Z; raw]; size_ := 1; capacity_ := 2;
       freeIndeces_ := [] |} in
  resize 1 sparse_vector_default = Ok free0 /\
  exist_at 0 free0 = Ok false /\
  emplace_at 0 42%Z free0 = Throw (out_of_range emplace_at_occupied_msg) /\
  push_free (External 10%Z) sparse_vector_default = Ok (0, live0) /\
  exist_at 0 live0 = Ok true /\
  (exists s', emplace_at 0 42%Z live0 = Ok s' /\ at_ 0 s' = Ok 42%Z).
Proof.
  cbv zeta. repeat split. eexists. split; reflexivity.
Qed.

(** ** erase_at *)

(** C4 (the code departs from the claim).  The claim: [erase_at(i)] fails
    with the out-of-range condition exactly when [i >= size].  The code
    tests [index > size_], so the index equal to the size passes the range
    test.  After [push_free(10)], [push_free(20)], [pop_back()] the size is
    1 and [erase_at(1)] throws the exception of a vacant cell, not the
    range exception; after [push_free(10)], [push_free(20)], [resize(1)]
    the size is 1 and [erase_at(1)] returns, leaving index 1 in the free
    indices of a container of size 1.  From index 2 on the range exception
    is thrown. *)
Theorem erase_at_accepts_index_equal_to_size :
  let popped : sparse_vector Z :=
    {| data_ := Some [live 10%Z; vacant]; size_ := 1; capacity_ := 2;
       freeIndeces_ := [] |} in
  let shrunk : sparse_vector Z :=
    {| data_ := Some [live 10%Z; live 20%Z]; size_ := 1; capacity_ := 2;
       freeIndeces_ := [] |} in
  ('(_, s) ← push_free (External 10%Z) sparse_vector_default;
   '(_, s) ← push_free (External 20%Z) s; pop_back s) = Ok popped /\
  ('(_, s) ← push_free (External 10%Z) sparse_vector_default;
   '(_, s) ← push_free (External 20%Z) s; resize 1 s) = Ok shrunk /\
  erase_at 1 popped = Throw (out_of_range erase_at_vacant_msg) /\
  erase_at 1 shrunk =
    Ok {| data_ := Some [live 10%Z; vacant]; size_ := 1; capacity_ := 2;
          freeIndeces_ := [1] |} /\
  erase_at 2 popped = Throw (out_of_range erase_at_range_msg) /\
  erase_at_vacant_msg <> erase_at_range_msg.
Proof.
  cbv zeta. repeat split. discriminate.
Qed.

(** ** resize below the size *)

(** C10.  In a well-formed container of size [s], [resize(newSize)] with
    [newSize < s] returns and changes the size and nothing else: the buffer
    (so the value and the flag of every cell of [newSize, s)), the capacity
    and the free indices are what they were.  So free indices at or above
    [newSize] stay: after [resize(5)] and [resize(2)] on an empty container
    the free indices are still 0, 1, 2, 3, 4. *)
Theorem resize_below_size_only_sets_size :
  (forall (T : Type) (s : sparse_vector T) (newSize : nat),
     wf s -> newSize < size s ->
     exists s',
       resize newSize s = Ok s' /\
       size s' = newSize /\
       data_ s' = data_ s /\
       capacity s' = capacity s /\
       get_free_cells s' = get_free_cells s)
  /\ (exists s s' : sparse_vector Z,
        resize 5 sparse_vector_default = Ok s /\
        resize 2 s = Ok s' /\
        size s' = 2 /\ get_free_cells s' = [0; 1; 2; 3; 4]).
Proof.
  split.
  - intros T s newSize Hwf Hn. exists (set_size newSize s).
    split; [apply resize_shrink; [assumption | unfold size in Hn; lia]|].
    repeat split.
  - eexists _, _. repeat split.
Qed.

Lemma resize_below_size_only_sets_size_witness :
  exists s' : sparse_vector Z,
    resize 1 {| data_ := Some [live 10%Z; live 20%Z]; size_ := 2;
                capacity_ := 2; freeIndeces_ := [] |} = Ok s' /\
    size s' = 1 /\
    data_ s' = Some [live 10%Z; live 20%Z] /\
    capacity s' = 2 /\
    get_free_cells s' = [].
Proof.
  apply (proj1 resize_below_size_only_sets_size Z
    {| data_ := Some [live 10%Z; live 20%Z]; size_ := 2;
       capacity_ := 2; freeIndeces_ := [] |} 1).
  - reflexivity.
  - unfold size. simpl. lia.
Defined.

(** ** Reuse of free indices *)

(** C5.  In every state a program can reach, with a free index store that
    is not empty, [push_free(v)] and [emplace_free(v)] take its last
    element, the index freed most recently, remove it from the store,
    construct [v] in that cell with the flag set and return the index; the
    size stays.  So [erase_at(i)] on a live index followed by
    [push_free(v)] places [v] at [i] and returns [i].  From an empty
    container, [push_free(10)] returns 0, [push_free(20)] returns 1, and
    after [erase_at(0)], [push_free(30)] returns 0 and iteration yields
    30, 20. *)
Theorem push_free_reuses_last_freed_index :
  (forall (T : Type) (s : sparse_vector T) (v : T) (index : nat),
     reachable s -> last (get_free_cells s) = Some index ->
     exists s',
       push_free (External v) s = Ok (index, s') /\
       emplace_free (External v) s = Ok (index, s') /\
       get_free_cells s' = removelast (get_free_cells s) /\
       cell_at (data_ s') index = Ok (live v) /\
       size s' = size s /\
       (index < size s -> at_ index s' = Ok v))
  /\ (forall (T : Type) (s : sparse_vector T) (v w : T) (i : nat),
     reachable s -> at_ i s = Ok w ->
     exists s1 s2,
       erase_at i s = Ok s1 /\
       last (get_free_cells s1) = Some i /\
       push_free (External v) s1 = Ok (i, s2) /\
       at_ i s2 = Ok v /\
       get_free_cells s2 = get_free_cells s)
  /\ (exists s1 s2 s3 s4 : sparse_vector Z,
       push_free (External 10%Z) sparse_vector_default = Ok (0, s1) /\
       push_free (External 20%Z) s1 = Ok (1, s2) /\
       erase_at 0 s2 = Ok s3 /\
       push_free (External 30%Z) s3 = Ok (0, s4) /\
       iterate (S (size s4)) s4 = Some (Ok [30%Z; 20%Z])).
Proof.
  split; [|split].
  - intros T s v index Hreach Hl.
    unfold get_free_cells, capacity, size in *.
    apply reachable_wf in Hreach as Hwf.
    pose proof (proj1 (free_in_buffer_spec s)
      (reachable_free_in_buffer s Hreach) index
      (last_Some_elem_of _ _ Hl)) as Hcap.
    destruct (wf_data s Hwf) as [buf Hd].
    pose proof (proj1 (wf_Some _ _ Hd) Hwf) as (Hlen & Hsz & _).
    destruct (lookup_lt_is_Some_2 buf index) as [c Hc]; [lia|].
    pose proof (push_free_reuse v s index buf c Hl Hd Hc) as Hpush.
    eexists. split; [exact Hpush|].
    split; [exact Hpush|]. simpl.
    assert (Hins : <[index := live v]> buf !! index = Some (live v))
      by (apply list_lookup_insert_eq; lia).
    split; [reflexivity|]. split; [rewrite Hins; reflexivity|].
    split; [reflexivity|].
    intros Hi. apply (at_intro _ _ _ _ _ (live v)); auto.
  - intros T s v w i _ Hat. unfold get_free_cells.
    apply at_Ok in Hat as (Hi & buf & c & Hd & Hc & He & Hv).
    assert (Hib : i < length buf) by (apply lookup_lt_is_Some; eauto).
    eexists _, _.
    split; [apply (erase_at_live i s buf c w); (assumption || lia)|].
    simpl. split; [apply last_snoc|].
    split.
    { apply (push_free_reuse v _ i (<[i := vacant]> buf) vacant).
      - simpl. apply last_snoc.
      - reflexivity.
      - apply list_lookup_insert_eq. assumption. }
    simpl. split.
    + apply (at_intro _ _ _ _ _ (live v)); try reflexivity; try assumption.
      apply list_lookup_insert_eq. rewrite length_insert. assumption.
    + apply removelast_last.
  - eexists _, _, _, _. repeat split.
Qed.

Lemma push_free_reuses_last_freed_index_witness :
  let s : sparse_vector Z :=
    {| data_ := Some [vacant; live 20%Z; vacant; raw]; size_ := 3;
       capacity_ := 4; freeIndeces_ := [0; 2] |} in
  reachable s /\
  (exists s' : sparse_vector Z,
    push_free (External 7%Z) s = Ok (2, s') /\
    emplace_free (External 7%Z) s = Ok (2, s') /\
    get_free_cells s' = [0] /\
    cell_at (data_ s') 2 = Ok (live 7%Z) /\
    size s' = 3 /\
    (2 < 3 -> at_ 2 s' = Ok 7%Z))
  /\ (exists s1 s2 : sparse_vector Z,
    erase_at 1 s = Ok s1 /\
    last (get_free_cells s1) = Some 1 /\
    push_free (External 7%Z) s1 = Ok (1, s2) /\
    at_ 1 s2 = Ok 7%Z /\
    get_free_cells s2 = [0; 2]).
Proof.
  cbv zeta.
  assert (Hreach : reachable (T:=Z)
    {| data_ := Some [vacant; live 20%Z; vacant; raw]; size_ := 3;
       capacity_ := 4; freeIndeces_ := [0; 2] |}).
  { apply (reach_run (EraseAt 2)
      {| data_ := Some [vacant; live 20%Z; live 30%Z; raw]; size_ := 3;
         capacity_ := 4; freeIndeces_ := [0] |}); [|reflexivity].
    apply (reach_run (EraseAt 0)
      {| data_ := Some [live 10%Z; live 20%Z; live 30%Z; raw]; size_ := 3;
         capacity_ := 4; freeIndeces_ := [] |}); [|reflexivity].
    apply (reach_run (PushFree (External 30%Z))
      {| data_ := Some [live 10%Z; live 20%Z]; size_ := 2;
         capacity_ := 2; freeIndeces_ := [] |}); [|reflexivity].
    apply (reach_run (PushFree (External 20%Z))
      {| data_ := Some [live 10%Z; raw]; size_ := 1; capacity_ := 2;
         freeIndeces_ := [] |}); [|reflexivity].
    apply (reach_run (PushFree (External 10%Z)) sparse_vector_default);
      [|reflexivity].
    apply reach_default. }
  split; [exact Hreach|]. split.
  - exact (proj1 push_free_reuses_last_freed_index Z _ 7%Z 2 Hreach eq_refl).
  - exact (proj1 (proj2 push_free_reuses_last_freed_index) Z _ 7%Z 20%Z 1
             Hreach eq_refl).
Defined.

(** ** Growth *)

(** C6.  When the free index store is empty and the size equals the
    capacity, the insertion relocates the buffer into one of exactly twice
    the capacity, and below the old size [at] and [exist_at] answer after
    the relocation what they answered before: a live index keeps its value,
    a free index stays free.  With a capacity that is not zero the insertion
    of an object that lies outside the buffer then returns the old size as
    index, with the value there and the content below it kept.  (An argument
    that refers to an element of the container is read after the relocation
    has released the buffer it lies in: that insertion is undefined.)  Three
    insertions into a fresh container grow it once, from capacity 2 to 4 at
    the third, and the three values are at 0, 1, 2. *)
Theorem growth_preserves_content :
  (forall (T : Type) (s : sparse_vector T) (v : T),
     wf s -> get_free_cells s = [] -> size s = capacity s ->
     (exists g,
        reallocate (capacity s * 2) s = Ok g /\
        capacity g = 2 * capacity s /\
        size g = size s /\
        forall i, i < size s ->
          at_ i g = at_ i s /\ exist_at i g = exist_at i s) /\
     (0 < capacity s ->
      exists s',
        push_free (External v) s = Ok (size s, s') /\
        emplace_free (External v) s = Ok (size s, s') /\
        capacity s' = 2 * capacity s /\
        size s' = S (size s) /\
        at_ (size s) s' = Ok v /\
        forall i, i < size s ->
          at_ i s' = at_ i s /\ exist_at i s' = exist_at i s) /\
     (forall j,
        push_free (Internal j) s = Undefined /\
        emplace_free (Internal j) s = Undefined))
  /\ (exists s1 s2 s3 : sparse_vector Z,
        capacity (T:=Z) sparse_vector_default = 2 /\
        push_free (External 10%Z) sparse_vector_default = Ok (0, s1) /\
        capacity s1 = 2 /\
        push_free (External 20%Z) s1 = Ok (1, s2) /\ capacity s2 = 2 /\
        push_free (External 30%Z) s2 = Ok (2, s3) /\ capacity s3 = 4 /\
        at_ 0 s3 = Ok 10%Z /\ at_ 1 s3 = Ok 20%Z /\ at_ 2 s3 = Ok 30%Z).
Proof.
  split.
  - intros T s v Hwf Hfree Hfull.
    unfold get_free_cells, size, capacity in *.
    destruct (reallocate_wf s (capacity_ s * 2) Hwf) as
      (g & buf & buf1 & Hr & Hwfg & Hsg & Hcg & Hfg & Hd & Hdg & Hlo & Hhi);
      [lia|].
    assert (Hobs : forall x n cap l i, i < size_ s ->
      size_ s <= x -> size_ s <= n ->
      at_ i {| data_ := Some (<[x := live v]> buf1); size_ := n;
               capacity_ := cap; freeIndeces_ := l |} = at_ i s /\
      exist_at i {| data_ := Some (<[x := live v]> buf1); size_ := n;
                    capacity_ := cap; freeIndeces_ := l |} = exist_at i s).
    { intros x n cap l i Hi Hx Hn.
      pose proof (proj1 (wf_Some _ _ Hd) Hwf) as (Hlen & Hsz & _).
      destruct (lookup_lt_is_Some_2 buf i) as [c Hc]; [lia|].
      apply (same_observation s _ buf (<[x := live v]> buf1) i c (relocate c));
        try assumption; try reflexivity; simpl; try lia.
      - rewrite list_lookup_insert_ne by lia. apply Hlo; assumption.
      - apply live_value_relocate. }
    split; [|split].
    + exists g. split; [assumption|]. split; [lia|]. split; [assumption|].
      intros i Hi.
      pose proof (proj1 (wf_Some _ _ Hd) Hwf) as (Hlen & Hsz & _).
      destruct (lookup_lt_is_Some_2 buf i) as [c Hc]; [lia|].
      apply (same_observation s g buf buf1 i c (relocate c));
        try assumption; try reflexivity; try lia.
      * apply Hlo; assumption.
      * apply live_value_relocate.
    + intros Hpos.
      assert (Hraw : buf1 !! size_ g = Some raw) by (apply Hhi; lia).
      pose proof (push_free_grow v s g buf1 raw) as Hpush.
      rewrite Hfree in Hpush.
      specialize (Hpush eq_refl Hfull Hr Hdg Hraw).
      rewrite Hsg, Hcg in Hpush.
      eexists. split; [exact Hpush|]. split; [exact Hpush|].
      simpl. split; [lia|]. split; [reflexivity|]. split.
      * apply (at_intro _ _ _ _ _ (live v)); try reflexivity; [lia|].
        apply list_lookup_insert_eq.
        apply lookup_lt_is_Some. rewrite <- Hsg. eauto.
      * intros i Hi. apply Hobs; lia.
    + intros j.
      pose proof (push_free_grow_internal j s g) as Hpush.
      rewrite Hfree in Hpush. specialize (Hpush eq_refl Hfull Hr).
      split; exact Hpush.
  - eexists _, _, _. repeat split.
Qed.

Lemma growth_preserves_content_witness :
  let s : sparse_vector Z :=
    {| data_ := Some [live 10%Z; live 20%Z]; size_ := 2; capacity_ := 2;
       freeIndeces_ := [] |} in
  (exists g : sparse_vector Z,
     reallocate (2 * 2) s = Ok g /\
     capacity g = 2 * 2 /\ size g = 2 /\
     forall i, i < 2 ->
       at_ i g = at_ i s /\ exist_at i g = exist_at i s) /\
  (0 < 2 ->
   exists s' : sparse_vector Z,
     push_free (External 30%Z) s = Ok (2, s') /\
     emplace_free (External 30%Z) s = Ok (2, s') /\
     capacity s' = 2 * 2 /\ size s' = 3 /\ at_ 2 s' = Ok 30%Z /\
     forall i, i < 2 ->
       at_ i s' = at_ i s /\ exist_at i s' = exist_at i s) /\
  (forall j,
     push_free (Internal j) s = Undefined /\
     emplace_free (Internal j) s = Undefined).
Proof.
  cbv zeta.
  apply (proj1 growth_preserves_content Z
    {| data_ := Some [live 10%Z; live 20%Z]; size_ := 2;
       capacity_ := 2; freeIndeces_ := [] |} 30%Z).
  - reflexivity.
  - reflexivity.
  - reflexivity.
Defined.

(** ** pop_back *)

Lemma pop_back_Throw {T : Type} (s : sparse_vector T) e :
  pop_back s = Throw e -> size_ s = 0.
Proof.
  unfold pop_back. destruct (size_ s =? 0) eqn:Hz.
  - intros _. apply Nat.eqb_eq. assumption.
  - simpl. destruct (destroy (data_ s) (size_ s - 1)) as [p| |] eqn:Hd; simpl.
    + destruct (write_exist false p (size_ s - 1)) as [p'| |] eqn:Hw; simpl;
        try discriminate.
      intros _. exfalso. exact (update_cell_not_Throw _ _ _ _ Hw).
    + intros _. exfalso. exact (destroy_not_Throw _ _ _ Hd).
    + discriminate.
Qed.

(** C8, as stated, fails: a container of size 1 with a live value at index
    0 may hold a free index that an earlier [resize] to a smaller size has
    left in the store, and the insertion after [pop_back] then takes that
    index.  After [push_free(10)], [resize(2)] and [resize(1)] on an empty
    container the size is 1, [at(0)] is 10 and the store holds 1;
    [pop_back] leaves size 0 and the store as it is, and [push_free(5)]
    returns 1, not 0. *)
Lemma pop_back_then_push_free_counterexample :
  let s : sparse_vector Z :=
    {| data_ := Some [live 10%Z; vacant]; size_ := 1; capacity_ := 2;
       freeIndeces_ := [1] |} in
  let s1 : sparse_vector Z :=
    {| data_ := Some [vacant; vacant]; size_ := 0; capacity_ := 2;
       freeIndeces_ := [1] |} in
  ('(_, s) ← push_free (External 10%Z) sparse_vector_default;
   s ← resize 2 s; resize 1 s) = Ok s /\
  size s = 1 /\ at_ 0 s = Ok 10%Z /\ exist_at 0 s = Ok true /\
  pop_back s = Ok s1 /\
  size s1 = 0 /\
  fst <$> push_free (External 5%Z) s1 = Ok 1 /\
  forall s2, push_free (External 5%Z) s1 <> Ok (0, s2).
Proof.
  cbv zeta. repeat split. intros s2. discriminate.
Qed.

(** The part of C8 left out of the amended claim: [pop_back] calls the
    destructor of its last cell without a test of the flag.  On a last cell
    that [erase_at] has destroyed already this is a second destructor call
    on the same slot.  After [push_free(10)], [push_free(20)] and
    [erase_at(1)] on an empty container, [pop_back] is undefined, where
    [clear] returns. *)
Lemma pop_back_destroys_without_test :
  let s : sparse_vector Z :=
    {| data_ := Some [live 10%Z; vacant]; size_ := 2; capacity_ := 2;
       freeIndeces_ := [1] |} in
  ('(_, s) ← push_free (External 10%Z) sparse_vector_default;
   '(_, s) ← push_free (External 20%Z) s; erase_at 1 s) = Ok s /\
  exist_at 1 s = Ok false /\
  pop_back s = Undefined /\
  clear s = Ok {| data_ := Some [vacant; vacant]; size_ := 0;
                  capacity_ := 2; freeIndeces_ := [] |}.
Proof.
  cbv zeta. repeat split.
Qed.

(** C8, amended.  [pop_back] throws its "empty" exception exactly when the
    size is zero.  On a well-formed container whose last cell is live it
    returns with the size one less; the cell at the old [size - 1] holds no
    value and has a clear flag; the free indices, the capacity and the
    cells below are what they were, so that index is not pushed.  On a
    container of size 1 whose cell 0 is live and whose free index store is
    empty it leaves size 0 and no free index, and the next [push_free(x)]
    takes the fresh cell at the size: it returns 0, the size is 1 again and
    [at(0)] is [x].  So it is after [push_free(10)] on an empty
    container. *)
Theorem pop_back_drops_last_cell :
  (forall (T : Type) (s : sparse_vector T),
     pop_back s = Throw (out_of_range pop_back_empty_msg) <-> size s = 0)
  /\ (forall (T : Type) (s : sparse_vector T),
     wf s -> exist_at (size s - 1) s = Ok true ->
     exists s',
       pop_back s = Ok s' /\
       size s' = size s - 1 /\
       cell_at (data_ s') (size s - 1) = Ok vacant /\
       get_free_cells s' = get_free_cells s /\
       capacity s' = capacity s /\
       forall i, i < size s - 1 ->
         at_ i s' = at_ i s /\ exist_at i s' = exist_at i s)
  /\ (forall (T : Type) (s : sparse_vector T) (x : T),
     wf s -> get_free_cells s = [] -> size s = 1 -> exist_at 0 s = Ok true ->
     exists s1 s2,
       pop_back s = Ok s1 /\
       size s1 = 0 /\ get_free_cells s1 = [] /\
       push_free (External x) s1 = Ok (0, s2) /\
       size s2 = 1 /\ get_free_cells s2 = [] /\ at_ 0 s2 = Ok x)
  /\ (exists s0 s1 s2 : sparse_vector Z,
       push_free (External 10%Z) sparse_vector_default = Ok (0, s0) /\
       size s0 = 1 /\ at_ 0 s0 = Ok 10%Z /\
       pop_back s0 = Ok s1 /\
       size s1 = 0 /\ get_free_cells s1 = [] /\
       exist_at 0 s1 = Ok false /\
       push_free (External 5%Z) s1 = Ok (0, s2) /\
       size s2 = 1 /\ at_ 0 s2 = Ok 5%Z).
Proof.
  assert (Hlive : forall (T : Type) (s : sparse_vector T),
    wf s -> exist_at (size_ s - 1) s = Ok true ->
    exists buf c v,
      size_ s <> 0 /\ data_ s = Some buf /\ length buf = capacity_ s /\
      size_ s <= capacity_ s /\
      buf !! (size_ s - 1) = Some c /\ value c = Some v).
  { intros T s Hwf Hex.
    apply exist_at_Ok in Hex as [[_ ?] | (Hlt & buf & c & Hd & Hc & He)];
      [discriminate|].
    pose proof (proj1 (wf_Some _ _ Hd) Hwf) as (Hlen & Hsz & Hcells).
    pose proof (Hcells _ _ Hlt Hc) as Hok.
    apply cell_okb_true in Hok as [Hf | [_ [v Hv]]]; [congruence|].
    exists buf, c, v. repeat split; try assumption. lia. }
  split; [|split; [|split]]; [| | |eexists _, _, _; repeat split].
  - intros T s. unfold size. split.
    + apply pop_back_Throw.
    + intros H. unfold pop_back. rewrite H. reflexivity.
  - intros T s Hwf Hex. unfold size, capacity, get_free_cells in *.
    destruct (Hlive T s Hwf Hex)
      as (buf & c & v & Hz & Hd & Hlen & Hsz & Hc & Hv).
    eexists. split; [apply (pop_back_nonempty s buf c v); assumption|].
    simpl. split; [reflexivity|]. split.
    { rewrite list_lookup_insert_eq by lia. reflexivity. }
    split; [reflexivity|]. split; [reflexivity|].
    intros i Hi. destruct (lookup_lt_is_Some_2 buf i) as [ci Hci]; [lia|].
    apply (same_observation s _ buf (<[size_ s - 1 := vacant]> buf) i ci ci);
      try assumption; try reflexivity; simpl; try lia.
    rewrite list_lookup_insert_ne by lia. assumption.
  - intros T s x Hwf Hfree Hs Hex. unfold size, get_free_cells in *.
    assert (Hex' : exist_at (size_ s - 1) s = Ok true)
      by (rewrite Hs; exact Hex).
    destruct (Hlive T s Hwf Hex')
      as (buf & c & v & Hz & Hd & Hlen & Hsz & Hc & Hv).
    pose proof (pop_back_nonempty s buf c v Hz Hd Hc Hv) as Hpop.
    rewrite Hs in Hpop. simpl in Hpop.
    pose proof (push_free_fresh x
      {| data_ := Some (<[0 := vacant]> buf); size_ := 0;
         capacity_ := capacity_ s; freeIndeces_ := freeIndeces_ s |}
      (<[0 := vacant]> buf) vacant) as Hpush.
    simpl in Hpush. rewrite Hfree in Hpush, Hpop.
    specialize (Hpush eq_refl ltac:(lia) eq_refl).
    rewrite list_lookup_insert_eq in Hpush by lia.
    specialize (Hpush eq_refl).
    eexists _, _. split; [exact Hpop|]. simpl.
    split; [reflexivity|]. split; [reflexivity|].
    split; [exact Hpush|].
    simpl. split; [reflexivity|]. split; [reflexivity|].
    apply (at_intro _ _ _ _ _ (live x)); try reflexivity; [lia|].
    apply list_lookup_insert_eq. rewrite length_insert. lia.
Qed.

Lemma pop_back_drops_last_cell_witness :
  let s : sparse_vector Z :=
    {| data_ := Some [live 10%Z; live 20%Z]; size_ := 2; capacity_ := 2;
       freeIndeces_ := [] |} in
  let t : sparse_vector Z :=
    {| data_ := Some [live 10%Z; raw]; size_ := 1; capacity_ := 2;
       freeIndeces_ := [] |} in
  (exists s' : sparse_vector Z,
     pop_back s = Ok s' /\
     size s' = 2 - 1 /\
     cell_at (data_ s') (2 - 1) = Ok vacant /\
     get_free_cells s' = [] /\
     capacity s' = 2 /\
     forall i, i < 2 - 1 ->
       at_ i s' = at_ i s /\ exist_at i s' = exist_at i s)
  /\ (exists s1 s2 : sparse_vector Z,
     pop_back t = Ok s1 /\
     size s1 = 0 /\ get_free_cells s1 = [] /\
     push_free (External 5%Z) s1 = Ok (0, s2) /\
     size s2 = 1 /\ get_free_cells s2 = [] /\ at_ 0 s2 = Ok 5%Z).
Proof.
  cbv zeta. split.
  - apply (proj1 (proj2 pop_back_drops_last_cell) Z
      {| data_ := Some [live 10%Z; live 20%Z]; size_ := 2;
         capacity_ := 2; freeIndeces_ := [] |}).
    + reflexivity.
    + reflexivity.
  - apply (proj1 (proj2 (proj2 pop_back_drops_last_cell)) Z
      {| data_ := Some [live 10%Z; raw]; size_ := 1;
         capacity_ := 2; freeIndeces_ := [] |} 5%Z).
    + reflexivity.
    + reflexivity.
    + reflexivity.
    + reflexivity.
Defined.

(** ** resize and feel_free_cells *)

(** C9.  [resize] to a size that is not smaller returns with that size;
    every index of [oldSize, newSize) is free and is appended, in order, to
    the free indices; below the old size nothing observable changes.
    [feel_free_cells(funct)] returns with every index below the size live
    and no free index left: a live cell keeps its value, and the free cell
    that is number [k] from the start holds what call number [k] of [funct]
    returned.  On an empty container [resize(5)] makes 0 to 4 free, [at(2)]
    then throws the exception of a vacant cell, [feel_free_cells] with a
    producer of 7 makes every [at(i)] return 7, and iteration yields five
    times 7. *)
Theorem resize_then_feel_free_cells :
  (forall (T : Type) (s : sparse_vector T) (newSize : nat),
     wf s -> size s <= newSize ->
     exists s',
       resize newSize s = Ok s' /\
       size s' = newSize /\
       get_free_cells s' =
         get_free_cells s ++ seq (size s) (newSize - size s) /\
       (forall i, size s <= i < newSize ->
          exist_at i s' = Ok false /\ i ∈ get_free_cells s') /\
       (forall i, i < size s ->
          at_ i s' = at_ i s /\ exist_at i s' = exist_at i s))
  /\ (forall (T : Type) (s : sparse_vector T) (funct : nat -> T),
     wf s ->
     exists s',
       feel_free_cells funct s = Ok s' /\
       size s' = size s /\
       get_free_cells s' = [] /\
       (forall i, i < size s -> exist_at i s' = Ok true) /\
       (forall i, i < size s -> exist_at i s = Ok true ->
          at_ i s' = at_ i s) /\
       (forall i, i < size s -> exist_at i s = Ok false ->
          at_ i s' =
            Ok (funct (count_free (take i (default [] (data_ s)))))))
  /\ (exists s1 s2 : sparse_vector Z,
       resize 5 sparse_vector_default = Ok s1 /\
       size s1 = 5 /\
       get_free_cells s1 = [0; 1; 2; 3; 4] /\
       exist_at 0 s1 = Ok false /\ exist_at 1 s1 = Ok false /\
       exist_at 2 s1 = Ok false /\ exist_at 3 s1 = Ok false /\
       exist_at 4 s1 = Ok false /\
       at_ 2 s1 = Throw (out_of_range at_vacant_msg) /\
       feel_free_cells (fun _ => 7%Z) s1 = Ok s2 /\
       at_ 0 s2 = Ok 7%Z /\ at_ 1 s2 = Ok 7%Z /\ at_ 2 s2 = Ok 7%Z /\
       at_ 3 s2 = Ok 7%Z /\ at_ 4 s2 = Ok 7%Z /\
       get_free_cells s2 = [] /\
       iterate (S (size s2)) s2 = Some (Ok [7%Z; 7%Z; 7%Z; 7%Z; 7%Z])).
Proof.
  split; [|split].
  - intros T s newSize Hwf Hn. unfold size, get_free_cells in *.
    destruct (resize_grow s newSize Hwf Hn)
      as (buf & buf' & Hd & Hr & Hl & Hlo & Hhi).
    eexists. split; [exact Hr|]. simpl.
    split; [reflexivity|]. split; [reflexivity|]. split.
    + intros i Hi. destruct (Hhi i Hi) as (c1 & Hc1 & He1). split.
      * apply exist_at_Ok. right. simpl. split; [lia|]. eauto.
      * apply elem_of_app. right. apply elem_of_seq. lia.
    + intros i Hi.
      pose proof (proj1 (wf_Some _ _ Hd) Hwf) as (Hlen & Hsz & _).
      destruct (lookup_lt_is_Some_2 buf i) as [c Hc]; [lia|].
      destruct (Hlo i c Hi Hc) as (c1 & Hc1 & He1 & Hv1).
      apply (same_observation s _ buf buf' i c c1);
        try assumption; try reflexivity; simpl; lia.
  - intros T s funct Hwf. unfold size, get_free_cells in *.
    destruct (feel_free_cells_spec funct s Hwf)
      as (buf & buf' & Hd & Hr & Hl & Hlo & Hhi).
    pose proof (proj1 (wf_Some _ _ Hd) Hwf) as (Hlen & Hsz & Hcells).
    eexists. split; [exact Hr|]. simpl.
    split; [reflexivity|]. split; [reflexivity|].
    assert (Hcell : forall i, i < size_ s -> exists c,
              buf !! i = Some c /\ cell_okb c = true /\
              buf' !! i = Some (fill funct buf i c)).
    { intros i Hi. destruct (lookup_lt_is_Some_2 buf i) as [c Hc]; [lia|].
      exists c. eauto. }
    split; [|split].
    + intros i Hi. destruct (Hcell i Hi) as (c & Hc & Hok & Hc').
      apply exist_at_Ok. right. simpl. split; [assumption|].
      exists buf', (fill funct buf i c).
      split; [reflexivity|]. split; [assumption|].
      apply cell_okb_true in Hok. unfold fill, is_free.
      destruct Hok as [He | [He _]]; rewrite He; [reflexivity | assumption].
    + intros i Hi Hex. destruct (Hcell i Hi) as (c & Hc & Hok & Hc').
      apply exist_at_Ok in Hex
        as [[? _] | (_ & buf0 & c0 & Hd0 & Hc0 & He0)]; [lia|].
      rewrite Hd in Hd0. injection Hd0 as <-.
      rewrite Hc in Hc0. injection Hc0 as <-.
      unfold fill, is_free in Hc'. rewrite He0 in Hc'.
      apply (same_observation s _ buf buf' i c c);
        try assumption; reflexivity.
    + intros i Hi Hex. destruct (Hcell i Hi) as (c & Hc & Hok & Hc').
      apply exist_at_Ok in Hex
        as [[? _] | (_ & buf0 & c0 & Hd0 & Hc0 & He0)]; [lia|].
      rewrite Hd in Hd0. injection Hd0 as <-.
      rewrite Hc in Hc0. injection Hc0 as <-.
      unfold fill, is_free in Hc'. rewrite He0 in Hc'.
      rewrite Hd. simpl.
      apply (at_intro _ _ _ _ _ (live (funct (count_free (take i buf)))));
        try reflexivity; assumption.
  - eexists _, _. repeat split.
Qed.

Lemma resize_then_feel_free_cells_witness :
  (exists s' : sparse_vector Z,
     resize 3 {| data_ := Some [live 10%Z; raw]; size_ := 1;
                 capacity_ := 2; freeIndeces_ := [] |} = Ok s' /\
     size s' = 3 /\
     get_free_cells s' = [] ++ seq 1 (3 - 1) /\
     (forall i, 1 <= i < 3 ->
        exist_at i s' = Ok false /\ i ∈ get_free_cells s') /\
     (forall i, i < 1 ->
        at_ i s' = at_ i {| data_ := Some [live 10%Z; raw]; size_ := 1;
                            capacity_ := 2; freeIndeces_ := [] |} /\
        exist_at i s' =
          exist_at i {| data_ := Some [live 10%Z; raw]; size_ := 1;
                        capacity_ := 2; freeIndeces_ := [] |}))
  /\ (exists s' : sparse_vector Z,
     feel_free_cells (fun k => Z.of_nat k)
       {| data_ := Some [vacant; live 10%Z; vacant]; size_ := 3;
          capacity_ := 3; freeIndeces_ := [0; 2] |} = Ok s' /\
     get_free_cells s' = [] /\
     at_ 0 s' = Ok 0%Z /\ at_ 1 s' = Ok 10%Z /\ at_ 2 s' = Ok 1%Z).
Proof.
  split.
  - apply (proj1 resize_then_feel_free_cells Z
      {| data_ := Some [live 10%Z; raw]; size_ := 1;
         capacity_ := 2; freeIndeces_ := [] |} 3).
    + reflexivity.
    + unfold size. simpl. lia.
  - destruct (proj1 (proj2 resize_then_feel_free_cells) Z
      {| data_ := Some [vacant; live 10%Z; vacant]; size_ := 3;
         capacity_ := 3; freeIndeces_ := [0; 2] |}
      (fun k => Z.of_nat k) eq_refl)
      as (s' & Hr & _ & Hf & _ & Hlive & Hfree).
    exists s'. split; [exact Hr|]. split; [exact Hf|].
    split; [exact (Hfree 0 ltac:(unfold size; simpl; lia) eq_refl)|].
    split; [|exact (Hfree 2 ltac:(unfold size; simpl; lia) eq_refl)].
    rewrite (Hlive 1 ltac:(unfold size; simpl; lia) eq_refl). reflexivity.
Defined.

(** ** Iteration over a container *)

(** C7.  In every state a program can reach, the loop from [begin()] to
    [end()] returns, given one round more than the size, and yields the
    values of the live cells of [0, size) in ascending index order, that
    is the values [at(i)] returns for [i = 0, ..., size - 1], free cells
    left out.  [begin()] stands on the first live cell or on the end,
    [end()] stands on the end, and an increment moves to the next live cell
    or to the end, over the free cells in between. *)
Theorem iteration_yields_live_values_in_order :
  forall (T : Type) (s : sparse_vector T),
    reachable s ->
    (forall fuel, size s < fuel ->
       iterate fuel s = Some (Ok (values_by_index s))) /\
    (exists p,
       begin_ s = Ok {| ptr_ := p; endPtr_ := size s |} /\
       first_live_from s 0 p) /\
    end_ s = Ok {| ptr_ := size s; endPtr_ := size s |} /\
    (forall it : iterator,
       ptr_ it < size s -> endPtr_ it = size s ->
       exists p,
         iterator_incr (data_ s) it = Ok {| ptr_ := p; endPtr_ := size s |} /\
         first_live_from s (S (ptr_ it)) p).
Proof.
  intros T s Hreach. apply reachable_wf in Hreach as Hwf. unfold size.
  split; [|split; [|split]].
  - intros fuel Hfuel. rewrite <- live_values_by_index by assumption.
    apply iterate_spec; assumption.
  - apply begin_spec. assumption.
  - apply end_spec.
  - intros it Hp He. apply iterator_incr_spec; assumption.
Qed.

Lemma iteration_yields_live_values_in_order_witness :
  let s : sparse_vector Z :=
    {| data_ := Some [vacant; live 20%Z]; size_ := 2; capacity_ := 2;
       freeIndeces_ := [0] |} in
  reachable s /\
  (forall fuel, 2 < fuel -> iterate fuel s = Some (Ok [20%Z])) /\
  (exists p,
     begin_ s = Ok {| ptr_ := p; endPtr_ := 2 |} /\ first_live_from s 0 p) /\
  end_ s = Ok {| ptr_ := 2; endPtr_ := 2 |} /\
  (forall it : iterator,
     ptr_ it < 2 -> endPtr_ it = 2 ->
     exists p,
       iterator_incr (data_ s) it = Ok {| ptr_ := p; endPtr_ := 2 |} /\
       first_live_from s (S (ptr_ it)) p).
Proof.
  cbv zeta.
  assert (Hreach : reachable (T:=Z)
    {| data_ := Some [vacant; live 20%Z]; size_ := 2; capacity_ := 2;
       freeIndeces_ := [0] |}).
  { apply (reach_run (EraseAt 0)
      {| data_ := Some [live 10%Z; live 20%Z]; size_ := 2; capacity_ := 2;
         freeIndeces_ := [] |}); [|reflexivity].
    apply (reach_run (PushFree (External 20%Z))
      {| data_ := Some [live 10%Z; raw]; size_ := 1; capacity_ := 2;
         freeIndeces_ := [] |}); [|reflexivity].
    apply (reach_run (PushFree (External 10%Z)) sparse_vector_default);
      [|reflexivity].
    apply reach_default. }
  split; [exact Hreach|].
  exact (iteration_yields_live_values_in_order Z _ Hreach).
Defined.

(** ** Stable indices *)

(** C2, as stated, fails: [resize] to a size at or below a live index is
    a call other than [erase_at(i)], a [pop_back] that removes [i],
    [clear] and a move, and after it [at(i)] throws.  After [push_free(10)]
    on an empty container [at(0)] is 10; [resize(0)] returns with size 0,
    and [at(0)] throws the range exception.  An index that such a [resize]
    has left in the store is handed out again: after [resize(1)],
    [resize(0)], [resize(1)] and [push_free(10)] on an empty container
    [at(0)] is 10 and the store still holds 0, so [push_free(20)] returns 0
    and [at(0)] is 20. *)
Lemma index_stability_counterexample :
  let s : sparse_vector Z :=
    {| data_ := Some [live 10%Z; raw]; size_ := 1; capacity_ := 2;
       freeIndeces_ := [] |} in
  let s' : sparse_vector Z :=
    {| data_ := Some [live 10%Z; raw]; size_ := 0; capacity_ := 2;
       freeIndeces_ := [] |} in
  let t : sparse_vector Z :=
    {| data_ := Some [live 10%Z; raw]; size_ := 1; capacity_ := 2;
       freeIndeces_ := [0] |} in
  let t' : sparse_vector Z :=
    {| data_ := Some [live 20%Z; raw]; size_ := 1; capacity_ := 2;
       freeIndeces_ := [] |} in
  (push_free (External 10%Z) sparse_vector_default = Ok (0, s) /\
   at_ 0 s = Ok 10%Z /\
   ~ may_change_index 0 (Resize 0) s /\
   run (Resize 0) s = Ok s' /\
   at_ 0 s' = Throw (out_of_range at_range_msg) /\
   at_ 0 s' <> at_ 0 s)
  /\ ((s ← resize 1 sparse_vector_default; s ← resize 0 s; s ← resize 1 s;
       snd <$> push_free (External 10%Z) s) = Ok t /\
      at_ 0 t = Ok 10%Z /\
      last (get_free_cells t) = Some 0 /\
      ~ may_change_index 0 (PushFree (External 20%Z)) t /\
      run (PushFree (External 20%Z)) t = Ok t' /\
      at_ 0 t' = Ok 20%Z /\
      at_ 0 t' <> at_ 0 t).
Proof.
  cbv zeta. repeat split; try discriminate; intros [].
Qed.

(** C2, amended.  Take a well-formed container and an index [i] where
    [at(i)] returns [v].  A mutating member call that returns, other than
    [erase_at(i)], a [pop_back] that removes [i], [clear], a [resize] to a
    size at or below [i], [emplace_at(i, ...)] and an insertion that finds
    [i] at the back of the free index store, leaves [at(i)] returning [v].
    (A call that throws leaves the state as it is, and the other members
    do not write.) *)
Theorem index_stability :
  forall (T : Type) (s s' : sparse_vector T) (i : nat) (v : T) (o : op),
    wf s ->
    at_ i s = Ok v ->
    keeps_index i o s ->
    run o s = Ok s' ->
    at_ i s' = Ok v.
Proof.
  intros T s s' i v o Hwf Hat Hk Hrun.
  exact (run_keeps_index i v o s s' Hwf Hat Hk Hrun).
Qed.

Lemma index_stability_witness :
  at_ 1 {| data_ := Some [live 7%Z; live 20%Z; vacant; raw];
           size_ := 3; capacity_ := 4; freeIndeces_ := [2] |} = Ok 20%Z.
Proof.
  apply (index_stability Z
    {| data_ := Some [vacant; live 20%Z; vacant; raw]; size_ := 3;
       capacity_ := 4; freeIndeces_ := [2; 0] |}
    {| data_ := Some [live 7%Z; live 20%Z; vacant; raw];
       size_ := 3; capacity_ := 4; freeIndeces_ := [2] |}
    1 20%Z (PushFree (External 7%Z))).
  - reflexivity.
  - reflexivity.
  - discriminate.
  - reflexivity.
Defined.

(** ** The free indices stay in order *)

(** [pop_back] on a trailing cell that is free drops the cell and keeps its
    index in the store: the next insertion takes that index, at or above
    the size.  (The cell here holds the value a [resize] to a smaller size
    has left undestroyed; on a free cell that holds none, the destructor
    call of [pop_back] is undefined.) *)
Lemma pop_back_keeps_index_of_free_cell :
  let s : sparse_vector Z :=
    {| data_ := Some [live 10%Z; clear_flag (live 20%Z)]; size_ := 2;
       capacity_ := 2; freeIndeces_ := [1] |} in
  let s' : sparse_vector Z :=
    {| data_ := Some [live 10%Z; vacant]; size_ := 1; capacity_ := 2;
       freeIndeces_ := [1] |} in
  ('(_, s) ← push_free (External 10%Z) sparse_vector_default;
   '(_, s) ← push_free (External 20%Z) s;
   s ← resize 1 s; resize 2 s) = Ok s /\
  wf s /\ free_list_ok s /\
  pop_back s = Ok s' /\
  ~ free_list_ok s' /\
  fst <$> push_free (External 30%Z) s' = Ok 1.
Proof.
  cbv zeta. repeat split. discriminate.
Qed.

(** C3, as stated, fails: [resize] to a smaller size leaves in the store
    the indices at or above the new size.  [resize(5)] on an empty
    container gives free indices 0, 1, 2, 3, 4, in order; [resize(2)] then
    returns with size 2 and the same free indices, of which 2, 3 and 4 are
    not below the size. *)
Lemma free_list_invariant_counterexample :
  let s : sparse_vector Z :=
    {| data_ := Some [vacant; vacant; vacant; vacant; vacant]; size_ := 5;
       capacity_ := 5; freeIndeces_ := [0; 1; 2; 3; 4] |} in
  let s' : sparse_vector Z :=
    {| data_ := Some [vacant; vacant; vacant; vacant; vacant]; size_ := 2;
       capacity_ := 5; freeIndeces_ := [0; 1; 2; 3; 4] |} in
  resize 5 sparse_vector_default = Ok s /\
  wf s /\ free_list_ok s /\
  run (Resize 2) s = Ok s' /\
  4 ∈ get_free_cells s' /\ ~ 4 < size s' /\
  ~ free_list_ok s'.
Proof.
  cbv zeta. repeat split; try discriminate.
  - repeat constructor.
  - unfold size. simpl. lia.
Qed.

(** C3, amended.  In a well-formed container the order of the free indices
    (distinct, below the size, on cells with a clear flag) is kept by every
    mutating member call that returns, except a [resize] to a smaller size;
    for [pop_back] when the index of the cell it drops is not in the store,
    and for [erase_at] when the index is not the size.  The constructors
    establish it: the default and the initializer-list constructor build a
    container with no free index, a copy has the free indices and the flags
    of its source, and a move leaves its source with no free index. *)
Theorem free_list_invariant_preserved :
  (forall (T : Type) (s s' : sparse_vector T) (o : op),
     wf s -> free_list_ok s ->
     keeps_free_list o s ->
     run o s = Ok s' ->
     free_list_ok s')
  /\ (forall T : Type, free_list_ok (T:=T) sparse_vector_default)
  /\ (forall (T : Type) (other : list T) (s : sparse_vector T),
        sparse_vector_init other = Ok s -> free_list_ok s)
  /\ (forall (T : Type) (s s' : sparse_vector T),
        wf s -> free_list_ok s ->
        sparse_vector_copy s = Ok s' -> free_list_ok s')
  /\ (forall (T : Type) (s : sparse_vector T),
        fst (sparse_vector_move s) = s /\
        free_list_ok (snd (sparse_vector_move s))).
Proof.
  split; [|split; [|split; [|split]]].
  - intros T s s' o. apply run_free_list.
  - intros T. reflexivity.
  - intros T other s. rewrite sparse_vector_init_spec. intros [= <-].
    reflexivity.
  - intros T s s' Hwf Hok H. rewrite sparse_vector_copy_reallocate in H.
    destruct (wf_data s Hwf) as [buf Hd].
    pose proof (proj1 (wf_Some _ _ Hd) Hwf) as (Hlen & Hsz & _).
    destruct (reallocate_wf s (capacity_ s) Hwf Hsz) as
      (s1 & buf0 & buf1 & Hr & _ & Hs & _ & Hf & Hd0 & Hd1 & Hlo & _).
    rewrite Hr in H. injection H as <-.
    rewrite Hd in Hd0. injection Hd0 as <-.
    apply free_list_ok_spec in Hok as [Hnd H].
    apply free_list_ok_spec. rewrite Hf, Hs, Hd1. split; [assumption|].
    intros i Hi. destruct (H i Hi) as [Hlt Hri]. split; [assumption|].
    rewrite Hd in Hri. apply read_exist_Ok in Hri as (c & Hci & He).
    apply read_exist_Ok. exists (relocate c). split; [eauto | assumption].
  - intros T s. split; reflexivity.
Qed.

Lemma free_list_invariant_preserved_witness :
  free_list_ok (T:=Z)
    {| data_ := Some [vacant; live 20%Z]; size_ := 2; capacity_ := 2;
       freeIndeces_ := [0] |}.
Proof.
  apply (proj1 free_list_invariant_preserved Z
    {| data_ := Some [live 10%Z; live 20%Z]; size_ := 2; capacity_ := 2;
       freeIndeces_ := [] |}
    {| data_ := Some [vacant; live 20%Z]; size_ := 2; capacity_ := 2;
       freeIndeces_ := [0] |}
    (EraseAt 0)).
  - reflexivity.
  - reflexivity.
  - simpl. lia.
  - reflexivity.
Defined.

(** * Further properties of the members *)

(** ** at, exist_at and operator[] *)

(** X1.  In a well-formed container [at(i)] has exactly three outcomes: the
    range exception when [i] is not below the size, the exception of a
    vacant cell when the cell is free, and the value when the cell is live;
    it never reads outside the buffer or an unwritten cell. *)
Theorem at_outcomes :
  forall (T : Type) (s : sparse_vector T) (i : nat),
    wf s ->
    (size s <= i /\ at_ i s = Throw (out_of_range at_range_msg)) \/
    (i < size s /\ exist_at i s = Ok false /\
     at_ i s = Throw (out_of_range at_vacant_msg)) \/
    (i < size s /\ exist_at i s = Ok true /\
     exists v, at_ i s = Ok v /\ subscript i s = Ok v).
Proof.
  intros T s i Hwf. unfold size.
  destruct (Nat.le_gt_cases (size_ s) i) as [Hle|Hlt].
  - left. split; [assumption|]. unfold at_.
    apply Nat.leb_le in Hle. rewrite Hle. reflexivity.
  - right.
    destruct (wf_read_exist s i Hwf Hlt)
      as (buf & c & b & Hd & Hc & He & Hr & Hv).
    assert (Hex : exist_at i s = Ok b).
    { apply exist_at_Ok. right. split; [assumption|]. eauto. }
    destruct b.
    + right. split; [assumption|]. split; [assumption|].
      destruct Hv as [v Hv]; [reflexivity|]. exists v. split.
      * apply at_Ok. split; [assumption|]. exists buf, c. auto.
      * unfold subscript. rewrite Hd. apply read_value_Ok. eauto.
    + left. split; [assumption|]. split; [assumption|].
      unfold at_. apply Nat.leb_gt in Hlt. rewrite Hlt, Hr. reflexivity.
Qed.

Lemma at_outcomes_witness :
  let s : sparse_vector Z :=
    {| data_ := Some [vacant; live 20%Z]; size_ := 2; capacity_ := 2;
       freeIndeces_ := [0] |} in
  (size s <= 0 /\ at_ 0 s = Throw (out_of_range at_range_msg)) \/
  (0 < size s /\ exist_at 0 s = Ok false /\
   at_ 0 s = Throw (out_of_range at_vacant_msg)) \/
  (0 < size s /\ exist_at 0 s = Ok true /\
   exists v, at_ 0 s = Ok v /\ subscript 0 s = Ok v).
Proof.
  cbv zeta.
  apply (at_outcomes Z
    {| data_ := Some [vacant; live 20%Z]; size_ := 2; capacity_ := 2;
       freeIndeces_ := [0] |} 0).
  reflexivity.
Defined.

(** X2.  In a well-formed container [exist_at(i)] always returns, for any
    index, and it returns [true] exactly when [at(i)] returns a value. *)
Theorem exist_at_decides_at :
  forall (T : Type) (s : sparse_vector T) (i : nat),
    wf s ->
    exists b, exist_at i s = Ok b /\
      (b = true <-> exists v, at_ i s = Ok v).
Proof.
  intros T s i Hwf.
  destruct (Nat.le_gt_cases (size_ s) i) as [Hle|Hlt].
  - exists false. split.
    + apply exist_at_Ok. left. auto.
    + split; [discriminate|]. intros [v Hv].
      apply at_Ok in Hv as [? _]. lia.
  - destruct (wf_read_exist s i Hwf Hlt)
      as (buf & c & b & Hd & Hc & He & Hr & Hv).
    exists b. split.
    + apply exist_at_Ok. right. split; [assumption|]. eauto.
    + split.
      * intros ->. destruct Hv as [v Hv]; [reflexivity|]. exists v.
        apply at_Ok. split; [assumption|]. exists buf, c. auto.
      * intros [v Hat].
        apply at_Ok in Hat as (_ & buf0 & c0 & Hd0 & Hc0 & He0 & _).
        congruence.
Qed.

Lemma exist_at_decides_at_witness :
  exists b,
    exist_at 1 {| data_ := Some [vacant; live 20%Z]; size_ := 2;
                  capacity_ := 2; freeIndeces_ := [0] |} = Ok b /\
    (b = true <->
     exists v : Z,
       at_ 1 {| data_ := Some [vacant; live 20%Z]; size_ := 2;
                capacity_ := 2; freeIndeces_ := [0] |} = Ok v).
Proof.
  apply (exist_at_decides_at Z
    {| data_ := Some [vacant; live 20%Z]; size_ := 2; capacity_ := 2;
       freeIndeces_ := [0] |} 1).
  reflexivity.
Defined.

(** ** Containers with the same content *)

Section SameContent.
Context {T : Type}.
Implicit Types (buf : list (value_info T)) (c : value_info T)
  (s : sparse_vector T) (v : T).

Lemma at_out_of_range s i :
  size_ s <= i -> at_ i s = Throw (out_of_range at_range_msg).
Proof.
  intros H. unfold at_. apply Nat.leb_le in H. rewrite H. reflexivity.
Qed.

Lemma exist_at_out_of_range s i : size_ s <= i -> exist_at i s = Ok false.
Proof.
  intros H. unfold exist_at. apply Nat.leb_le in H. rewrite H. reflexivity.
Qed.

(** Two containers of one size whose cells below the size agree on the flag
    and on the live value answer [at] and [exist_at] alike at every
    index. *)
Lemma same_cells_same_answers s s' buf buf' :
  data_ s = Some buf -> data_ s' = Some buf' ->
  size_ s' = size_ s -> size_ s <= length buf ->
  (forall i c, i < size_ s -> buf !! i = Some c ->
     exists c1, buf' !! i = Some c1 /\ exist c1 = exist c /\
                live_value c1 = live_value c) ->
  forall i, at_ i s' = at_ i s /\ exist_at i s' = exist_at i s.
Proof.
  intros Hd Hd' Hs Hlen Hcells i.
  destruct (Nat.le_gt_cases (size_ s) i) as [Hle|Hlt].
  - rewrite !at_out_of_range, !exist_at_out_of_range by lia. auto.
  - destruct (lookup_lt_is_Some_2 buf i) as [c Hc]; [lia|].
    destruct (Hcells i c Hlt Hc) as (c1 & Hc1 & He & Hv).
    apply (same_observation s s' buf buf' i c c1); try assumption. lia.
Qed.

Lemma same_answers_same_values s s' :
  size_ s' = size_ s -> (forall i, at_ i s' = at_ i s) ->
  values_by_index s' = values_by_index s.
Proof.
  intros Hs Hat. unfold values_by_index. rewrite Hs.
  apply omap_pointwise; [reflexivity|].
  intros i x y Hx Hy. rewrite Hx in Hy. injection Hy as <-.
  unfold value_at. rewrite Hat. reflexivity.
Qed.

End SameContent.

(** ** clear *)

(** X3.  On a well-formed container [clear] returns and leaves the size 0,
    no free index and the capacity it had; every cell below the old size
    has a clear flag, [exist_at] is false everywhere and iteration yields
    nothing.  With a capacity that is not zero the next [push_free(v)]
    returns index 0 without growing the buffer. *)
Theorem clear_resets :
  forall (T : Type) (s : sparse_vector T),
    wf s ->
    exists s',
      clear s = Ok s' /\ wf s' /\
      size s' = 0 /\ capacity s' = capacity s /\ get_free_cells s' = [] /\
      (forall i, i < size s -> read_exist (data_ s') i = Ok false) /\
      (forall i, exist_at i s' = Ok false) /\
      (forall fuel, 0 < fuel -> iterate fuel s' = Some (Ok [])) /\
      (0 < capacity s -> forall v,
         exists s2, push_free (External v) s' = Ok (0, s2) /\
           at_ 0 s2 = Ok v /\ size s2 = 1 /\ capacity s2 = capacity s).
Proof.
  intros T s Hwf. unfold size, capacity, get_free_cells.
  destruct (clear_spec s Hwf) as (buf & buf' & Hd & Hr & Hl & Hlo & Hhi).
  pose proof (proj1 (wf_Some _ _ Hd) Hwf) as (Hlen & Hsz & Hcells).
  assert (Hwf' : wf {| data_ := Some buf'; size_ := 0;
                       capacity_ := capacity_ s; freeIndeces_ := [] |})
    by (eapply clear_wf; eassumption).
  eexists. split; [exact Hr|]. split; [exact Hwf'|]. simpl.
  split; [reflexivity|]. split; [reflexivity|]. split; [reflexivity|].
  split; [|split; [|split]].
  - intros i Hi. destruct (lookup_lt_is_Some_2 buf i) as [c Hc]; [lia|].
    apply read_exist_Ok. exists (wipe c). split; [auto|].
    pose proof (Hcells i c Hi Hc) as Hok. apply cell_okb_true in Hok.
    unfold wipe. destruct Hok as [He | [He _]]; rewrite He; auto.
  - intros i. apply exist_at_out_of_range. simpl. lia.
  - intros fuel Hfuel. rewrite (iterate_spec _ fuel Hwf') by (simpl; lia).
    reflexivity.
  - intros Hcap v.
    destruct (lookup_lt_is_Some_2 buf' 0) as [c0 Hc0]; [lia|].
    pose proof (push_free_fresh v
      {| data_ := Some buf'; size_ := 0; capacity_ := capacity_ s;
         freeIndeces_ := [] |} buf' c0) as Hpush.
    simpl in Hpush. specialize (Hpush eq_refl ltac:(lia) eq_refl Hc0).
    eexists. split; [exact Hpush|]. simpl.
    split; [|split; reflexivity].
    apply (at_intro _ _ _ _ _ (live v)); try reflexivity; [lia|].
    apply list_lookup_insert_eq. lia.
Qed.

Lemma clear_resets_witness :
  exists s' : sparse_vector Z,
    clear {| data_ := Some [vacant; live 20%Z]; size_ := 2; capacity_ := 2;
             freeIndeces_ := [0] |} = Ok s' /\ wf s' /\
    size s' = 0 /\ capacity s' = 2 /\ get_free_cells s' = [] /\
    (forall i, i < 2 -> read_exist (data_ s') i = Ok false) /\
    (forall i, exist_at i s' = Ok false) /\
    (forall fuel, 0 < fuel -> iterate fuel s' = Some (Ok [])) /\
    (0 < 2 -> forall v,
       exists s2, push_free (External v) s' = Ok (0, s2) /\
         at_ 0 s2 = Ok v /\ size s2 = 1 /\ capacity s2 = 2).
Proof.
  apply (clear_resets Z
    {| data_ := Some [vacant; live 20%Z]; size_ := 2; capacity_ := 2;
       freeIndeces_ := [0] |}).
  reflexivity.
Defined.

(** ** reserve *)

(** X4.  On a well-formed container [reserve(n)] returns with capacity
    [max capacity n]: it never shrinks, and does nothing when [n] is not
    above the capacity.  The size, the free indices and what [at] and
    [exist_at] answer at every index are kept, and so is what iteration
    yields. *)
Theorem reserve_keeps_content :
  forall (T : Type) (s : sparse_vector T) (newCapacity : nat),
    wf s ->
    exists s',
      reserve newCapacity s = Ok s' /\ wf s' /\
      capacity s' = Nat.max (capacity s) newCapacity /\
      (newCapacity <= capacity s -> s' = s) /\
      size s' = size s /\
      get_free_cells s' = get_free_cells s /\
      (forall i, at_ i s' = at_ i s /\ exist_at i s' = exist_at i s) /\
      values_by_index s' = values_by_index s.
Proof.
  intros T s n Hwf. unfold size, capacity, get_free_cells.
  destruct (reserve_spec s n Hwf)
    as (s1 & buf & buf1 & Hr & Hwf1 & Hs & Hc & Hf & Hd & Hd1 & Hcells).
  pose proof (proj1 (wf_Some _ _ Hd) Hwf) as (Hlen & Hsz & _).
  assert (Hans : forall i, at_ i s1 = at_ i s /\ exist_at i s1 = exist_at i s)
    by (apply (same_cells_same_answers s s1 buf buf1); (assumption || lia)).
  exists s1. split; [assumption|]. split; [assumption|].
  split; [assumption|]. split.
  { intros Hle. rewrite reserve_small in Hr by assumption. congruence. }
  split; [assumption|]. split; [assumption|]. split; [assumption|].
  apply same_answers_same_values; [assumption|]. intros i. apply Hans.
Qed.

Lemma reserve_keeps_content_witness :
  exists s' : sparse_vector Z,
    reserve 5 {| data_ := Some [vacant; live 20%Z]; size_ := 2;
                 capacity_ := 2; freeIndeces_ := [0] |} = Ok s' /\ wf s' /\
    capacity s' = Nat.max 2 5 /\
    (5 <= 2 -> s' = {| data_ := Some [vacant; live 20%Z]; size_ := 2;
                       capacity_ := 2; freeIndeces_ := [0] |}) /\
    size s' = 2 /\
    get_free_cells s' = [0] /\
    (forall i,
       at_ i s' = at_ i {| data_ := Some [vacant; live 20%Z]; size_ := 2;
                           capacity_ := 2; freeIndeces_ := [0] |} /\
       exist_at i s' =
         exist_at i {| data_ := Some [vacant; live 20%Z]; size_ := 2;
                       capacity_ := 2; freeIndeces_ := [0] |}) /\
    values_by_index s' = [20%Z].
Proof.
  apply (reserve_keeps_content Z
    {| data_ := Some [vacant; live 20%Z]; size_ := 2; capacity_ := 2;
       freeIndeces_ := [0] |} 5).
  reflexivity.
Defined.

(** ** The constructors *)

(** X5.  Copy construction from a well-formed container returns a
    well-formed container with the size, the capacity and the free indices
    of its source, in which [at] and [exist_at] answer at every index what
    they answer in the source, and over which iteration yields the same
    values. *)
Theorem copy_has_same_content :
  forall (T : Type) (s : sparse_vector T),
    wf s ->
    exists s',
      sparse_vector_copy s = Ok s' /\ wf s' /\
      size s' = size s /\ capacity s' = capacity s /\
      get_free_cells s' = get_free_cells s /\
      (forall i, at_ i s' = at_ i s /\ exist_at i s' = exist_at i s) /\
      values_by_index s' = values_by_index s.
Proof.
  intros T s Hwf. unfold size, capacity, get_free_cells.
  destruct (wf_data s Hwf) as [buf Hd].
  pose proof (proj1 (wf_Some _ _ Hd) Hwf) as (Hlen & Hsz & _).
  destruct (reallocate_wf s (capacity_ s) Hwf Hsz) as
    (s1 & buf0 & buf1 & Hr & Hwf1 & Hs & Hc & Hf & Hd0 & Hd1 & Hlo & _).
  rewrite Hd in Hd0. injection Hd0 as <-.
  assert (Hans : forall i, at_ i s1 = at_ i s /\ exist_at i s1 = exist_at i s).
  { apply (same_cells_same_answers s s1 buf buf1); try assumption; [lia|].
    intros i c Hi Hci. exists (relocate c).
    split; [auto|]. split; [reflexivity | apply live_value_relocate]. }
  exists s1. rewrite sparse_vector_copy_reallocate.
  split; [assumption|]. split; [assumption|]. split; [assumption|].
  split; [assumption|]. split; [assumption|]. split; [assumption|].
  apply same_answers_same_values; [assumption|]. intros i. apply Hans.
Qed.

Lemma copy_has_same_content_witness :
  exists s' : sparse_vector Z,
    sparse_vector_copy
      {| data_ := Some [vacant; live 20%Z; raw]; size_ := 2; capacity_ := 3;
         freeIndeces_ := [0] |} = Ok s' /\ wf s' /\
    size s' = 2 /\ capacity s' = 3 /\
    get_free_cells s' = [0] /\
    (forall i,
       at_ i s' = at_ i {| data_ := Some [vacant; live 20%Z; raw];
                           size_ := 2; capacity_ := 3;
                           freeIndeces_ := [0] |} /\
       exist_at i s' =
         exist_at i {| data_ := Some [vacant; live 20%Z; raw];
                       size_ := 2; capacity_ := 3;
                       freeIndeces_ := [0] |}) /\
    values_by_index s' = [20%Z].
Proof.
  apply (copy_has_same_content Z
    {| data_ := Some [vacant; live 20%Z; raw]; size_ := 2; capacity_ := 3;
       freeIndeces_ := [0] |}).
  reflexivity.
Defined.

Lemma omap_seq_lookup {A : Type} (f : nat -> option A) (l : list A) j :
  (forall i v, l !! i = Some v -> f (j + i) = Some v) ->
  omap f (seq j (length l)) = l.
Proof.
  revert j. induction l as [|x l IH]; intros j H; [reflexivity|].
  simpl seq. rewrite omap_cons_eq.
  rewrite <- (Nat.add_0_r j) at 1. rewrite (H 0 x eq_refl).
  f_equal. apply IH. intros i v Hv.
  replace (S j + i) with (j + S i) by lia. apply H. assumption.
Qed.

Lemma values_by_index_fmap_live {T : Type} (l : list T) :
  values_by_index
    {| data_ := Some (live <$> l); size_ := length l; capacity_ := length l;
       freeIndeces_ := [] |} = l.
Proof.
  unfold values_by_index. simpl. apply omap_seq_lookup.
  intros i v Hv. simpl. unfold value_at.
  rewrite (at_intro i (live <$> l) (length l) (length l) [] (live v) v);
    try reflexivity.
  - apply lookup_lt_is_Some. eauto.
  - rewrite list_lookup_fmap, Hv. reflexivity.
Qed.

(** X6.  The initializer-list constructor returns a well-formed container
    with as many cells as the list has elements, all of them live and in
    the order of the list, and with no free index: [at(i)] is element [i]
    of the list, and iteration yields the list. *)
Theorem init_list_holds_the_list :
  forall (T : Type) (other : list T),
    exists s,
      sparse_vector_init other = Ok s /\ wf s /\
      size s = length other /\ capacity s = length other /\
      get_free_cells s = [] /\
      (forall i v, other !! i = Some v -> at_ i s = Ok v) /\
      (forall i, length other <= i ->
         at_ i s = Throw (out_of_range at_range_msg)) /\
      values_by_index s = other /\
      iterate (S (length other)) s = Some (Ok other).
Proof.
  intros T other. eexists. split; [apply sparse_vector_init_spec|].
  assert (Hwf : wf {| data_ := Some (live <$> other); size_ := length other;
                      capacity_ := length other; freeIndeces_ := [] |})
    by (eapply sparse_vector_init_wf; apply sparse_vector_init_spec).
  split; [exact Hwf|]. unfold size, capacity, get_free_cells. simpl.
  split; [reflexivity|]. split; [reflexivity|]. split; [reflexivity|].
  split; [|split; [|split]].
  - intros i v Hv. apply (at_intro _ _ _ _ _ (live v)); try reflexivity.
    + apply lookup_lt_is_Some. eauto.
    + rewrite list_lookup_fmap, Hv. reflexivity.
  - intros i Hi. apply at_out_of_range. simpl. assumption.
  - apply values_by_index_fmap_live.
  - rewrite (iterate_spec _ _ Hwf) by (simpl; lia).
    rewrite (live_values_by_index _ Hwf).
    rewrite values_by_index_fmap_live. reflexivity.
Qed.

(** X7.  A well-formed container of capacity 0 cannot take a value:
    [push_free] and [emplace_free] double the capacity 0 to 0 and then
    write outside the buffer.  The initializer-list constructor builds
    such a container from the empty list. *)
Theorem insertion_at_capacity_zero_is_undefined :
  forall (T : Type) (s : sparse_vector T) (v : T),
    wf s -> capacity s = 0 ->
    push_free (External v) s = Undefined /\
    emplace_free (External v) s = Undefined.
Proof.
  intros T s v Hwf Hcap. unfold capacity in Hcap.
  destruct (wf_data s Hwf) as [buf Hd].
  pose proof (proj1 (wf_Some _ _ Hd) Hwf) as (Hlen & Hsz & _).
  assert (Hbuf : buf = []) by (apply nil_length_inv; lia). subst buf.
  assert (H : push_free (External v) s = Undefined).
  { unfold push_free. destruct (last (freeIndeces_ s)) as [index|] eqn:Hl.
    - simpl. rewrite Hd. reflexivity.
    - destruct (reallocate_spec s (capacity_ s * 2) Hwf)
        as (buf1 & Hr & Hlen1 & _); [lia|].
      assert (He : (size_ s =? capacity_ s) = true)
        by (apply Nat.eqb_eq; lia).
      rewrite He, Hr. simpl.
      assert (Hbuf1 : buf1 = []) by (apply nil_length_inv; lia).
      subst buf1. reflexivity. }
  split; [exact H | exact H].
Qed.

Lemma insertion_at_capacity_zero_is_undefined_witness :
  sparse_vector_init (T:=Z) [] =
    Ok {| data_ := Some []; size_ := 0; capacity_ := 0;
          freeIndeces_ := [] |} /\
  push_free (External 1%Z)
    {| data_ := Some []; size_ := 0; capacity_ := 0;
       freeIndeces_ := [] |} = Undefined /\
  emplace_free (External 1%Z)
    {| data_ := Some []; size_ := 0; capacity_ := 0;
       freeIndeces_ := [] |} = Undefined.
Proof.
  split; [reflexivity|].
  apply (insertion_at_capacity_zero_is_undefined Z
    {| data_ := Some []; size_ := 0; capacity_ := 0; freeIndeces_ := [] |}
    1%Z); reflexivity.
Defined.



(** ** Insertion and removal *)

Section InsertRemove.
Context {T : Type}.
Implicit Types (buf : list (value_info T)) (c : value_info T)
  (s : sparse_vector T) (v : T).

(** Writing one cell leaves the answers at the other indices, as long as
    those are on the same side of the size. *)
Lemma answers_after_insert s buf x cx n cap l j :
  data_ s = Some buf -> j <> x -> (j < n <-> j < size_ s) ->
  at_ j {| data_ := Some (<[x := cx]> buf); size_ := n; capacity_ := cap;
           freeIndeces_ := l |} = at_ j s /\
  exist_at j {| data_ := Some (<[x := cx]> buf); size_ := n;
                capacity_ := cap; freeIndeces_ := l |} = exist_at j s.
Proof.
  intros Hd Hne Hn. unfold at_, exist_at, read_exist, read_value, cell_at.
  simpl. rewrite Hd, list_lookup_insert_ne by congruence.
  destruct (Nat.leb_spec n j), (Nat.leb_spec (size_ s) j);
    try (split; reflexivity); lia.
Qed.

Lemma answers_at_insert buf x v n cap l :
  x < n -> x < length buf ->
  at_ x {| data_ := Some (<[x := live v]> buf); size_ := n; capacity_ := cap;
           freeIndeces_ := l |} = Ok v /\
  exist_at x {| data_ := Some (<[x := live v]> buf); size_ := n;
                capacity_ := cap; freeIndeces_ := l |} = Ok true.
Proof.
  intros Hx Hlen.
  assert (Hl : <[x := live v]> buf !! x = Some (live v))
    by (apply list_lookup_insert_eq; assumption).
  split.
  - apply (at_intro _ _ _ _ _ (live v)); auto.
  - apply exist_at_Ok. right. simpl. split; [assumption|].
    exists (<[x := live v]> buf), (live v). auto.
Qed.

(** What an insertion does to a well-formed container whose free indices
    are in order and whose capacity is not zero. *)
Lemma push_free_spec v s :
  wf s -> free_list_ok s -> 0 < capacity_ s ->
  exists i s',
    push_free (External v) s = Ok (i, s') /\
    ((last (freeIndeces_ s) = Some i /\ size_ s' = size_ s /\
      capacity_ s' = capacity_ s /\
      freeIndeces_ s' = removelast (freeIndeces_ s)) \/
     (freeIndeces_ s = [] /\ i = size_ s /\ size_ s' = S (size_ s) /\
      freeIndeces_ s' = [] /\
      ((size_ s < capacity_ s /\ capacity_ s' = capacity_ s) \/
       (size_ s = capacity_ s /\ capacity_ s' = 2 * capacity_ s)))) /\
    exist_at i s = Ok false /\
    i < size_ s' /\ at_ i s' = Ok v /\ exist_at i s' = Ok true /\
    forall j, j <> i ->
      at_ j s' = at_ j s /\ exist_at j s' = exist_at j s.
Proof.
  intros Hwf Hok Hcap. destruct (wf_data s Hwf) as [buf Hd].
  pose proof (proj1 (wf_Some _ _ Hd) Hwf) as (Hlen & Hsz & _).
  destruct (last (freeIndeces_ s)) as [i|] eqn:Hl.
  - pose proof (proj1 (free_list_ok_spec s) Hok) as [_ Hfree].
    destruct (Hfree i (last_Some_elem_of _ _ Hl)) as [Hi Hr].
    destruct (lookup_lt_is_Some_2 buf i) as [c Hc]; [lia|].
    eexists i, _. split; [apply (push_free_reuse v s i buf c); assumption|].
    simpl. split; [left; auto|].
    split; [apply exist_at_Ok; right; split; [assumption|];
            rewrite Hd in Hr; apply read_exist_Ok in Hr as (c' & ? & ?);
            eauto|].
    split; [assumption|].
    destruct (answers_at_insert buf i v (size_ s) (capacity_ s)
                (removelast (freeIndeces_ s))) as [Hat Hex]; [lia | lia |].
    split; [assumption|]. split; [assumption|].
    intros j Hj. apply (answers_after_insert s buf); auto.
  - apply last_None in Hl.
    destruct (decide (size_ s = capacity_ s)) as [Hfull|Hroom].
    + destruct (reallocate_wf s (capacity_ s * 2) Hwf) as
        (g & buf0 & buf1 & Hr & Hwfg & Hsg & Hcg & Hfg & Hd0 & Hdg & Hlo & Hhi);
        [lia|].
      rewrite Hd in Hd0. injection Hd0 as <-.
      pose proof (proj1 (wf_Some _ _ Hdg) Hwfg) as (Hleng & _ & _).
      assert (Hraw : buf1 !! size_ g = Some raw) by (apply Hhi; lia).
      pose proof (push_free_grow v s g buf1 raw) as Hpush.
      rewrite Hl in Hpush. specialize (Hpush eq_refl Hfull Hr Hdg Hraw).
      rewrite Hsg, Hcg, Hfg, Hl in Hpush.
      eexists _, _. split; [exact Hpush|]. simpl.
      split; [right; repeat split; auto; right; lia|].
      split; [apply exist_at_out_of_range; lia|].
      split; [lia|].
      destruct (answers_at_insert buf1 (size_ s) v (S (size_ s))
                  (capacity_ s * 2) []) as [Hat Hex]; [lia | lia |].
      split; [assumption|]. split; [assumption|].
      intros j Hj.
      destruct (same_cells_same_answers s g buf buf1 Hd Hdg Hsg) with (i := j)
        as [Hatg Hexg]; [lia | |].
      { intros k c Hk Hci. exists (relocate c).
        split; [auto|]. split; [reflexivity | apply live_value_relocate]. }
      rewrite <- Hatg, <- Hexg.
      apply (answers_after_insert g buf1); [assumption | assumption | lia].
    + destruct (lookup_lt_is_Some_2 buf (size_ s)) as [c Hc]; [lia|].
      pose proof (push_free_fresh v s buf c) as Hpush.
      rewrite Hl in Hpush. specialize (Hpush eq_refl Hroom Hd Hc).
      eexists _, _. split; [exact Hpush|]. simpl.
      split; [right; repeat split; auto; left; lia|].
      split; [apply exist_at_out_of_range; lia|].
      split; [lia|].
      destruct (answers_at_insert buf (size_ s) v (S (size_ s))
                  (capacity_ s) []) as [Hat Hex]; [lia | lia |].
      split; [assumption|]. split; [assumption|].
      intros j Hj. apply (answers_after_insert s buf); auto. lia.
Qed.

End InsertRemove.

(** X9.  On a well-formed container whose free indices are in order and
    whose capacity is not zero, [push_free(v)], for a [v] that lies outside
    the buffer, returns an index that was not live; afterwards the index is
    below the size, [at] returns [v] there, and [at] and [exist_at] answer
    at every other index what they answered before.  The container stays
    well formed with its free indices in order. *)
Theorem push_free_then_at :
  forall (T : Type) (s : sparse_vector T) (v : T),
    wf s -> free_list_ok s -> 0 < capacity s ->
    exists i s',
      push_free (External v) s = Ok (i, s') /\
      exist_at i s = Ok false /\
      i < size s' /\ at_ i s' = Ok v /\ exist_at i s' = Ok true /\
      (forall j, j <> i ->
         at_ j s' = at_ j s /\ exist_at j s' = exist_at j s) /\
      wf s' /\ free_list_ok s'.
Proof.
  intros T s v Hwf Hok Hcap.
  destruct (push_free_spec v s Hwf Hok Hcap)
    as (i & s' & Hp & _ & Hfree & Hi & Hat & Hex & Hother).
  exists i, s'. repeat (split; [assumption|]).
  split; [eapply push_free_wf | eapply push_free_free_list]; eassumption.
Qed.

Lemma push_free_then_at_witness :
  exists i (s' : sparse_vector Z),
    push_free (External 7%Z)
      {| data_ := Some [vacant; live 20%Z]; size_ := 2;
         capacity_ := 2; freeIndeces_ := [0] |} = Ok (i, s') /\
    exist_at i {| data_ := Some [vacant; live 20%Z]; size_ := 2;
                  capacity_ := 2; freeIndeces_ := [0] |} = Ok false /\
    i < size s' /\ at_ i s' = Ok 7%Z /\ exist_at i s' = Ok true /\
    (forall j, j <> i ->
       at_ j s' = at_ j {| data_ := Some [vacant; live 20%Z]; size_ := 2;
                           capacity_ := 2; freeIndeces_ := [0] |} /\
       exist_at j s' =
         exist_at j {| data_ := Some [vacant; live 20%Z]; size_ := 2;
                       capacity_ := 2; freeIndeces_ := [0] |}) /\
    wf s' /\ free_list_ok s'.
Proof.
  apply (push_free_then_at Z
    {| data_ := Some [vacant; live 20%Z]; size_ := 2; capacity_ := 2;
       freeIndeces_ := [0] |} 7%Z).
  - reflexivity.
  - reflexivity.
  - unfold capacity. simpl. lia.
Defined.

(** X10.  With no free index and a capacity that is not zero,
    [push_free(v)], for a [v] that lies outside the buffer, returns on a
    well-formed container the size as index and appends [v] to what
    iteration yields. *)
Theorem push_free_appends_without_free_index :
  forall (T : Type) (s : sparse_vector T) (v : T),
    wf s -> get_free_cells s = [] -> 0 < capacity s ->
    exists s',
      push_free (External v) s = Ok (size s, s') /\
      size s' = S (size s) /\
      values_by_index s' = values_by_index s ++ [v] /\
      (forall fuel, S (size s) < fuel ->
         iterate fuel s' = Some (Ok (values_by_index s ++ [v]))).
Proof.
  intros T s v Hwf Hfree Hcap. unfold get_free_cells, size, capacity in *.
  destruct (push_free_spec v s Hwf (free_list_ok_nil s Hfree) Hcap)
    as (i & s' & Hp & Hcase & _ & _ & Hat & _ & Hother).
  destruct Hcase as [(Hl & _) | (_ & -> & Hs' & _)].
  { rewrite Hfree in Hl. discriminate. }
  assert (Hvals : values_by_index s' = values_by_index s ++ [v]).
  { unfold values_by_index. rewrite Hs', seq_S, omap_app. simpl.
    unfold value_at at 2. rewrite Hat. f_equal.
    apply omap_pointwise; [reflexivity|].
    intros k x y Hx Hy. rewrite Hx in Hy. injection Hy as <-.
    apply lookup_seq in Hx as [-> Hk]. simpl.
    unfold value_at. destruct (Hother k) as [-> _]; [lia | reflexivity]. }
  exists s'. split; [assumption|]. split; [assumption|].
  split; [assumption|].
  intros fuel Hfuel.
  assert (Hwf' : wf s') by (eapply push_free_wf; eassumption).
  rewrite (iterate_spec s' fuel Hwf') by lia.
  rewrite (live_values_by_index s' Hwf'), Hvals. reflexivity.
Qed.

Lemma push_free_appends_without_free_index_witness :
  exists s' : sparse_vector Z,
    push_free (External 30%Z)
      {| data_ := Some [live 10%Z; live 20%Z]; size_ := 2;
         capacity_ := 2; freeIndeces_ := [] |} = Ok (2, s') /\
    size s' = 3 /\
    values_by_index s' = [10%Z; 20%Z] ++ [30%Z] /\
    (forall fuel, 3 < fuel ->
       iterate fuel s' = Some (Ok ([10%Z; 20%Z] ++ [30%Z]))).
Proof.
  apply (push_free_appends_without_free_index Z
    {| data_ := Some [live 10%Z; live 20%Z]; size_ := 2; capacity_ := 2;
       freeIndeces_ := [] |} 30%Z).
  - reflexivity.
  - reflexivity.
  - unfold capacity. simpl. lia.
Defined.

(** X11.  An insertion relocates the buffer only when there is no free
    index and the size has reached the capacity, and then the capacity
    doubles; in every other case it writes the one cell it returns and
    leaves the buffer, the capacity and every other cell where they
    were. *)
Theorem push_free_grows_only_when_full :
  forall (T : Type) (s s' : sparse_vector T) (v : T) (i : nat),
    push_free (External v) s = Ok (i, s') ->
    (get_free_cells s = [] /\ size s = capacity s /\
     capacity s' = 2 * capacity s) \/
    (capacity s' = capacity s /\
     exists buf, data_ s = Some buf /\
                 data_ s' = Some (<[i := live v]> buf)).
Proof.
  intros T s s' v i H. unfold get_free_cells, size, capacity.
  apply push_free_Ok in H as
    [(buf & c & w & Hl & Hd & Hc & [= <-] & ->)
    |[(buf & c & w & Hl & Hne & -> & Hd & Hc & [= <-] & ->)
     |(s1 & buf1 & c & w & Hl & He & Hr & -> & Hd & Hc & _ & ->)]]; simpl.
  - right. eauto.
  - right. eauto.
  - left. apply last_None in Hl.
    unfold reallocate in Hr. apply bind_Ok in Hr as (nd & _ & Hr).
    injection Hr as <-. simpl. split; [assumption|]. split; [assumption|]. lia.
Qed.

Lemma push_free_grows_only_when_full_witness :
  (get_free_cells (T:=Z) {| data_ := Some [live 10%Z; live 20%Z];
      size_ := 2; capacity_ := 2; freeIndeces_ := [] |} = [] /\
   size (T:=Z) {| data_ := Some [live 10%Z; live 20%Z];
      size_ := 2; capacity_ := 2; freeIndeces_ := [] |} =
   capacity (T:=Z) {| data_ := Some [live 10%Z; live 20%Z];
      size_ := 2; capacity_ := 2; freeIndeces_ := [] |} /\
   capacity (T:=Z) {| data_ := Some [live 10%Z; live 20%Z; live 30%Z; raw];
      size_ := 3; capacity_ := 4; freeIndeces_ := [] |} = 2 * 2) \/
  (capacity (T:=Z) {| data_ := Some [live 10%Z; live 20%Z; live 30%Z; raw];
      size_ := 3; capacity_ := 4; freeIndeces_ := [] |} = 2 /\
   exists buf, Some [live 10%Z; live 20%Z] = Some buf /\
     Some [live 10%Z; live 20%Z; live 30%Z; raw] =
       Some (<[2 := live 30%Z]> buf)).
Proof.
  apply (push_free_grows_only_when_full Z
    {| data_ := Some [live 10%Z; live 20%Z]; size_ := 2; capacity_ := 2;
       freeIndeces_ := [] |}
    {| data_ := Some [live 10%Z; live 20%Z; live 30%Z; raw]; size_ := 3;
       capacity_ := 4; freeIndeces_ := [] |} 30%Z 2).
  reflexivity.
Defined.

(** X12.  In a well-formed container [erase_at(i)] throws the range
    exception above the size, throws the exception of a vacant cell on a
    free cell below the size, and returns on a live cell: then the size
    and the capacity are kept, [i] is appended to the free indices,
    [exist_at(i)] is false, [at(i)] and a second [erase_at(i)] throw the
    exception of a vacant cell, and every other index answers as before. *)
Theorem erase_at_outcomes :
  forall (T : Type) (s : sparse_vector T) (i : nat),
    wf s ->
    (size s < i -> erase_at i s = Throw (out_of_range erase_at_range_msg)) /\
    (i < size s -> exist_at i s = Ok false ->
       erase_at i s = Throw (out_of_range erase_at_vacant_msg)) /\
    (forall w, at_ i s = Ok w ->
       exists s1,
         erase_at i s = Ok s1 /\ wf s1 /\
         size s1 = size s /\ capacity s1 = capacity s /\
         get_free_cells s1 = get_free_cells s ++ [i] /\
         exist_at i s1 = Ok false /\
         at_ i s1 = Throw (out_of_range at_vacant_msg) /\
         erase_at i s1 = Throw (out_of_range erase_at_vacant_msg) /\
         forall j, j <> i ->
           at_ j s1 = at_ j s /\ exist_at j s1 = exist_at j s).
Proof.
  intros T s i Hwf. unfold size, capacity, get_free_cells.
  split; [|split].
  - intros Hi. unfold erase_at. apply Nat.ltb_lt in Hi. rewrite Hi.
    reflexivity.
  - intros Hi Hex.
    apply exist_at_Ok in Hex as [[? _] | (_ & buf & c & Hd & Hc & He)]; [lia|].
    unfold erase_at.
    assert (Hlt : (size_ s <? i) = false) by (apply Nat.ltb_ge; lia).
    assert (Hr : read_exist (data_ s) i = Ok false)
      by (rewrite Hd; apply read_exist_Ok; eauto).
    rewrite Hlt, Hr. reflexivity.
  - intros w Hat.
    apply at_Ok in Hat as (Hi & buf & c & Hd & Hc & He & Hv).
    assert (Hib : i < length buf) by (apply lookup_lt_is_Some; eauto).
    pose proof (erase_at_live i s buf c w ltac:(lia) Hd Hc He Hv) as Herase.
    assert (Hvac : <[i := vacant]> buf !! i = Some (@vacant T))
      by (apply list_lookup_insert_eq; assumption).
    assert (Hr1 : read_exist (Some (<[i := vacant]> buf)) i = Ok false)
      by (apply read_exist_Ok; eauto).
    eexists. split; [exact Herase|].
    split; [eapply erase_at_wf; eassumption|]. simpl.
    split; [reflexivity|]. split; [reflexivity|]. split; [reflexivity|].
    split; [|split; [|split]].
    + apply exist_at_Ok. right. simpl. split; [assumption|]. eauto.
    + unfold at_. simpl. apply Nat.leb_gt in Hi. rewrite Hi, Hr1.
      reflexivity.
    + unfold erase_at. simpl.
      assert (Hlt : (size_ s <? i) = false) by (apply Nat.ltb_ge; lia).
      rewrite Hlt, Hr1. reflexivity.
    + intros j Hj. apply (answers_after_insert s buf); auto.
Qed.

Lemma erase_at_outcomes_witness :
  let s : sparse_vector Z :=
    {| data_ := Some [vacant; live 20%Z]; size_ := 2; capacity_ := 2;
       freeIndeces_ := [0] |} in
  erase_at 3 s = Throw (out_of_range erase_at_range_msg) /\
  erase_at 0 s = Throw (out_of_range erase_at_vacant_msg) /\
  exists s1,
    erase_at 1 s = Ok s1 /\ wf s1 /\
    size s1 = 2 /\ capacity s1 = 2 /\
    get_free_cells s1 = [0] ++ [1] /\
    exist_at 1 s1 = Ok false /\
    at_ 1 s1 = Throw (out_of_range at_vacant_msg) /\
    erase_at 1 s1 = Throw (out_of_range erase_at_vacant_msg) /\
    forall j, j <> 1 ->
      at_ j s1 = at_ j s /\ exist_at j s1 = exist_at j s.
Proof.
  cbv zeta.
  destruct (erase_at_outcomes Z
    {| data_ := Some [vacant; live 20%Z]; size_ := 2; capacity_ := 2;
       freeIndeces_ := [0] |} 3 eq_refl) as (Hrange & _ & _).
  destruct (erase_at_outcomes Z
    {| data_ := Some [vacant; live 20%Z]; size_ := 2; capacity_ := 2;
       freeIndeces_ := [0] |} 0 eq_refl) as (_ & Hvac & _).
  destruct (erase_at_outcomes Z
    {| data_ := Some [vacant; live 20%Z]; size_ := 2; capacity_ := 2;
       freeIndeces_ := [0] |} 1 eq_refl) as (_ & _ & Hlive).
  split; [apply Hrange; unfold size; simpl; lia|].
  split; [apply Hvac; [unfold size; simpl; lia | reflexivity]|].
  apply (Hlive 20%Z). reflexivity.
Defined.

(** X13.  After [resize] has grown a well-formed container to [newSize],
    the next [push_free(v)] takes the highest new index, [newSize - 1]:
    [resize] registers the new indices in ascending order and the
    insertion takes the last one registered. *)
Theorem push_free_after_resize_takes_last_index :
  forall (T : Type) (s : sparse_vector T) (newSize : nat) (v : T),
    wf s -> size s < newSize ->
    exists s1 s2,
      resize newSize s = Ok s1 /\
      push_free (External v) s1 = Ok (newSize - 1, s2) /\
      size s2 = newSize /\
      at_ (newSize - 1) s2 = Ok v /\
      get_free_cells s2 =
        get_free_cells s ++ seq (size s) (newSize - 1 - size s).
Proof.
  intros T s n v Hwf Hn. unfold size, get_free_cells in *.
  destruct (resize_grow s n Hwf) as (buf & buf' & Hd & Hr & Hl & _ & _);
    [lia|].
  assert (Hseq : seq (size_ s) (n - size_ s) =
                 seq (size_ s) (n - 1 - size_ s) ++ [n - 1]).
  { replace (n - size_ s) with (S (n - 1 - size_ s)) by lia.
    rewrite seq_S. do 2 f_equal. lia. }
  rewrite Hseq, app_assoc in Hr.
  destruct (lookup_lt_is_Some_2 buf' (n - 1)) as [c Hc]; [lia|].
  pose proof (push_free_reuse v _ (n - 1) buf' c
    (last_snoc _ _ : last (freeIndeces_
       {| data_ := Some buf'; size_ := n;
          capacity_ := Nat.max (capacity_ s) n;
          freeIndeces_ := (freeIndeces_ s ++
             seq (size_ s) (n - 1 - size_ s)) ++ [n - 1] |}) = Some (n - 1))
    eq_refl Hc) as Hpush.
  simpl in Hpush. rewrite removelast_last in Hpush.
  eexists _, _. split; [exact Hr|]. split; [exact Hpush|]. simpl.
  split; [reflexivity|]. split; [|reflexivity].
  apply answers_at_insert; lia.
Qed.

Lemma push_free_after_resize_takes_last_index_witness :
  exists s1 s2 : sparse_vector Z,
    resize 4 {| data_ := Some [live 10%Z; raw]; size_ := 1; capacity_ := 2;
                freeIndeces_ := [] |} = Ok s1 /\
    push_free (External 7%Z) s1 = Ok (4 - 1, s2) /\
    size s2 = 4 /\
    at_ (4 - 1) s2 = Ok 7%Z /\
    get_free_cells s2 = [] ++ seq 1 (4 - 1 - 1).
Proof.
  apply (push_free_after_resize_takes_last_index Z
    {| data_ := Some [live 10%Z; raw]; size_ := 1; capacity_ := 2;
       freeIndeces_ := [] |} 4 7%Z).
  - reflexivity.
  - unfold size. simpl. lia.
Defined.

(** ** Iterators at the ends *)

Lemma omap_nil_iff {A B : Type} (f : A -> option B) (l : list A) :
  omap f l = [] <-> forall x, x ∈ l -> f x = None.
Proof.
  induction l as [|a l IH].
  - split; [intros _ x Hx; inversion Hx | reflexivity].
  - rewrite omap_cons_eq. destruct (f a) as [b|] eqn:Hfa.
    + split; [discriminate|]. intros H.
      rewrite (H a) in Hfa; [discriminate | apply elem_of_cons; auto].
    + rewrite IH. split.
      * intros H x Hx. apply elem_of_cons in Hx as [->|Hx]; auto.
      * intros H x Hx. apply H. apply elem_of_cons. auto.
Qed.

(** X14.  In a well-formed container [begin()] and [end()] return, and
    [begin() == end()] holds exactly when no cell below the size is live,
    that is when iteration yields nothing; [!=] is the negation of [==]. *)
Theorem begin_equals_end_iff_no_live_cell :
  forall (T : Type) (s : sparse_vector T),
    wf s ->
    exists b e,
      begin_ s = Ok b /\ end_ s = Ok e /\
      iterator_neq b e = negb (iterator_eq b e) /\
      (iterator_eq b e = true <-> values_by_index s = []) /\
      (iterator_eq b e = true <-> forall i, exist_at i s = Ok false).
Proof.
  intros T s Hwf.
  destruct (begin_spec s Hwf) as (p & Hb & (Hp & Hfree & Hlive)).
  exists {| ptr_ := p; endPtr_ := size_ s |},
         {| ptr_ := size_ s; endPtr_ := size_ s |}.
  split; [assumption|]. split; [apply end_spec|].
  split; [reflexivity|].
  unfold iterator_eq. simpl. rewrite Nat.eqb_eq.
  assert (Hnone : p = size_ s -> forall i, exist_at i s = Ok false).
  { intros -> i. destruct (Nat.le_gt_cases (size_ s) i) as [Hle|Hlt].
    - apply exist_at_out_of_range. assumption.
    - apply Hfree. lia. }
  assert (Hsome : p <> size_ s ->
            exist_at p s = Ok true /\ exists v, at_ p s = Ok v).
  { intros Hne. assert (Hlt : p < size_ s) by lia.
    split; [auto|].
    destruct (wf_read_exist s p Hwf Hlt)
      as (buf & c & b & Hd & Hc & He & _ & Hv).
    pose proof (Hlive Hlt) as Hex.
    apply exist_at_Ok in Hex
      as [[? _] | (_ & buf0 & c0 & Hd0 & Hc0 & He0)]; [lia|].
    rewrite Hd in Hd0. injection Hd0 as <-.
    rewrite Hc in Hc0. injection Hc0 as <-.
    assert (b = true) as -> by congruence.
    destruct Hv as [v Hv]; [reflexivity|]. exists v.
    apply at_Ok. split; [assumption|]. exists buf, c. auto. }
  split.
  - unfold values_by_index. rewrite omap_nil_iff. split.
    + intros Hps i Hi. apply elem_of_seq in Hi.
      unfold value_at. destruct (at_ i s) as [v| |] eqn:Hat; try reflexivity.
      apply at_Ok in Hat as (Hlt & buf & c & Hd & Hc & He & _).
      pose proof (Hnone Hps i) as Hex.
      apply exist_at_Ok in Hex
        as [[? _] | (_ & buf0 & c0 & Hd0 & Hc0 & He0)]; [lia|].
      congruence.
    + intros H. destruct (decide (p = size_ s)) as [|Hne]; [assumption|].
      destruct (Hsome Hne) as [_ [v Hv]].
      specialize (H p). unfold value_at in H. rewrite Hv in H.
      discriminate H. apply elem_of_seq. lia.
  - split; [exact Hnone|]. intros H.
    destruct (decide (p = size_ s)) as [|Hne]; [assumption|].
    destruct (Hsome Hne) as [Hex _]. rewrite H in Hex. discriminate.
Qed.

Lemma begin_equals_end_iff_no_live_cell_witness :
  exists b e,
    begin_ (T:=Z) {| data_ := Some [vacant; vacant]; size_ := 2;
                     capacity_ := 2; freeIndeces_ := [0; 1] |} = Ok b /\
    end_ (T:=Z) {| data_ := Some [vacant; vacant]; size_ := 2;
                   capacity_ := 2; freeIndeces_ := [0; 1] |} = Ok e /\
    iterator_neq b e = negb (iterator_eq b e) /\
    (iterator_eq b e = true <->
     values_by_index (T:=Z) {| data_ := Some [vacant; vacant]; size_ := 2;
                               capacity_ := 2; freeIndeces_ := [0; 1] |}
       = []) /\
    (iterator_eq b e = true <->
     forall i,
       exist_at (T:=Z) i {| data_ := Some [vacant; vacant]; size_ := 2;
                            capacity_ := 2; freeIndeces_ := [0; 1] |}
         = Ok false).
Proof.
  apply (begin_equals_end_iff_no_live_cell Z
    {| data_ := Some [vacant; vacant]; size_ := 2; capacity_ := 2;
       freeIndeces_ := [0; 1] |}).
  reflexivity.
Defined.

(** ** The capacity *)

(** X15.  No mutating member lowers the capacity: a call that returns on a
    well-formed container leaves a capacity at least as large, and the
    size within it. *)
Theorem capacity_never_shrinks :
  forall (T : Type) (s s' : sparse_vector T) (o : op),
    wf s -> run o s = Ok s' ->
    capacity s <= capacity s' /\ size s' <= capacity s'.
Proof.
  intros T s s' o Hwf H. unfold capacity, size.
  assert (Hwf' : wf s') by (eapply run_wf; eassumption).
  destruct (wf_data s' Hwf') as [buf' Hd'].
  pose proof (proj1 (wf_Some _ _ Hd') Hwf') as (_ & Hsz' & _).
  split; [|assumption]. clear Hwf' Hd' Hsz' buf'.
  assert (Hpush : forall (val : reference) i s0,
            push_free val s = Ok (i, s0) -> capacity_ s <= capacity_ s0).
  { intros val0 i s0 Hp. apply push_free_Ok in Hp as
      [(buf & c & v & _ & _ & _ & _ & ->)
      |[(buf & c & v & _ & _ & _ & _ & _ & _ & ->)
       |(s1 & buf1 & c & v & _ & _ & Hr & _ & _ & _ & _ & ->)]];
      simpl; try lia.
    unfold reallocate in Hr. apply bind_Ok in Hr as (nd & _ & Hr).
    injection Hr as <-. simpl. lia. }
  destruct o; simpl in H.
  - apply fmap_Ok in H as ([i s0] & H & <-). eauto.
  - apply fmap_Ok in H as ([i s0] & H & <-).
    rewrite emplace_free_push_free in H. eauto.
  - apply erase_at_Ok in H as (? & ? & _ & _ & _ & _ & ->). simpl. lia.
  - apply pop_back_Ok in H as (? & ? & _ & _ & _ & ->). simpl. lia.
  - destruct (feel_free_cells_spec funct s Hwf) as (? & ? & _ & Hr & _).
    rewrite Hr in H. injection H as <-. simpl. lia.
  - destruct (reserve_spec s newCapacity Hwf)
      as (s1 & ? & ? & Hr & _ & _ & Hc & _).
    rewrite Hr in H. injection H as <-. lia.
  - destruct (Nat.le_gt_cases (size_ s) newSize) as [Hn|Hn].
    + destruct (resize_grow s newSize Hwf Hn) as (? & ? & _ & Hr & _).
      rewrite Hr in H. injection H as <-. simpl. lia.
    + rewrite resize_shrink in H by (assumption || lia). injection H as <-.
      simpl. lia.
  - apply emplace_at_Ok in H as (? & ? & _ & _ & _ & _ & ->). simpl. lia.
  - destruct (clear_spec s Hwf) as (? & ? & _ & Hr & _).
    rewrite Hr in H. injection H as <-. simpl. lia.
Qed.

Lemma capacity_never_shrinks_witness :
  capacity (T:=Z) {| data_ := Some [live 10%Z; live 20%Z]; size_ := 2;
                     capacity_ := 2; freeIndeces_ := [] |} <=
  capacity (T:=Z) {| data_ := Some [live 10%Z; vacant]; size_ := 1;
                     capacity_ := 2; freeIndeces_ := [] |} /\
  size (T:=Z) {| data_ := Some [live 10%Z; vacant]; size_ := 1;
                 capacity_ := 2; freeIndeces_ := [] |} <=
  capacity (T:=Z) {| data_ := Some [live 10%Z; vacant]; size_ := 1;
                     capacity_ := 2; freeIndeces_ := [] |}.
Proof.
  apply (capacity_never_shrinks Z
    {| data_ := Some [live 10%Z; live 20%Z]; size_ := 2; capacity_ := 2;
       freeIndeces_ := [] |}
    {| data_ := Some [live 10%Z; vacant]; size_ := 1; capacity_ := 2;
       freeIndeces_ := [] |} PopBack).
  - reflexivity.
  - reflexivity.
Defined.

(** ** push_free and pop_back *)

(** X16.  With no free index and a capacity that is not zero,
    [push_free(v)], for a [v] that lies outside the buffer, followed by
    [pop_back()] gives back the content of a well-formed container: the
    size, the empty free index store, what [at] and [exist_at] answer at
    every index and what iteration yields are as before (the capacity may
    have doubled). *)
Theorem push_free_then_pop_back :
  forall (T : Type) (s : sparse_vector T) (v : T),
    wf s -> get_free_cells s = [] -> 0 < capacity s ->
    exists s1 s2,
      push_free (External v) s = Ok (size s, s1) /\
      pop_back s1 = Ok s2 /\
      size s2 = size s /\ get_free_cells s2 = [] /\
      capacity s <= capacity s2 /\
      (forall j, at_ j s2 = at_ j s /\ exist_at j s2 = exist_at j s) /\
      values_by_index s2 = values_by_index s.
Proof.
  intros T s v Hwf Hfree Hcap. unfold get_free_cells, size, capacity in *.
  destruct (push_free_spec v s Hwf (free_list_ok_nil s Hfree) Hcap)
    as (i & s1 & Hp & Hcase & _ & _ & Hat & _ & Hother).
  destruct Hcase as [(Hl & _) | (_ & -> & Hs1 & Hf1 & Hc1)].
  { rewrite Hfree in Hl. discriminate. }
  assert (Hwf1 : wf s1) by (eapply push_free_wf; eassumption).
  apply at_Ok in Hat as (_ & buf1 & c & Hd1 & Hc & _ & Hv).
  pose proof (proj1 (wf_Some _ _ Hd1) Hwf1) as (Hlen1 & Hsz1 & _).
  replace (size_ s) with (size_ s1 - 1) in Hc by lia.
  pose proof (pop_back_nonempty s1 buf1 c v ltac:(lia) Hd1 Hc Hv) as Hpop.
  assert (Hans : forall j,
    at_ j {| data_ := Some (<[size_ s1 - 1 := vacant]> buf1);
             size_ := size_ s1 - 1; capacity_ := capacity_ s1;
             freeIndeces_ := freeIndeces_ s1 |} = at_ j s /\
    exist_at j {| data_ := Some (<[size_ s1 - 1 := vacant]> buf1);
                  size_ := size_ s1 - 1; capacity_ := capacity_ s1;
                  freeIndeces_ := freeIndeces_ s1 |} = exist_at j s).
  { intros j. destruct (decide (j = size_ s)) as [->|Hne].
    - rewrite !at_out_of_range, !exist_at_out_of_range by (simpl; lia). auto.
    - destruct (Hother j Hne) as [<- <-].
      apply (answers_after_insert s1 buf1); [assumption | lia | lia]. }
  eexists _, _. split; [exact Hp|]. split; [exact Hpop|]. simpl.
  split; [lia|]. split; [assumption|].
  split; [destruct Hc1 as [[_ ->] | [_ ->]]; lia|].
  split; [exact Hans|].
  apply same_answers_same_values; [simpl; lia|]. intros j. apply Hans.
Qed.

Lemma push_free_then_pop_back_witness :
  exists s1 s2 : sparse_vector Z,
    push_free (External 30%Z)
      {| data_ := Some [live 10%Z; live 20%Z]; size_ := 2;
         capacity_ := 2; freeIndeces_ := [] |} = Ok (2, s1) /\
    pop_back s1 = Ok s2 /\
    size s2 = 2 /\ get_free_cells s2 = [] /\
    2 <= capacity s2 /\
    (forall j,
       at_ j s2 = at_ j {| data_ := Some [live 10%Z; live 20%Z];
                           size_ := 2; capacity_ := 2;
                           freeIndeces_ := [] |} /\
       exist_at j s2 =
         exist_at j {| data_ := Some [live 10%Z; live 20%Z]; size_ := 2;
                       capacity_ := 2; freeIndeces_ := [] |}) /\
    values_by_index s2 = [10%Z; 20%Z].
Proof.
  apply (push_free_then_pop_back Z
    {| data_ := Some [live 10%Z; live 20%Z]; size_ := 2; capacity_ := 2;
       freeIndeces_ := [] |} 30%Z).
  - reflexivity.
  - reflexivity.
  - unfold capacity. simpl. lia.
Defined.

(** ** The destructor *)

Section Destructor.
Context {T : Type}.
Implicit Types (buf b : list (value_info T)) (c : value_info T)
  (s : sparse_vector T) (v : T).

(** The loop of the destructor runs the destructor of the live values from
    the current position on.  What it has destroyed lies behind the
    position, so the cells ahead are those of the buffer it started
    from. *)
Lemma destroy_live_spec s buf fuel p b :
  wf s -> data_ s = Some buf ->
  drop p b = drop p buf ->
  first_live_from s p p ->
  size_ s - p < fuel ->
  exists b',
    destroy_live fuel (Some b)
      {| ptr_ := p; endPtr_ := size_ s |}
      {| ptr_ := size_ s; endPtr_ := size_ s |} =
    Some (Ok (omap live_value (drop p (take (size_ s) buf)), Some b')).
Proof.
  intros Hwf Hd. pose proof (proj1 (wf_Some _ _ Hd) Hwf) as (Hlen & Hsz & _).
  revert p b. induction fuel as [|fuel IH];
    intros p b Hdrop (Hp & _ & Hlive) Hfuel.
  - lia.
  - simpl. unfold iterator_neq. simpl.
    destruct (p =? size_ s) eqn:Hps; simpl.
    + apply Nat.eqb_eq in Hps. subst p.
      rewrite drop_ge by (rewrite length_take; lia). eauto.
    + apply Nat.eqb_neq in Hps. assert (Hlt : p < size_ s) by lia.
      destruct (exist_at_wf s p Hwf Hlt)
        as (buf0 & c & e & Hd0 & Hc & He & Hex & Hv).
      rewrite Hd in Hd0. injection Hd0 as <-.
      rewrite (Hlive Hlt) in Hex. injection Hex as <-.
      destruct Hv as [v Hv]; [reflexivity|].
      assert (Hbp : b !! p = Some c).
      { rewrite <- (Nat.add_0_r p), <- lookup_drop, Hdrop, lookup_drop.
        rewrite Nat.add_0_r. assumption. }
      assert (Hrv : iterator_deref (Some b)
                      {| ptr_ := p; endPtr_ := size_ s |} = Ok v).
      { unfold iterator_deref. apply read_value_Ok. eauto. }
      rewrite Hrv. simpl.
      rewrite (destroy_Some _ _ _ _ Hbp Hv). simpl.
      set (b1 := alter _ p b).
      assert (Hdrop1 : drop (S p) b1 = drop (S p) buf).
      { unfold b1. rewrite drop_alter_lt by lia.
        replace (S p) with (p + 1) by lia.
        rewrite <- !drop_drop, Hdrop. reflexivity. }
      destruct (iterator_incr_spec s {| ptr_ := p; endPtr_ := size_ s |} Hwf)
        as (p' & Hincr & (Hr' & Hfree' & Hlive')); [assumption | reflexivity |].
      simpl in Hr', Hfree', Hlive'.
      assert (Hincr1 : iterator_incr (Some b1)
                {| ptr_ := p; endPtr_ := size_ s |} =
              Ok {| ptr_ := p'; endPtr_ := size_ s |}).
      { unfold iterator_incr, cells_from in *. simpl in *.
        rewrite Hd in Hincr. rewrite Hdrop1. exact Hincr. }
      rewrite Hincr1. simpl.
      destruct (IH p' b1) as (b' & Hrec).
      * replace p' with (S p + (p' - S p)) by lia.
        rewrite <- !drop_drop, Hdrop1. reflexivity.
      * split; [lia|]. split; [intros; lia | assumption].
      * lia.
      * rewrite Hrec. simpl. exists b'. do 3 f_equal.
        assert (Hcp : take (size_ s) buf !! p = Some c)
          by (rewrite lookup_take_lt by lia; assumption).
        assert (Hlv : live_value c = Some v)
          by (unfold live_value; rewrite He; assumption).
        rewrite (drop_S _ _ _ Hcp), omap_cons_eq, Hlv.
        rewrite (live_values_skip s buf (S p) p' Hd); try lia; auto.
Qed.

Lemma destructor_spec s fuel :
  wf s -> size_ s < fuel ->
  destructor fuel s =
    Some (Ok (values_by_index s,
              {| data_ := None; size_ := 0; capacity_ := capacity_ s;
                 freeIndeces_ := freeIndeces_ s |})).
Proof.
  intros Hwf Hfuel.
  destruct (wf_data s Hwf) as [buf Hd].
  pose proof (proj1 (wf_Some _ _ Hd) Hwf) as (Hlen & Hsz & _).
  destruct (begin_spec s Hwf) as (p & Hb & (Hp & Hfree & Hlive)).
  destruct (destroy_live_spec s buf fuel p buf Hwf Hd eq_refl) as (b' & Hrun).
  { split; [lia|]. split; [intros; lia | assumption]. }
  { lia. }
  unfold destructor. rewrite Hb, end_spec, Hd. simpl.
  rewrite <- Hd, Hd. rewrite Hrun. simpl. do 3 f_equal.
  rewrite <- (live_values_by_index s Hwf). unfold live_values.
  rewrite Hd. simpl.
  symmetry. apply (live_values_skip s buf 0 p Hd); try lia; auto.
Qed.

End Destructor.

(** X17.  Given one round more than the size, the destructor of a
    well-formed container returns: it runs the destructor of exactly the
    values iteration yields, once each and in index order, and leaves a
    null buffer and size 0.  On a container with a null buffer (after the
    destructor, or after a move) it does nothing. *)
Theorem destructor_destroys_live_values_once :
  forall (T : Type) (s : sparse_vector T) (fuel : nat),
    wf s -> size s < fuel ->
    exists s',
      destructor fuel s = Some (Ok (values_by_index s, s')) /\
      data_ s' = None /\ size s' = 0 /\
      destructor fuel s' = Some (Ok ([], s')) /\
      destructor fuel (snd (sparse_vector_move s)) =
        Some (Ok ([], snd (sparse_vector_move s))).
Proof.
  intros T s fuel Hwf Hfuel. unfold size in *.
  eexists. split; [apply destructor_spec; assumption|].
  simpl. repeat split.
Qed.

Lemma destructor_destroys_live_values_once_witness :
  exists s' : sparse_vector Z,
    destructor 3
      {| data_ := Some [vacant; live 20%Z]; size_ := 2; capacity_ := 2;
         freeIndeces_ := [0] |} =
      Some (Ok (values_by_index (T:=Z)
                  {| data_ := Some [vacant; live 20%Z]; size_ := 2;
                     capacity_ := 2; freeIndeces_ := [0] |}, s')) /\
    data_ s' = None /\ size s' = 0 /\
    destructor 3 s' = Some (Ok ([], s')) /\
    destructor 3 (snd (sparse_vector_move (T:=Z)
      {| data_ := Some [vacant; live 20%Z]; size_ := 2; capacity_ := 2;
         freeIndeces_ := [0] |})) =
      Some (Ok ([], snd (sparse_vector_move (T:=Z)
        {| data_ := Some [vacant; live 20%Z]; size_ := 2; capacity_ := 2;
           freeIndeces_ := [0] |}))).
Proof.
  apply (destructor_destroys_live_values_once Z
    {| data_ := Some [vacant; live 20%Z]; size_ := 2; capacity_ := 2;
       freeIndeces_ := [0] |} 3).
  - reflexivity.
  - unfold size. simpl. lia.
Defined.

(** X18.  [resize] to a smaller size destroys nothing, and the destructor
    walks the cells below the size only: after [resize(newSize)] with
    [newSize] not above the size, the destructor runs for the live values
    at the indices below [newSize] and for no value at or above it. *)
Theorem resize_below_size_leaves_values_undestroyed :
  forall (T : Type) (s : sparse_vector T) (newSize fuel : nat),
    wf s -> newSize <= size s -> newSize < fuel ->
    exists s1 s2,
      resize newSize s = Ok s1 /\
      data_ s1 = data_ s /\
      destructor fuel s1 =
        Some (Ok (omap (value_at s) (seq 0 newSize), s2)) /\
      data_ s2 = None.
Proof.
  intros T s n fuel Hwf Hn Hfuel. unfold size in *.
  pose proof (resize_shrink s n Hwf Hn) as Hr.
  assert (Hwf1 : wf (set_size n s)) by (eapply resize_wf; eassumption).
  exists (set_size n s),
    {| data_ := None; size_ := 0; capacity_ := capacity_ s;
       freeIndeces_ := freeIndeces_ s |}.
  split; [exact Hr|]. split; [reflexivity|].
  split; [|reflexivity].
  rewrite (destructor_spec _ fuel Hwf1) by (simpl; lia).
  simpl. do 3 f_equal. unfold values_by_index. simpl.
  apply omap_pointwise; [reflexivity|].
  intros i x y Hx Hy. rewrite Hx in Hy. injection Hy as <-.
  apply lookup_seq in Hx as [-> Hi]. simpl.
  unfold value_at, at_. simpl.
  destruct (Nat.leb_spec n i), (Nat.leb_spec (size_ s) i);
    try reflexivity; lia.
Qed.

Lemma resize_below_size_leaves_values_undestroyed_witness :
  exists s1 s2 : sparse_vector Z,
    resize 1 {| data_ := Some [live 10%Z; live 20%Z]; size_ := 2;
                capacity_ := 2; freeIndeces_ := [] |} = Ok s1 /\
    data_ s1 = Some [live 10%Z; live 20%Z] /\
    destructor 2 s1 =
      Some (Ok (omap (value_at (T:=Z)
                  {| data_ := Some [live 10%Z; live 20%Z]; size_ := 2;
                     capacity_ := 2; freeIndeces_ := [] |}) (seq 0 1), s2)) /\
    data_ s2 = None.
Proof.
  apply (resize_below_size_leaves_values_undestroyed Z
    {| data_ := Some [live 10%Z; live 20%Z]; size_ := 2; capacity_ := 2;
       freeIndeces_ := [] |} 1 2).
  - reflexivity.
  - unfold size. simpl. lia.
  - lia.
Defined.

(** X19.  [pop_back] calls the destructor of its last cell without a test
    of the flag.  After [erase_at] of the last index, which has destroyed
    the value there and registered the index as free, [pop_back] calls the
    destructor on a slot that holds no object: its behaviour is
    undefined. *)
Theorem pop_back_after_erase_at_of_last_index :
  forall (T : Type) (s : sparse_vector T) (v : T),
    at_ (size s - 1) s = Ok v ->
    exists s1,
      erase_at (size s - 1) s = Ok s1 /\
      size s1 = size s /\
      exist_at (size s - 1) s1 = Ok false /\
      last (get_free_cells s1) = Some (size s - 1) /\
      pop_back s1 = Undefined.
Proof.
  intros T s v Hat. unfold size, get_free_cells in *.
  apply at_Ok in Hat as (Hi & buf & c & Hd & Hc & He & Hv).
  assert (Hib : size_ s - 1 < length buf) by (apply lookup_lt_is_Some; eauto).
  assert (Hvac : <[size_ s - 1 := vacant]> buf !! (size_ s - 1)
                 = Some (@vacant T))
    by (apply list_lookup_insert_eq; assumption).
  eexists. split.
  { apply (erase_at_live _ s buf c v); (assumption || lia). }
  simpl. split; [reflexivity|]. split.
  { apply exist_at_Ok. right. simpl. split; [assumption|]. eauto. }
  split; [apply last_snoc|].
  apply (pop_back_empty_slot _ (<[size_ s - 1 := vacant]> buf) vacant);
    simpl; (reflexivity || assumption || lia).
Qed.

Lemma pop_back_after_erase_at_of_last_index_witness :
  let s : sparse_vector Z :=
    {| data_ := Some [live 10%Z; live 20%Z]; size_ := 2; capacity_ := 2;
       freeIndeces_ := [] |} in
  exists s1 : sparse_vector Z,
    erase_at (2 - 1) s = Ok s1 /\
    size s1 = 2 /\
    exist_at (2 - 1) s1 = Ok false /\
    last (get_free_cells s1) = Some (2 - 1) /\
    pop_back s1 = Undefined.
Proof.
  cbv zeta.
  apply (pop_back_after_erase_at_of_last_index Z
    {| data_ := Some [live 10%Z; live 20%Z]; size_ := 2; capacity_ := 2;
       freeIndeces_ := [] |} 20%Z).
  reflexivity.
Defined.

(** ** The argument of an insertion *)

(** X20.  [push_free] and [emplace_free] read their argument when they
    construct the new value.  Given a reference to the value of a live
    cell [j] of the container itself, as [at(j)] returns it, they insert
    that value as long as the buffer stays where it is: when there is a
    free index, other than [j], or room below the capacity.  When the
    insertion has to grow the buffer, the argument refers into the buffer
    that the relocation has released, and the read is undefined. *)
Theorem insertion_of_an_element :
  forall (T : Type) (s : sparse_vector T) (j : nat) (v : T),
    wf s -> at_ j s = Ok v ->
    (last (get_free_cells s) <> Some j ->
     get_free_cells s <> [] \/ size s <> capacity s ->
     push_free (Internal j) s = push_free (External v) s /\
     emplace_free (Internal j) s = emplace_free (External v) s) /\
    (get_free_cells s = [] -> size s = capacity s ->
     push_free (Internal j) s = Undefined /\
     emplace_free (Internal j) s = Undefined).
Proof.
  intros T s j v Hwf Hat. unfold get_free_cells, size, capacity.
  assert (Hrv : read_value (data_ s) j = Ok v).
  { apply at_Ok in Hat as (_ & buf & c & Hd & Hc & _ & Hv).
    rewrite Hd. apply read_value_Ok. eauto. }
  assert (Hj : j < size_ s) by (apply at_Ok in Hat as [Hj _]; exact Hj).
  split.
  - intros Hlast Hroom.
    assert (H : push_free (Internal j) s = push_free (External v) s).
    { unfold push_free.
      destruct (last (freeIndeces_ s)) as [i|] eqn:Hl; simpl.
      - assert (Hji : (j =? i) = false)
          by (apply Nat.eqb_neq; congruence).
        rewrite Hji, Hrv. reflexivity.
      - apply last_None in Hl.
        destruct Hroom as [Hne | Hne]; [congruence|].
        apply Nat.eqb_neq in Hne. rewrite Hne. simpl.
        assert (Hjs : (j =? size_ s) = false)
          by (apply Nat.eqb_neq; lia).
        rewrite Hjs, Hrv. reflexivity. }
    split; exact H.
  - intros Hfree Hfull.
    destruct (wf_data s Hwf) as [buf Hd].
    pose proof (proj1 (wf_Some _ _ Hd) Hwf) as (Hlen & Hsz & _).
    destruct (reallocate_wf s (capacity_ s * 2) Hwf) as
      (g & _ & _ & Hr & _); [lia|].
    pose proof (push_free_grow_internal j s g) as H.
    rewrite Hfree in H. specialize (H eq_refl Hfull Hr).
    split; exact H.
Qed.

Lemma insertion_of_an_element_witness :
  let s : sparse_vector Z :=
    {| data_ := Some [live 10%Z; live 20%Z]; size_ := 2; capacity_ := 2;
       freeIndeces_ := [] |} in
  let t : sparse_vector Z :=
    {| data_ := Some [live 10%Z; vacant]; size_ := 2; capacity_ := 2;
       freeIndeces_ := [1] |} in
  (push_free (Internal 0) s = Undefined /\
   emplace_free (Internal 0) s = Undefined) /\
  (push_free (Internal 0) t = push_free (External 10%Z) t /\
   emplace_free (Internal 0) t = emplace_free (External 10%Z) t) /\
  push_free (Internal 0) t =
    Ok (1, {| data_ := Some [live 10%Z; live 10%Z]; size_ := 2;
              capacity_ := 2; freeIndeces_ := [] |}).
Proof.
  cbv zeta. split; [|split].
  - apply (proj2 (insertion_of_an_element Z
      {| data_ := Some [live 10%Z; live 20%Z]; size_ := 2; capacity_ := 2;
         freeIndeces_ := [] |} 0 10%Z eq_refl eq_refl)); reflexivity.
  - apply (proj1 (insertion_of_an_element Z
      {| data_ := Some [live 10%Z; vacant]; size_ := 2; capacity_ := 2;
         freeIndeces_ := [1] |} 0 10%Z eq_refl eq_refl)).
    + discriminate.
    + left. discriminate.
  - reflexivity.
Defined.
